(** * cortes-automaticos: the algorithmic core of the clip pipeline

    A shallow embedding of the pure parts of [src/services/analysis.js]
    (parseTimestamp, parseSRT, chunkSRTByDuration, removeOverlaps) and of the
    silence inversion inside [removeSilence] in [src/services/videoProcessor.js],
    followed by the properties the specification states about them.

    Around these: analyzeTranscription with the answers of the language model
    as a parameter, the reading of the silences off ffmpeg's report and
    concatenateVideos given the exit code of ffmpeg ([videoProcessor.js]),
    the loop over the clips in [server.js] with the file system and ffmpeg as
    parameters, and the title of a clip's file in [process_local.js]; their
    properties come after those of the specification.

    JavaScript numbers are IEEE binary64 values.  The program only uses
    [+ - * /], the comparisons, [===], [||] and [Math.max]/[Math.min] on them,
    so the functions below are written once over an interface [JsNumber] and
    run on two models of it:
    - [binary64]: Rocq's primitive floats, the numbers the program really
      computes with; what is proved of them in general rests on the
      specification of the primitive operations ([FloatAxioms]);
    - [exact]: rationals extended with NaN, where the arithmetic is exact and
      a decimal such as 5.1 is the fraction it looks like.
    What does not depend on the numbers is proved for any model at all. *)

From Stdlib Require Import Ascii String List Bool ZArith QArith Lia Lqa.
From Stdlib Require Import Permutation Sorted.
From Stdlib Require Import Floats.
From Stdlib Require DecimalString DecimalNat.
Import ListNotations.

(* Decimal literals stand for the nearest binary64 value, as in JavaScript. *)
Set Warnings "-inexact-float".

(** ** Numbers *)

Class JsNumber (num : Type) : Type := {
  of_Z : Z -> num;              (* an integer literal, or the value parseInt read *)
  nan : num;
  add : num -> num -> num;
  sub : num -> num -> num;
  mul : num -> num -> num;
  div : num -> num -> num;
  ltb : num -> num -> bool;     (* a < b *)
  leb : num -> num -> bool;     (* a <= b *)
  eqb : num -> num -> bool      (* a === b *)
}.

Section NumberOps.
Context {num : Type} `{JsNumber num}.

Definition zero : num := of_Z 0.
Definition one : num := of_Z 1.

(** [a > b] and [a !== b] as JavaScript evaluates them. *)
Definition gtb (a b : num) : bool := ltb b a.
Definition neqb (a b : num) : bool := negb (eqb a b).

(** NaN is the only number different from itself. *)
Definition isNaN (a : num) : bool := negb (eqb a a).

(** A number that is neither NaN nor infinite: [a - a] is 0 for these only. *)
Definition isFinite (a : num) : bool := eqb (sub a a) zero.

(** ToBoolean on a number: [0], [-0] and NaN are falsy. *)
Definition truthy (a : num) : bool := negb (eqb a zero || isNaN a).

(** The decimal literals of the program: correctly rounded quotients. *)
Definition lit_0_1 : num := div (of_Z 1) (of_Z 10).
Definition lit_0_5 : num := div (of_Z 1) (of_Z 2).

(** [Math.max] and [Math.min] of two arguments: NaN is contagious and
    [+0] is larger than [-0] (the sign of a zero is read off [1/a]). *)
Definition Math_max (a b : num) : num :=
  if isNaN a || isNaN b then nan
  else if ltb a b then b
  else if ltb b a then a
  else if ltb (div one a) zero then b else a.

Definition Math_min (a b : num) : num :=
  if isNaN a || isNaN b then nan
  else if ltb a b then a
  else if ltb b a then b
  else if ltb (div one a) zero then a else b.

End NumberOps.

(** *** The exact model: rationals and NaN.  There are no infinities and
    there is one zero; a division by zero gives NaN (the program divides by
    literals other than 0 only; [Math_max] and [Math_min] then find no
    negative zero).  Results are kept in lowest terms, so that equal numbers
    computed in different ways are the same term. *)

Inductive exact : Type :=
| ENaN
| ENum (q : Q).

Definition exact_lift2 (f : Q -> Q -> Q) (a b : exact) : exact :=
  match a, b with
  | ENum x, ENum y => ENum (Qred (f x y))
  | _, _ => ENaN
  end.

Definition exact_div (a b : exact) : exact :=
  match a, b with
  | ENum x, ENum y => if Qeq_bool y 0 then ENaN else ENum (Qred (x / y))
  | _, _ => ENaN
  end.

Definition exact_cmp (f : Q -> Q -> bool) (a b : exact) : bool :=
  match a, b with
  | ENum x, ENum y => f x y
  | _, _ => false
  end.

#[export] Instance exact_number : JsNumber exact := {|
  of_Z := fun z => ENum (inject_Z z);
  nan := ENaN;
  add := exact_lift2 Qplus;
  sub := exact_lift2 Qminus;
  mul := exact_lift2 Qmult;
  div := exact_div;
  ltb := exact_cmp (fun x y => negb (Qle_bool y x));
  leb := exact_cmp Qle_bool;
  eqb := exact_cmp Qeq_bool
|}.

(** *** The binary64 model: the kernel's primitive floats, rounding to
    nearest even.  An integer becomes the nearest double. *)

Definition binary64 : Type := PrimFloat.float.

Definition binary64_of_Z (z : Z) : binary64 :=
  SF2Prim (binary_normalize prec emax z 0 false).

#[export] Instance binary64_number : JsNumber binary64 := {|
  of_Z := binary64_of_Z;
  nan := PrimFloat.nan;
  add := PrimFloat.add;
  sub := PrimFloat.sub;
  mul := PrimFloat.mul;
  div := PrimFloat.div;
  ltb := PrimFloat.ltb;
  leb := PrimFloat.leb;
  eqb := PrimFloat.eqb
|}.

(** ** Exceptions *)

Inductive exn : Type :=
| TypeError.

Inductive result (A : Type) : Type :=
| Ok (a : A)
| Throw (e : exn).
Arguments Ok {A} a.
Arguments Throw {A} e.

Definition bind {A B : Type} (r : result A) (k : A -> result B) : result B :=
  match r with
  | Ok a => k a
  | Throw e => Throw e
  end.

Notation "x <- r ;; k" := (bind r (fun x => k))
  (at level 61, r at next level, right associativity).

(** ** Strings

    A string is the list of its code units; the code units modelled are the
    256 of [ascii] (Latin-1), which is all the subtitle syntax needs. *)

Definition str : Type := list ascii.

(** A string literal. *)
Definition lit (s : string) : str := list_ascii_of_string s.

Definition str_eqb (a b : str) : bool :=
  if list_eq_dec ascii_dec a b then true else false.

(** [undefined] or a string, as [parseTimestamp] and destructuring see them. *)
Definition maybe_str : Type := option str.

Fixpoint startsWith (p s : str) : bool :=
  match p, s with
  | [], _ => true
  | _ :: _, [] => false
  | a :: p', b :: s' => Ascii.eqb a b && startsWith p' s'
  end.

(** [s.split(sep)] for a non-empty separator: the pieces between the
    leftmost, non-overlapping occurrences of [sep].  [skip] counts the
    code units of a separator still to be passed over. *)
Fixpoint split_from (sep : str) (skip : nat) (s : str) : list str :=
  match s with
  | [] => [[]]
  | c :: s' =>
      match skip with
      | S k => split_from sep k s'
      | O =>
          if startsWith sep s then [] :: split_from sep (length sep - 1) s'
          else match split_from sep 0 s' with
               | piece :: pieces => (c :: piece) :: pieces
               | [] => [[c]]
               end
      end
  end.

Definition split (sep s : str) : list str := split_from sep 0 s.

(** [parts.join(sep)] *)
Fixpoint join (sep : str) (parts : list str) : str :=
  match parts with
  | [] => []
  | [p] => p
  | p :: rest => p ++ sep ++ join sep rest
  end.

(** White space as [trim] and [parseInt] see it (within Latin-1):
    TAB, LF, VT, FF, CR, SPACE and NBSP. *)
Definition isWhite (c : ascii) : bool :=
  let n := nat_of_ascii c in
  ((9 <=? n) && (n <=? 13) || (n =? 32) || (n =? 160))%nat.

Fixpoint trimStart (s : str) : str :=
  match s with
  | [] => []
  | c :: s' => if isWhite c then trimStart s' else s
  end.

Definition trimEnd (s : str) : str := rev (trimStart (rev s)).

Definition trim (s : str) : str := trimEnd (trimStart s).

(** [s.replace(/\r\n/g, '\n')]: every CR that is followed by LF goes. *)
Definition CR : ascii := ascii_of_nat 13.
Definition LF : ascii := ascii_of_nat 10.

Fixpoint replaceCRLF (s : str) : str :=
  match s with
  | [] => []
  | c :: s' =>
      if Ascii.eqb c CR && startsWith [LF] s' then replaceCRLF s'
      else c :: replaceCRLF s'
  end.

Definition isDigit (c : ascii) : bool :=
  let n := nat_of_ascii c in ((48 <=? n) && (n <=? 57))%nat.

Definition digitVal (c : ascii) : Z := Z.of_nat (nat_of_ascii c) - 48.

Definition isHexDigit (c : ascii) : bool :=
  let n := nat_of_ascii c in
  (isDigit c || (65 <=? n) && (n <=? 70) || (97 <=? n) && (n <=? 102))%nat.

Definition hexVal (c : ascii) : Z :=
  let n := Z.of_nat (nat_of_ascii c) in
  if isDigit c then n - 48 else if (n <=? 70)%Z then n - 55 else n - 87.

Fixpoint takeWhile (p : ascii -> bool) (s : str) : str :=
  match s with
  | [] => []
  | c :: s' => if p c then c :: takeWhile p s' else []
  end.

(** The integer a numeral denotes, most significant digit first. *)
Definition numeralValue (radix : Z) (val : ascii -> Z) (ds : str) : Z :=
  fold_left (fun acc c => acc * radix + val c)%Z ds 0%Z.

(** The pattern [/(\d{2}:\d{2}:\d{2},\d{3}) -->/] of parseSRT: a sequence of
    single-unit items, so a match at a position is a prefix test. *)
Inductive item : Type :=
| Digit
| Unit (c : ascii).

Definition timePattern : list item :=
  [Digit; Digit; Unit ":"; Digit; Digit; Unit ":"; Digit; Digit; Unit ",";
   Digit; Digit; Digit; Unit " "; Unit "-"; Unit "-"; Unit ">"]%char.

Fixpoint matchHere (p : list item) (s : str) : bool :=
  match p, s with
  | [], _ => true
  | _ :: _, [] => false
  | Digit :: p', c :: s' => isDigit c && matchHere p' s'
  | Unit a :: p', c :: s' => Ascii.eqb a c && matchHere p' s'
  end.

(** [timeLine.match(...)]: the leftmost match, of which the program reads
    group 1 only, the twelve units of the start timestamp. *)
Fixpoint timeMatch (timeLine : str) : option str :=
  match timeLine with
  | [] => None
  | _ :: rest =>
      if matchHere timePattern timeLine then Some (firstn 12 timeLine)
      else timeMatch rest
  end.

(** A callback that may throw, run over an array by [forEach]. *)
Fixpoint forEachM {A S : Type} (f : S -> A -> result S) (l : list A) (s : S)
  : result S :=
  match l with
  | [] => Ok s
  | a :: l' => s' <- f s a ;; forEachM f l' s'
  end.

(** An object used as a map: its own properties in enumeration order, which
    is the keys that are array indices first, in ascending order, and then
    the other keys in the order of their creation.  Prototypes are not
    modelled: [objGet] reads an own property, [keys] is [Object.keys]. *)
Definition object (V : Type) : Type := list (str * V).

Definition keys {V : Type} (o : object V) : list str := map fst o.

Definition hasOwn {V : Type} (o : object V) (k : str) : bool :=
  existsb (fun k' => str_eqb k' k) (keys o).

Fixpoint objGet {V : Type} (o : object V) (k : str) : option V :=
  match o with
  | [] => None
  | (k', v') :: o' => if str_eqb k' k then Some v' else objGet o' k
  end.

(** An array index: the canonical numeral of an integer from 0 to 2^32 - 2. *)
Definition arrayIndex (k : str) : option Z :=
  match k with
  | [] => None
  | c :: rest =>
      if forallb isDigit k
         && (negb (Ascii.eqb c "0"%char) || (length rest =? 0)%nat)
      then
        let n := numeralValue 10 digitVal k in
        if (n <=? 4294967294)%Z then Some n else None
      else None
  end.

(** Whether a new key [k] is enumerated before the key [k']. *)
Definition goesBefore (k k' : str) : bool :=
  match arrayIndex k, arrayIndex k' with
  | Some i, Some j => (i <? j)%Z
  | Some _, None => true
  | None, _ => false
  end.

Fixpoint objReplace {V : Type} (o : object V) (k : str) (v : V) : object V :=
  match o with
  | [] => []
  | (k', v') :: o' =>
      if str_eqb k' k then (k', v) :: o' else (k', v') :: objReplace o' k v
  end.

Fixpoint objInsert {V : Type} (o : object V) (k : str) (v : V) : object V :=
  match o with
  | [] => [(k, v)]
  | (k', v') :: o' =>
      if goesBefore k k' then (k, v) :: o else (k', v') :: objInsert o' k v
  end.

Definition protoKey : str := lit "__proto__".

(** The assignment [o[k] = v] of an object [v] to a property of an object
    made by [{}]: an own property is overwritten where it is; a new key is
    created at its place in the enumeration, except [__proto__]: that
    assignment runs the setter of [Object.prototype], which makes [v] the
    prototype of [o] and creates no own property. *)
Definition objSet {V : Type} (o : object V) (k : str) (v : V) : object V :=
  if hasOwn o k then objReplace o k v
  else if str_eqb k protoKey then o
  else objInsert o k v.

(** [arr.sort(cmp)]: a stable sort; [b] goes before [a] exactly when
    [cmp a b > 0] (a NaN from the comparator counts as [+0]).  Every stable
    sort gives this order when the comparator is consistent; when it is not
    the order is the engine's own, and this is the one of an insertion from
    the right. *)
Section ArraySort.
Context {num : Type} `{JsNumber num} {A : Type}.
Variable cmp : A -> A -> num.

Fixpoint insertSorted (x : A) (l : list A) : list A :=
  match l with
  | [] => [x]
  | y :: l' => if gtb (cmp x y) zero then y :: insertSorted x l' else x :: l
  end.

Definition arraySort (l : list A) : list A := fold_right insertSorted [] l.

End ArraySort.

(** The sign and the radix prefix that [parseInt] looks for. *)
Definition stripSign (s : str) : bool * str :=
  match s with
  | "-"%char :: r => (true, r)
  | "+"%char :: r => (false, r)
  | _ => (false, s)
  end.

Definition hexPrefix (s : str) : bool :=
  startsWith (lit "0x") s || startsWith (lit "0X") s.

(** ** analysis.js *)

Section Analysis.
Context {num : Type} `{JsNumber num}.

(** [parseInt(v)] with no radix: leading white space, a sign, [0x] for
    hexadecimal, then the longest run of digits, read exactly and rounded to
    the nearest number; NaN when there is no digit.  [parseInt(undefined)]
    reads the string "undefined". *)
Definition parseInt (v : maybe_str) : num :=
  match v with
  | None => nan
  | Some s =>
      let '(negative, s') := stripSign (trimStart s) in
      let hex := hexPrefix s' in
      let digits :=
        if hex then takeWhile isHexDigit (skipn 2 s') else takeWhile isDigit s' in
      match digits with
      | [] => nan
      | _ :: _ =>
          let n := of_Z (if hex then numeralValue 16 hexVal digits
                         else numeralValue 10 digitVal digits) in
          if negative then mul (of_Z (-1)) n else n
      end
  end.

(** analysis.js, lines 9-14. *)
Definition parseTimestamp (timeStr : maybe_str) : result num :=
  match timeStr with
  | None => Ok zero
  | Some [] => Ok zero
  | Some t =>
      let parts := split (lit ":") t in
      let h := nth_error parts 0 in
      let m := nth_error parts 1 in
      match nth_error parts 2 with
      | None => Throw TypeError
      | Some s =>
          let parts' := split (lit ",") s in
          let sec := nth_error parts' 0 in
          let ms := nth_error parts' 1 in
          Ok (add (add (add (mul (parseInt h) (of_Z 3600))
                            (mul (parseInt m) (of_Z 60)))
                       (parseInt sec))
                  (div (parseInt ms) (of_Z 1000)))
      end
  end.

Record Entry : Type := {
  id : str;
  timeLine : str;
  startSeconds : num;
  text : str;
  fullBlock : str
}.

(** The lines of a block the parser keeps: [l.trim() !== ''] *)
Definition keptLines (block : str) : list str :=
  filter (fun l => negb (str_eqb (trim l) [])) (split [LF] block).

(** The callback of [blocks.forEach] in parseSRT, lines 22-41. *)
Definition parseBlock (entries : list Entry) (block : str)
  : result (list Entry) :=
  let lines := keptLines block in
  if (3 <=? length lines)%nat then
    let id := nth 0 lines [] in
    let timeLine := nth 1 lines [] in
    let text := join (lit " ") (skipn 2 lines) in
    startSeconds <-
      match timeMatch timeLine with
      | Some group1 => parseTimestamp (Some group1)
      | None => Ok zero
      end ;;
    Ok (entries ++ [{| id := id; timeLine := timeLine;
                       startSeconds := startSeconds; text := text;
                       fullBlock := block |}])
  else Ok entries.

Definition blocksOf (srtContent : str) : list str :=
  split [LF; LF] (replaceCRLF srtContent).

(** analysis.js, lines 17-44. *)
Definition parseSRT (srtContent : str) : result (list Entry) :=
  forEachM parseBlock (blocksOf srtContent) [].

(** The variables of chunkSRTByDuration that its loop updates. *)
Record ChunkState : Type := {
  chunks : list (list Entry);
  currentChunk : list Entry;
  chunkStartTime : num
}.

(** The callback of [entries.forEach], lines 53-63. *)
Definition chunkStep (durationSeconds : num) (st : ChunkState) (entry : Entry)
  : ChunkState :=
  let chunkStartTime' :=
    if eqb (chunkStartTime st) (of_Z (-1)) then startSeconds entry
    else chunkStartTime st in
  if gtb (sub (startSeconds entry) chunkStartTime') durationSeconds
     && (0 <? length (currentChunk st))%nat
  then {| chunks := chunks st ++ [currentChunk st];
          currentChunk := [entry];
          chunkStartTime := startSeconds entry |}
  else {| chunks := chunks st;
          currentChunk := currentChunk st ++ [entry];
          chunkStartTime := chunkStartTime' |}.

Definition chunkInit : ChunkState :=
  {| chunks := []; currentChunk := []; chunkStartTime := of_Z (-1) |}.

(** The flush after the loop, lines 65-69. *)
Definition chunkFlush (st : ChunkState) : list (list Entry) :=
  if (0 <? length (currentChunk st))%nat then chunks st ++ [currentChunk st]
  else chunks st.

(** The chunker for a window given in seconds. *)
Definition chunkBySeconds (entries : list Entry) (durationSeconds : num)
  : list (list Entry) :=
  chunkFlush (fold_left (chunkStep durationSeconds) entries chunkInit).

(** analysis.js, lines 47-70; the caller passes [durationMinutes]
    (12 in analyzeTranscription, 10 when it is left out). *)
Definition chunkSRTByDuration (entries : list Entry) (durationMinutes : num)
  : list (list Entry) :=
  chunkBySeconds entries (mul durationMinutes (of_Z 60)).

(** A proposed cut, as the language model's JSON gives it: [score] and
    [titulo] may be missing; there is no property named [key] or [duration]. *)
Record Moment : Type := {
  start : num;
  end_ : num;
  titulo : option str;
  score : option num
}.

(** [{ key, ...val, duration: val.end - val.start }] *)
Record Clip : Type := {
  key : str;
  val : Moment;
  duration : num
}.

Definition toClip (kv : str * Moment) : Clip :=
  {| key := fst kv; val := snd kv;
     duration := sub (end_ (snd kv)) (start (snd kv)) |}.

(** [c.score || 0] *)
Definition scoreOr0 (c : Clip) : num :=
  match score (val c) with
  | Some s => if truthy s then s else zero
  | None => zero
  end.

(** The comparator of [clips.sort], lines 82-87. *)
Definition compareClips (a b : Clip) : num :=
  let scoreA := scoreOr0 a in
  let scoreB := scoreOr0 b in
  if neqb scoreB scoreA then sub scoreB scoreA
  else sub (duration b) (duration a).

(** The test of line 97. *)
Definition overlaps (clip selected : Clip) : bool :=
  ltb (start (val clip)) (sub (end_ (val selected)) lit_0_5)
  && ltb (start (val selected)) (sub (end_ (val clip)) lit_0_5).

Record Selection : Type := {
  selectedClips : list Clip;
  rejectedClips : list Clip
}.

(** The body of the greedy loop, lines 92-108; the inner loop with its
    [break] is [existsb]. *)
Definition selectStep (st : Selection) (clip : Clip) : Selection :=
  let isOverlap := existsb (overlaps clip) (selectedClips st) in
  if negb isOverlap
  then {| selectedClips := selectedClips st ++ [clip];
          rejectedClips := rejectedClips st |}
  else {| selectedClips := selectedClips st;
          rejectedClips := rejectedClips st ++ [clip] |}.

Definition select (clips : list Clip) : Selection :=
  fold_left selectStep clips {| selectedClips := []; rejectedClips := [] |}.

(** Lines 111-117: [key] and [duration] are deleted, the rest is stored. *)
Definition toResult (selected : list Clip) : object Moment :=
  fold_left (fun result clip => objSet result (key clip) (val clip)) selected [].

(** analysis.js, lines 73-121 (the log line apart). *)
Definition removeOverlaps (momentsMap : object Moment) : object Moment :=
  let clips := arraySort compareClips (map toClip momentsMap) in
  toResult (selectedClips (select clips)).

End Analysis.

(** ** videoProcessor.js: the inversion of the silences in removeSilence *)

Section Silence.
Context {num : Type} `{JsNumber num}.

Record Segment : Type := {
  seg_start : num;
  seg_end : num
}.

Definition PADDING : num := lit_0_1.

Record InvertState : Type := {
  sounds : list Segment;
  lastEnd : num
}.

(** The callback of [silences.forEach], lines 149-157. *)
Definition invertStep (totalDuration : num) (st : InvertState) (s : Segment)
  : InvertState :=
  {| sounds :=
       if gtb (sub (seg_start s) (lastEnd st)) lit_0_1
       then sounds st ++
            [{| seg_start := Math_max zero (sub (lastEnd st) PADDING);
                seg_end := Math_min totalDuration (add (seg_start s) PADDING) |}]
       else sounds st;
     lastEnd := seg_end s |}.

(** Lines 146-161: the sound segments, the trailing one included. *)
Definition soundSegments (silences : list Segment) (totalDuration : num)
  : list Segment :=
  let st := fold_left (invertStep totalDuration) silences
                      {| sounds := []; lastEnd := zero |} in
  if ltb (lastEnd st) totalDuration
  then sounds st ++
       [{| seg_start := sub (lastEnd st) PADDING; seg_end := totalDuration |}]
  else sounds st.

(** What removeSilence goes on to do with the input file. *)
Inductive Plan : Type :=
| CopyOriginal
| CutSegments (segments : list Segment).

(** Lines 136-167: no silence, or no sound, copies the file. *)
Definition removeSilence (silences : list Segment) (totalDuration : num) : Plan :=
  if (length silences =? 0)%nat then CopyOriginal
  else
    let sounds := soundSegments silences totalDuration in
    if (length sounds =? 0)%nat then CopyOriginal
    else CutSegments sounds.

End Silence.

(** ** Vocabulary of the properties *)

Section Vocabulary.
Context {num : Type} `{JsNumber num}.

(** Everything the chunker's loop has consumed so far, in order. *)
Definition consumed (st : @ChunkState num) : list Entry :=
  concat (chunks st) ++ currentChunk st.

Definition closedChunksNonEmpty (st : @ChunkState num) : Prop :=
  Forall (fun chunk => chunk <> []) (chunks st).

(** Two clips that the test of the greedy loop keeps apart. *)
Definition apart (a b : @Clip num) : Prop := overlaps a b = false.

(** The entry of the result object a selected clip becomes. *)
Definition entryOf (c : @Clip num) : str * Moment := (key c, val c).

(** Entries in non-decreasing order of [startSeconds]. *)
Definition sortedByStart (entries : list (@Entry num)) : Prop :=
  Sorted (fun a b => leb (startSeconds a) (startSeconds b) = true) entries.

(** [chunk[-1].startSeconds - chunk[0].startSeconds <= w] *)
Definition spanWithin (w : num) (chunk : list (@Entry num)) : bool :=
  match chunk with
  | [] => false
  | first :: _ =>
      leb (sub (startSeconds (last chunk first)) (startSeconds first)) w
  end.

(** The bound of the chunker: the span fits the window, or the chunk is a
    single entry. *)
Definition chunkOk (w : num) (chunk : list (@Entry num)) : bool :=
  spanWithin w chunk || (length chunk =? 1)%nat.

(** No entry starts at -1, the value the chunker keeps for "no chunk open". *)
Definition noSentinel (entries : list (@Entry num)) : Prop :=
  Forall (fun e => eqb (startSeconds e) (of_Z (-1)) = false) entries.

(** Every entry starts at a finite number. *)
Definition finiteStarts (entries : list (@Entry num)) : Prop :=
  Forall (fun e => isFinite (startSeconds e) = true) entries.

(** What the chunker's loop maintains when every start is a finite number
    other than -1: closed chunks are within the bound, and the open chunk,
    if there is one, is within it too and [chunkStartTime] is the start of
    its first entry. *)
Definition chunkInv (w : num) (st : @ChunkState num) : Prop :=
  Forall (fun chunk => chunkOk w chunk = true) (chunks st)
  /\ match currentChunk st with
     | [] => chunkStartTime st = of_Z (-1)
     | first :: _ =>
         chunkStartTime st = startSeconds first
         /\ isFinite (startSeconds first) = true
         /\ eqb (startSeconds first) (of_Z (-1)) = false
         /\ spanWithin w (currentChunk st) = true
     end.

(** The first clip of a list has a score no other clip of the list exceeds. *)
Definition headMax (clips : list (@Clip num)) : Prop :=
  match clips with
  | [] => True
  | c0 :: _ => Forall (fun c => leb (scoreOr0 c) (scoreOr0 c0) = true) clips
  end.

(** An entry as the parser makes them: its text is not empty and its start
    has the property given. *)
Definition goodEntry (goodStart : num -> Prop) (e : @Entry num) : Prop :=
  text e <> [] /\ goodStart (startSeconds e).

(** [0 <= a] *)
Definition nonneg (a : num) : Prop := leb zero a = true.

(** The score of a candidate as the specification reads it: the score it
    carries, 0 when it carries none. *)
Definition givenScore (v : @Moment num) : num :=
  match score v with
  | Some s => s
  | None => zero
  end.

(** A candidate whose score, if it carries one, is a number. *)
Definition scoreIsNumber (v : @Moment num) : Prop :=
  match score v with
  | Some s => isNaN s = false
  | None => True
  end.

End Vocabulary.

(** A key that an assignment appends to the enumeration: not [__proto__]
    and not an array index. *)
Definition plainKey (k : str) : Prop := k <> protoKey /\ arrayIndex k = None.

(** A block the parser turns into an entry: three kept lines or more. *)
Definition hasEntry (block : str) : bool := (3 <=? length (keptLines block))%nat.

(** ** The words of the specification for the parser

    What section 4 of the specification calls normalising the line endings,
    a block and a non-empty line, written without the functions of the
    program. *)

(** Line endings normalised: [text] is [s] without the carriage returns
    that a line feed follows. *)
Inductive normalized : str -> str -> Prop :=
| normalized_end : normalized [] []
| normalized_pair s text :
    normalized s text -> normalized (CR :: LF :: s) (LF :: text)
| normalized_unit c s text :
    (c = CR -> forall s', s <> LF :: s') ->
    normalized s text -> normalized (c :: s) (c :: text).

(** The separator [sep] stands in [s] right after the units [a]. *)
Definition occursAfter (sep s a : str) : Prop := exists b, s = a ++ sep ++ b.

(** The pieces of [s] between the separators, each separator being the
    first that begins after the one before. *)
Inductive piecesOf (sep : str) : str -> list str -> Prop :=
| piecesOf_whole s : (forall a, ~ occursAfter sep s a) -> piecesOf sep s [s]
| piecesOf_first p rest pieces :
    (forall a, occursAfter sep (p ++ sep ++ rest) a -> (length p <= length a)%nat) ->
    piecesOf sep rest pieces ->
    piecesOf sep (p ++ sep ++ rest) (p :: pieces).

(** The blocks of a text: its pieces between the blank-line separators, an
    empty line being two line feeds in a row. *)
Definition blocksIn (text : str) (blocks : list str) : Prop :=
  piecesOf [LF; LF] text blocks.

(** The lines of a block: its pieces between the line feeds. *)
Definition linesIn (block : str) (lines : list str) : Prop :=
  piecesOf [LF] block lines.

(** A line that is not empty: it has a unit other than white space. *)
Definition notBlank (line : str) : bool :=
  existsb (fun c => negb (isWhite c)) line.

(** A block with at least 3 non-empty lines. *)
Definition threeLines (block : str) : Prop :=
  exists lines, linesIn block lines /\ (3 <= length (filter notBlank lines))%nat.

(** [kept] holds, in order, the members of [l] that are [P]: one for each,
    none for the others. *)
Inductive oneForEach {A : Type} (P : A -> Prop) : list A -> list A -> Prop :=
| oneForEach_end : oneForEach P [] []
| oneForEach_kept x l kept :
    P x -> oneForEach P l kept -> oneForEach P (x :: l) (x :: kept)
| oneForEach_dropped x l kept :
    ~ P x -> oneForEach P l kept -> oneForEach P (x :: l) kept.

(** A non-empty run of decimal digits, and the number it denotes. *)
Definition numeral (s : str) : Prop := s <> [] /\ forallb isDigit s = true.

Definition decimal (s : str) : Z := numeralValue 10 digitVal s.

(** The text [hh:mm:ss,mmm] built from its four fields. *)
Definition timestampOf (hh mm ss mmm : str) : str :=
  hh ++ lit ":" ++ mm ++ lit ":" ++ ss ++ lit "," ++ mmm.

(** The seconds of a timestamp whose fields are the numerals given. *)
Definition secondsOf {num : Type} `{JsNumber num} (hh mm ss mmm : str) : num :=
  add (add (add (mul (of_Z (decimal hh)) (of_Z 3600))
                (mul (of_Z (decimal mm)) (of_Z 60)))
           (of_Z (decimal ss)))
      (div (of_Z (decimal mmm)) (of_Z 1000)).

(** The fields of a timestamp the pattern of parseSRT matches: two, two, two
    and three digits. *)
Definition fieldsOfMatch (hh mm ss mmm : str) : Prop :=
  (numeral hh /\ length hh = 2%nat) /\ (numeral mm /\ length mm = 2%nat)
  /\ (numeral ss /\ length ss = 2%nat) /\ (numeral mmm /\ length mmm = 3%nat).

(** The shapes of a binary64 value in the specification of the primitive
    floats: one with the sign given (a zero, an infinity or a finite number),
    one that is not NaN, one that is a zero or finite. *)
Definition signed (s : bool) (f : spec_float) : Prop :=
  match f with
  | S754_nan => False
  | S754_zero s' | S754_infinity s' | S754_finite s' _ _ => s' = s
  end.

Definition notNaN (f : spec_float) : Prop :=
  match f with
  | S754_nan => False
  | _ => True
  end.

Definition finiteSF (f : spec_float) : Prop :=
  match f with
  | S754_zero _ | S754_finite _ _ _ => True
  | _ => False
  end.

(** The order the comparison uses on valid positive numbers. *)
Definition magnitude_cmp (m1 : positive) (e1 : Z) (m2 : positive) (e2 : Z)
  : comparison :=
  match (e1 ?= e2)%Z with
  | Lt => Lt
  | Gt => Gt
  | Eq => Pos.compare_cont Eq m1 m2
  end.

(** A float that is not zero: an infinity or a finite number, with the sign
    given. *)
Definition positiveSF (s : bool) (f : spec_float) : Prop :=
  match f with
  | S754_infinity s' | S754_finite s' _ _ => s' = s
  | _ => False
  end.

(** The summands of a timestamp, checked one by one over their ranges. *)
Definition summandsNonneg (z : Z) : bool :=
  leb zero (mul (of_Z z) (of_Z 3600) : binary64)
  && leb zero (mul (of_Z z) (of_Z 60) : binary64)
  && leb zero (of_Z z : binary64).

Definition millisNonneg (z : Z) : bool :=
  leb zero (div (of_Z z) (of_Z 1000) : binary64).

(** ** analysis.js: analyzeTranscription

    The call to the language model is the one thing the function does not
    compute itself: [analyzeChunk] is a parameter, the answer the model gave
    for an excerpt and its index, already parsed (analyzeChunk catches its
    own errors and answers with the empty object then).  The answer is taken
    to be what the prompt asks for, an object of moments. *)

(** An index inside a template literal: its decimal numeral. *)
Definition decimalOf (i : nat) : str :=
  lit (DecimalString.NilEmpty.string_of_uint (Nat.to_uint i)).

(** The key of line 151: [chunk], the index, an underscore, the model's key. *)
Definition chunkKey (i : nat) (key : str) : str :=
  lit "chunk" ++ decimalOf i ++ lit "_" ++ key.

Section Transcription.
Context {num : Type} `{JsNumber num}.

(** Line 145: the excerpt sent for a chunk. *)
Definition chunkText (chunk : list (@Entry num)) : str :=
  join [LF; LF] (map fullBlock chunk).

(** Lines 150-152: the answer for chunk [i] goes into [allMoments]. *)
Definition mergeMoments (i : nat) (allMoments chunkMoments : object (@Moment num))
  : object (@Moment num) :=
  fold_left (fun all kv => objSet all (chunkKey i (fst kv)) (snd kv))
            chunkMoments allMoments.

Variable analyzeChunk : str -> nat -> object (@Moment num).

(** The loop of lines 141-153, from index [i] on. *)
Fixpoint analyzeChunks (i : nat) (chunks : list (list (@Entry num)))
                       (allMoments : object (@Moment num))
  : object (@Moment num) :=
  match chunks with
  | [] => allMoments
  | chunk :: rest =>
      let chunkMoments := analyzeChunk (chunkText chunk) i in
      analyzeChunks (S i) rest (mergeMoments i allMoments chunkMoments)
  end.

(** analysis.js, lines 123-165. *)
Definition analyzeTranscription (transcriptionText : str)
  : result (object (@Moment num)) :=
  parsedEntries <- parseSRT transcriptionText ;;
  if (length parsedEntries =? 0)%nat then Ok []
  else
    let chunks := chunkSRTByDuration parsedEntries (of_Z 12) in
    let allMoments := analyzeChunks 0 chunks [] in
    Ok (removeOverlaps allMoments).

End Transcription.

(** ** videoProcessor.js: the silences in ffmpeg's report *)

(** A code unit of the class [[\d.]]. *)
Definition isNumberUnit (c : ascii) : bool := isDigit c || Ascii.eqb c "."%char.

(** Group 1 of every match of [/label([\d.]+)/g] that repeated [exec] finds:
    the leftmost match from where the last one ended, the run of digits and
    dots as long as it goes.  [skip] counts the code units of a match still
    to be passed over. *)
Fixpoint execAll (label : str) (skip : nat) (s : str) : list str :=
  match s with
  | [] => []
  | _ :: s' =>
      match skip with
      | S k => execAll label k s'
      | O =>
          if startsWith label s then
            match takeWhile isNumberUnit (skipn (length label) s) with
            | [] => execAll label 0 s'
            | group1 =>
                group1 :: execAll label (length label + length group1 - 1) s'
            end
          else execAll label 0 s'
      end
  end.

Section SilenceReport.
Context {num : Type} `{JsNumber num}.

(** [parseFloat], a built-in: the number a run of digits and dots starts
    with.  Nothing below depends on how it reads one. *)
Variable parseFloat : str -> num.

(** The body of the loop of lines 125-130 on [silentSegments] and [i]. *)
Definition pairStep (starts : list num) (st : list (@Segment num) * nat)
                    (endMatch : str) : list (@Segment num) * nat :=
  let '(silentSegments, i) := st in
  (match nth_error starts i with
   | Some s =>
       silentSegments ++ [{| seg_start := s; seg_end := parseFloat endMatch |}]
   | None => silentSegments
   end, S i).

(** Lines 109-131: what [getSilenceSegments] resolves to for the exit code
    and the report of ffmpeg; [None] is the rejection. *)
Definition getSilenceSegments (code : Z) (output : str)
  : option (list (@Segment num)) :=
  if negb (code =? 0)%Z then None
  else
    let starts := map parseFloat (execAll (lit "silence_start: ") 0 output) in
    Some (fst (fold_left (pairStep starts)
                         (execAll (lit "silence_end: ") 0 output) ([], 0%nat))).

End SilenceReport.

(** ** videoProcessor.js: the list file of concatenateVideos *)

Definition backslash : ascii := ascii_of_nat 92.

(** [p.replace(/\\/g, '/')] *)
Definition toSlashes (p : str) : str :=
  map (fun c => if Ascii.eqb c backslash then "/"%char else c) p.

(** One line of the list, line 238. *)
Definition concatLine (p : str) : str := lit "file '" ++ toSlashes p ++ lit "'".

(** Line 238: the content of the list file. *)
Definition fileContent (videoPaths : list str) : str :=
  join [LF] (map concatLine videoPaths).

(** How the promise of concatenateVideos settles: resolved with the output
    path, or rejected with one of its two errors. *)
Inductive ConcatOutcome : Type :=
| Concatenated (outputPath : str)
| NoVideos
| ConcatFailed (code : option Z).

(** What a call has done: the content it wrote to the list file, if it
    wrote one, and how its promise settled. *)
Record ConcatRun : Type := {
  listFile : option str;
  settled : ConcatOutcome
}.

(** Lines 228-272.  [code] is the argument of the [close] event of ffmpeg:
    its exit code, [null] (here [None]) when a signal ended it.  The list
    file is taken to be writable and ffmpeg to start. *)
Definition concatenateVideos (videoPaths : list str) (outputPath : str)
                             (code : option Z) : ConcatRun :=
  if (length videoPaths =? 0)%nat then
    {| listFile := None; settled := NoVideos |}
  else
    {| listFile := Some (fileContent videoPaths);
       settled :=
         match code with
         | Some 0%Z => Concatenated outputPath
         | _ => ConcatFailed code
         end |}.

(** ** process_local.js: the title in a clip's file name *)

Definition isAlnum (c : ascii) : bool :=
  let n := nat_of_ascii c in
  (isDigit c || (65 <=? n) && (n <=? 90) || (97 <=? n) && (n <=? 122))%nat.

(** Line 72:
    [(moment.titulo || 'clip').replace(/[^a-zA-Z0-9]/g, '_').substring(0, 30)] *)
Definition safeTitle {num : Type} (moment : @Moment num) : str :=
  let title :=
    match titulo moment with
    | Some (c :: t) => c :: t
    | _ => lit "clip"
    end in
  firstn 30 (map (fun c => if isAlnum c then c else "_"%char) title).

(** ** server.js: the clips of processVideoPipeline

    The file system and ffmpeg are the environment: [existsSync] is what
    [fs.existsSync] answers in pass [i] of the loop, [processVideo] whether
    the promise of [videoProcessor.processVideo] in pass [i] is resolved
    ([true]) or rejected.  [baseName] is [path.basename] of the video. *)

Section ClipLoop.
Context {num : Type} `{JsNumber num}.

(** [{ name: key, path: outputPath, ...moment }]; [viralMoments[key]] is
    [undefined] for a key the object does not have. *)
Record ProcessedClip : Type := {
  clip_name : str;
  clip_path : str;
  clip_moment : option (@Moment num)
}.

(** A call [processVideo(workingVideoPath, outputPath, start, end)]. *)
Record Render : Type := {
  render_output : str;
  render_start : num;
  render_end : num
}.

Variable baseName : str.
Variable existsSync : nat -> str -> bool.
Variable processVideo : nat -> Render -> bool.

(** Line 109. *)
Definition outputPathOf (key : str) : str :=
  lit "output/" ++ baseName ++ lit "_" ++ key ++ lit ".mp4".

(** The loop of lines 106-125 from pass [i] on: the calls made to
    processVideo, and the clips of the response, [None] when an exception
    reached the [catch] (the response is then the status 500). *)
Fixpoint clipLoop (viralMoments : object (@Moment num)) (i : nat)
                  (keys : list str) (processedClips : list ProcessedClip)
                  (renders : list Render)
  : list Render * option (list ProcessedClip) :=
  match keys with
  | [] => (renders, Some processedClips)
  | key :: rest =>
      let moment := objGet viralMoments key in
      let outputPath := outputPathOf key in
      let clip := {| clip_name := key; clip_path := outputPath;
                     clip_moment := moment |} in
      if existsSync i outputPath
      then clipLoop viralMoments (S i) rest (processedClips ++ [clip]) renders
      else
        match moment with
        | None => (renders, None)
        | Some m =>
            let render := {| render_output := outputPath;
                             render_start := start m; render_end := end_ m |} in
            if processVideo i render
            then clipLoop viralMoments (S i) rest (processedClips ++ [clip])
                          (renders ++ [render])
            else (renders ++ [render], None)
        end
  end.

(** Lines 98 and 105-125. *)
Definition processClips (viralMoments : object (@Moment num))
  : list Render * option (list ProcessedClip) :=
  clipLoop viralMoments 0 (keys viralMoments) [] [].

(** The clip and the call of a moment, and the moments whose file is
    missing in their pass. *)
Definition clipOf (kv : str * @Moment num) : ProcessedClip :=
  {| clip_name := fst kv; clip_path := outputPathOf (fst kv);
     clip_moment := Some (snd kv) |}.

Definition renderOf (kv : str * @Moment num) : Render :=
  {| render_output := outputPathOf (fst kv);
     render_start := start (snd kv); render_end := end_ (snd kv) |}.

Fixpoint missingFrom (i : nat) (moments : object (@Moment num))
  : object (@Moment num) :=
  match moments with
  | [] => []
  | kv :: rest =>
      if existsSync i (outputPathOf (fst kv)) then missingFrom (S i) rest
      else kv :: missingFrom (S i) rest
  end.

End ClipLoop.

(** ** Vocabulary of the further properties *)

(** A text rewritten with Windows line ends: CR LF for every LF. *)
Fixpoint toCRLF (s : str) : str :=
  match s with
  | [] => []
  | c :: s' => if Ascii.eqb c LF then CR :: LF :: toCRLF s' else c :: toCRLF s'
  end.

(** The seconds of the twelve code units [hh:mm:ss,mmm]. *)
Definition stampSeconds {num : Type} `{JsNumber num} (stamp : str) : num :=
  secondsOf (firstn 2 stamp) (firstn 2 (skipn 3 stamp))
            (firstn 2 (skipn 6 stamp)) (skipn 9 stamp).

(** The entry of a block, read off its kept lines: the first, the second,
    the others joined by spaces, and the seconds of the leftmost timestamp
    of the second line, 0 when it has none. *)
Definition readBlock {num : Type} `{JsNumber num} (block : str) : @Entry num :=
  let lines := keptLines block in
  {| id := nth 0 lines [];
     timeLine := nth 1 lines [];
     startSeconds :=
       match timeMatch (nth 1 lines []) with
       | Some stamp => stampSeconds stamp
       | None => zero
       end;
     text := join (lit " ") (skipn 2 lines);
     fullBlock := block |}.

(** A start timestamp with the fields given and the arrow after it stand in
    the line right after the units [a]: what the pattern
    [(\d{2}:\d{2}:\d{2},\d{3}) -->] matches there. *)
Definition stampAfter (line a hh mm ss mmm : str) : Prop :=
  fieldsOfMatch hh mm ss mmm
  /\ occursAfter (timestampOf hh mm ss mmm ++ lit " -->") line a.

(** The first start timestamp of a line. *)
Definition firstStamp (line hh mm ss mmm : str) : Prop :=
  exists a,
    stampAfter line a hh mm ss mmm
    /\ forall a' hh' mm' ss' mmm',
         stampAfter line a' hh' mm' ss' mmm' -> (length a <= length a')%nat.

(** A line without a start timestamp. *)
Definition noStamp (line : str) : Prop :=
  forall a hh mm ss mmm, ~ stampAfter line a hh mm ss mmm.

(** What section 4 of the specification says of an entry and the non-empty
    lines of its block: the first is the id, the second the time line, the
    others, each with a space between it and the next, the text; the start
    is the seconds of the first start timestamp of the time line, 0 when it
    has none. *)
Definition readFrom {num : Type} `{JsNumber num} (e : @Entry num) : Prop :=
  exists lines,
    linesIn (fullBlock e) lines
    /\ nth_error (filter notBlank lines) 0 = Some (id e)
    /\ nth_error (filter notBlank lines) 1 = Some (timeLine e)
    /\ text e ++ lit " "
       = concat (map (fun l => l ++ lit " ") (skipn 2 (filter notBlank lines)))
    /\ (forall hh mm ss mmm,
          firstStamp (timeLine e) hh mm ss mmm ->
          startSeconds e = secondsOf hh mm ss mmm)
    /\ (noStamp (timeLine e) -> startSeconds e = zero).


(** An entry of the candidate map that overlaps another by the test of
    removeOverlaps. *)
Definition overlapping {num : Type} `{JsNumber num} (a b : str * @Moment num)
  : Prop :=
  overlaps (toClip a) (toClip b) = true.

Section Proposals.
Context {num : Type} `{JsNumber num}.
Variable analyzeChunk : str -> nat -> object (@Moment num).

(** The model's answer for chunk [i] under the keys of line 151. *)
Definition renamed (i : nat) (chunk : list (@Entry num)) : object (@Moment num) :=
  map (fun kv => (chunkKey i (fst kv), snd kv)) (analyzeChunk (chunkText chunk) i).

(** Every answer for the chunks from index [i] on, in order. *)
Fixpoint proposals (i : nat) (chunks : list (list (@Entry num)))
  : object (@Moment num) :=
  match chunks with
  | [] => []
  | chunk :: rest => renamed i chunk ++ proposals (S i) rest
  end.

End Proposals.

Section ChunkVocabulary.
Context {num : Type} `{JsNumber num}.

(** The first entry of [c'] starts more than [w] after the first of [c]. *)
Definition startsAfter (w : num) (c c' : list (@Entry num)) : Prop :=
  match c, c' with
  | first :: _, first' :: _ =>
      gtb (sub (startSeconds first') (startSeconds first)) w = true
  | _, _ => False
  end.

(** Each chunk of [cs], and the first after [prev], starts after the one
    before it. *)
Fixpoint forcedAfter (w : num) (prev : list (@Entry num))
                     (cs : list (list (@Entry num))) : Prop :=
  match cs with
  | [] => True
  | c :: rest => startsAfter w prev c /\ forcedAfter w c rest
  end.

Definition splitsForced (w : num) (cs : list (list (@Entry num))) : Prop :=
  match cs with
  | [] => True
  | c :: rest => forcedAfter w c rest
  end.

(** What the chunker's loop maintains when no entry starts at -1: the open
    chunk, if there is one, began at [chunkStartTime], and every chunk so far
    starts after the one before it. *)
Definition splitInv (w : num) (st : @ChunkState num) : Prop :=
  match currentChunk st with
  | [] => chunks st = [] /\ chunkStartTime st = of_Z (-1)
  | first :: _ =>
      chunkStartTime st = startSeconds first
      /\ eqb (startSeconds first) (of_Z (-1)) = false
      /\ splitsForced w (chunks st ++ [currentChunk st])
  end.

End ChunkVocabulary.

(** A silence whose two ends are finite numbers. *)
Definition finiteSegment {num : Type} `{JsNumber num} (s : @Segment num) : Prop :=
  isFinite (seg_start s) = true /\ isFinite (seg_end s) = true.

(** A segment inside the video: it starts at 0 or later and ends at
    [totalDuration] or before. *)
Definition startsInside {num : Type} `{JsNumber num} (g : @Segment num) : Prop :=
  leb zero (seg_start g) = true.

Definition endsInside {num : Type} `{JsNumber num} (totalDuration : num)
                      (g : @Segment num) : Prop :=
  leb (seg_end g) totalDuration = true.

Section WindowVocabulary.
Context {num : Type} `{JsNumber num}.

(** Every entry of the chunk starts at most [w] after the chunk's first. *)
Definition allWithin (w : num) (chunk : list (@Entry num)) : Prop :=
  match chunk with
  | [] => False
  | first :: _ =>
      Forall (fun e => leb (sub (startSeconds e) (startSeconds first)) w = true)
             chunk
  end.

(** What the chunker's loop maintains of it, for finite starts other
    than -1. *)
Definition withinInv (w : num) (st : @ChunkState num) : Prop :=
  Forall (allWithin w) (chunks st)
  /\ match currentChunk st with
     | [] => chunkStartTime st = of_Z (-1)
     | first :: _ =>
         chunkStartTime st = startSeconds first
         /\ isFinite (startSeconds first) = true
         /\ eqb (startSeconds first) (of_Z (-1)) = false
         /\ allWithin w (currentChunk st)
     end.

End WindowVocabulary.

(** A zero, or a finite number below [2^d] in magnitude. *)
Definition smallSF (d : Z) (f : spec_float) : Prop :=
  match f with
  | S754_zero _ => True
  | S754_finite _ m e => (e < d)%Z /\ (Zpos m < 2 ^ (d - e))%Z
  | _ => False
  end.

Definition smallb (d : Z) (x : binary64) : bool :=
  match Prim2SF x with
  | S754_zero _ => true
  | S754_finite _ m e => ((e <? d) && (Zpos m <? 2 ^ (d - e)))%Z
  | _ => false
  end.

(** The summands of a timestamp are below [2^20], checked one by one over
    their ranges. *)
Definition summandsSmall (z : Z) : bool :=
  smallb 20 (mul (of_Z z) (of_Z 3600) : binary64)
  && smallb 20 (mul (of_Z z) (of_Z 60) : binary64)
  && smallb 20 (of_Z z : binary64).

Definition millisSmall (z : Z) : bool :=
  smallb 20 (div (of_Z z) (of_Z 1000) : binary64).



(** * Properties *)

(** ** Strings and objects *)

Lemma str_eqb_eq (a b : str) : str_eqb a b = true <-> a = b.
Proof.
  unfold str_eqb. destruct (list_eq_dec ascii_dec a b); split; congruence.
Qed.

Lemma str_eqb_neq (a b : str) : str_eqb a b = false <-> a <> b.
Proof.
  unfold str_eqb. destruct (list_eq_dec ascii_dec a b); split; congruence.
Qed.

Section Objects.
Context {V : Type}.
Implicit Types (o : object V) (k : str) (v : V).

Lemma hasOwn_In o k : hasOwn o k = true <-> In k (keys o).
Proof.
  unfold hasOwn. rewrite existsb_exists. split.
  - intros [k' [Hin Hk]]. apply str_eqb_eq in Hk. now subst k'.
  - intro Hin. exists k. split; [exact Hin | now apply str_eqb_eq].
Qed.

Lemma hasOwn_fresh o k : hasOwn o k = false <-> ~ In k (keys o).
Proof.
  rewrite <- hasOwn_In. destruct (hasOwn o k); split; congruence.
Qed.

Lemma objReplace_In o k v k' v' :
  In (k', v') (objReplace o k v) -> In (k', v') o \/ (k', v') = (k, v).
Proof.
  induction o as [|[k0 v0] o IH]; simpl; [tauto|].
  destruct (str_eqb k0 k) eqn:Hk; simpl.
  - apply str_eqb_eq in Hk; subst k0.
    intros [Heq|Hin]; [right; now symmetry | left; now right].
  - intros [Heq|Hin]; [left; now left|].
    destruct (IH Hin) as [Ho|Hnew]; [left; now right | now right].
Qed.

Lemma objReplace_keys o k v : keys (objReplace o k v) = keys o.
Proof.
  induction o as [|[k0 v0] o IH]; simpl; trivial.
  destruct (str_eqb k0 k); simpl; [reflexivity | now rewrite IH].
Qed.

Lemma objInsert_Permutation o k v : Permutation (objInsert o k v) (o ++ [(k, v)]).
Proof.
  induction o as [|[k0 v0] o IH]; simpl; [reflexivity|].
  destruct (goesBefore k k0).
  - change ((k0, v0) :: o ++ [(k, v)]) with (((k0, v0) :: o) ++ [(k, v)]).
    apply Permutation_cons_append.
  - now apply perm_skip.
Qed.

(** A key that is not an array index goes to the end. *)
Lemma objInsert_plain o k v :
  arrayIndex k = None -> objInsert o k v = o ++ [(k, v)].
Proof.
  intro Hk. induction o as [|[k0 v0] o IH]; simpl; trivial.
  unfold goesBefore. rewrite Hk. now rewrite IH.
Qed.

Lemma objSet_In o k v k' v' :
  In (k', v') (objSet o k v) -> In (k', v') o \/ (k', v') = (k, v).
Proof.
  unfold objSet. destruct (hasOwn o k); [apply objReplace_In|].
  destruct (str_eqb k protoKey); [now left|].
  intro Hin. apply (Permutation_in _ (objInsert_Permutation o k v)) in Hin.
  apply in_app_or in Hin. destruct Hin as [Hin|[Hin|[]]]; [now left | right].
  now symmetry.
Qed.

(** A new key other than [__proto__] is added. *)
Lemma objSet_Permutation o k v :
  ~ In k (keys o) -> k <> protoKey -> Permutation (objSet o k v) (o ++ [(k, v)]).
Proof.
  intros Hk Hproto. unfold objSet.
  apply hasOwn_fresh in Hk. rewrite Hk.
  apply str_eqb_neq in Hproto. rewrite Hproto. apply objInsert_Permutation.
Qed.

(** At the end, when it is not an array index. *)
Lemma objSet_fresh o k v :
  ~ In k (keys o) -> k <> protoKey -> arrayIndex k = None ->
  objSet o k v = o ++ [(k, v)].
Proof.
  intros Hk Hproto Hidx. unfold objSet.
  apply hasOwn_fresh in Hk. rewrite Hk.
  apply str_eqb_neq in Hproto. rewrite Hproto. now apply objInsert_plain.
Qed.

(** The assignment to [__proto__] creates no property. *)
Lemma objSet_proto o v : ~ In protoKey (keys o) -> objSet o protoKey v = o.
Proof.
  intro Hk. unfold objSet. apply hasOwn_fresh in Hk. rewrite Hk.
  assert (E : str_eqb protoKey protoKey = true) by now apply str_eqb_eq.
  now rewrite E.
Qed.

Lemma objSet_keys_In o k v k' :
  In k' (keys (objSet o k v)) -> In k' (keys o) \/ (k' = k /\ k <> protoKey).
Proof.
  unfold objSet. destruct (hasOwn o k) eqn:Hown.
  - rewrite objReplace_keys. now left.
  - destruct (str_eqb k protoKey) eqn:Hproto; [now left|].
    apply str_eqb_neq in Hproto. intro Hin.
    apply (Permutation_in _ (Permutation_map fst (objInsert_Permutation o k v)))
      in Hin.
    rewrite map_app in Hin. apply in_app_or in Hin.
    destruct Hin as [Hin|[Hin|[]]]; [now left | right]. cbn in Hin. now split.
Qed.

Lemma objSet_NoDup o k v : NoDup (keys o) -> NoDup (keys (objSet o k v)).
Proof.
  intro Hnd. unfold objSet. destruct (hasOwn o k) eqn:Hown.
  - now rewrite objReplace_keys.
  - destruct (str_eqb k protoKey); trivial.
    apply hasOwn_fresh in Hown.
    eapply Permutation_NoDup.
    + apply Permutation_sym, (Permutation_map fst), objInsert_Permutation.
    + rewrite map_app. apply NoDup_app; trivial.
      * constructor; [intros [] | constructor].
      * intros k0 Hin [Heq|[]]. cbn in Heq. now subst k0.
Qed.

(** No own property [__proto__] comes from an assignment. *)
Lemma objSet_no_proto o k v :
  ~ In protoKey (keys o) -> ~ In protoKey (keys (objSet o k v)).
Proof.
  intros Hk Hin. apply objSet_keys_In in Hin.
  destruct Hin as [Hin|[Heq Hne]]; [contradiction | congruence].
Qed.

Lemma objGet_In o k v : NoDup (keys o) -> (objGet o k = Some v <-> In (k, v) o).
Proof.
  induction o as [|[k0 v0] o IH]; simpl; intro Hnd.
  - split; [discriminate | tauto].
  - inversion Hnd as [|? ? Hk0 Hnd']; subst.
    destruct (str_eqb k0 k) eqn:Hk.
    + apply str_eqb_eq in Hk; subst k0. split.
      * intros [= ->]. now left.
      * intros [[= ->]|Hin]; trivial.
        exfalso. apply Hk0. change k with (fst (k, v)). now apply in_map.
    + apply str_eqb_neq in Hk. rewrite (IH Hnd'). split; [tauto |].
      intros [[= -> ->]|Hin]; [congruence | trivial].
Qed.

Lemma objGet_Permutation o o' k :
  NoDup (keys o) -> Permutation o o' -> objGet o k = objGet o' k.
Proof.
  intros Hnd Hperm.
  assert (Hnd' : NoDup (keys o')).
  { eapply Permutation_NoDup; [apply Permutation_map, Hperm | exact Hnd]. }
  destruct (objGet o k) as [v|] eqn:Hget.
  - apply (objGet_In _ _ _ Hnd) in Hget. symmetry.
    apply (objGet_In _ _ _ Hnd'). eapply Permutation_in; eauto.
  - destruct (objGet o' k) as [v'|] eqn:Hget'; trivial.
    apply (objGet_In _ _ _ Hnd') in Hget'.
    apply Permutation_sym in Hperm.
    apply (Permutation_in _ Hperm), (objGet_In _ _ _ Hnd) in Hget'. congruence.
Qed.

End Objects.

(** ** The sort is a rearrangement *)

Section SortFacts.
Context {num : Type} `{JsNumber num} {A : Type}.
Variable cmp : A -> A -> num.

Lemma insertSorted_Permutation x l :
  Permutation (insertSorted cmp x l) (x :: l).
Proof.
  induction l as [|y l IH]; simpl; trivial.
  destruct (gtb _ _); trivial.
  rewrite IH. apply perm_swap.
Qed.

Lemma arraySort_Permutation l : Permutation (arraySort cmp l) l.
Proof.
  induction l as [|x l IH]; simpl; trivial.
  rewrite insertSorted_Permutation. now constructor.
Qed.

End SortFacts.

(** ** Exact arithmetic *)

Section ExactLaws.
Implicit Types (a b d w : exact).

Lemma exact_isNaN_num (q : Q) : isNaN (ENum q) = false.
Proof.
  unfold isNaN. change (eqb (ENum q) (ENum q)) with (Qeq_bool q q).
  now rewrite Qeq_bool_refl.
Qed.

Lemma exact_isNaN_false a : isNaN a = false <-> exists q, a = ENum q.
Proof.
  destruct a as [|q].
  - split; [discriminate | intros [q Hq]; discriminate].
  - split; [eauto | intros _; apply exact_isNaN_num].
Qed.

Lemma exact_ltb_lt (x y : Q) : ltb (ENum x) (ENum y) = true <-> (x < y)%Q.
Proof.
  cbn. rewrite negb_true_iff. split.
  - intro Hle. apply Qnot_le_lt. intro Hyx.
    apply Qle_bool_iff in Hyx. congruence.
  - intro Hlt. destruct (Qle_bool y x) eqn:Hle; trivial.
    apply Qle_bool_iff in Hle. exfalso. lra.
Qed.

Lemma exact_ltb_ge (x y : Q) : ltb (ENum x) (ENum y) = false <-> (y <= x)%Q.
Proof.
  cbn. rewrite negb_false_iff. apply Qle_bool_iff.
Qed.

Lemma exact_leb_le (x y : Q) : leb (ENum x) (ENum y) = true <-> (x <= y)%Q.
Proof. cbn. apply Qle_bool_iff. Qed.

Lemma exact_eqb_eq (x y : Q) : eqb (ENum x) (ENum y) = true <-> (x == y)%Q.
Proof. cbn. apply Qeq_bool_iff. Qed.

Lemma exact_sub_num (x y : Q) : sub (ENum x) (ENum y) = ENum (Qred (x - y)).
Proof. reflexivity. Qed.

Lemma exact_ltb_num a b : ltb a b = true -> isNaN a = false /\ isNaN b = false.
Proof.
  destruct a, b; try discriminate. intros _. split; apply exact_isNaN_num.
Qed.

Lemma exact_leb_num a b : leb a b = true -> isNaN a = false /\ isNaN b = false.
Proof.
  destruct a, b; try discriminate. intros _. split; apply exact_isNaN_num.
Qed.

Lemma exact_leb_sub_self a w :
  ltb zero w = true -> isNaN a = false -> leb (sub a a) w = true.
Proof.
  intros Hw Ha. apply exact_isNaN_false in Ha as [x ->].
  destruct w as [|y]; [discriminate|].
  apply exact_ltb_lt in Hw. rewrite exact_sub_num. apply exact_leb_le.
  rewrite Qred_correct. unfold inject_Z in Hw. lra.
Qed.

Lemma exact_not_gt_le a b w :
  isNaN a = false -> isNaN b = false -> isNaN w = false ->
  gtb (sub a b) w = false -> leb (sub a b) w = true.
Proof.
  intros Ha Hb Hw. apply exact_isNaN_false in Ha as [x ->].
  apply exact_isNaN_false in Hb as [y ->]. apply exact_isNaN_false in Hw as [z ->].
  unfold gtb. rewrite exact_sub_num. intro Hgt.
  apply exact_ltb_ge in Hgt. now apply exact_leb_le.
Qed.

End ExactLaws.

Lemma exact_isFinite_iff (a : exact) : isFinite a = true <-> exists q, a = ENum q.
Proof.
  destruct a as [|q].
  - split; [discriminate | intros [q Hq]; discriminate].
  - split; [eauto | intros _]. unfold isFinite. rewrite exact_sub_num.
    apply exact_eqb_eq. rewrite Qred_correct. unfold inject_Z. lra.
Qed.

Lemma exact_finite_sub_self (a w : exact) :
  ltb zero w = true -> isFinite a = true -> leb (sub a a) w = true.
Proof.
  intros Hw Ha. apply exact_leb_sub_self; trivial.
  apply exact_isFinite_iff in Ha as [q ->]. apply exact_isNaN_num.
Qed.

Lemma exact_finite_not_gt_le (a b w : exact) :
  isFinite a = true -> isFinite b = true -> ltb zero w = true ->
  gtb (sub a b) w = false -> leb (sub a b) w = true.
Proof.
  intros Ha Hb Hw. apply exact_not_gt_le.
  - apply exact_isFinite_iff in Ha as [q ->]. apply exact_isNaN_num.
  - apply exact_isFinite_iff in Hb as [q ->]. apply exact_isNaN_num.
  - now apply exact_ltb_num in Hw.
Qed.

(** ** Binary64 arithmetic, from the specification of the primitive floats *)

(** *** Rounding keeps the sign and never gives NaN

    The mantissa that [binary_round_aux] shifts and rounds stays non-negative,
    so the branch of its result that would be NaN is never taken. *)

Section Rounding.

Lemma shr_1_nonneg (mrs : shr_record) :
  (0 <= shr_m mrs)%Z -> (0 <= shr_m (shr_1 mrs))%Z.
Proof.
  destruct mrs as [m r s]. destruct m as [|p|p]; cbn; try lia.
  destruct p; cbn; lia.
Qed.

Lemma iter_shr_1_nonneg (n : positive) (mrs : shr_record) :
  (0 <= shr_m mrs)%Z -> (0 <= shr_m (iter_pos shr_1 n mrs))%Z.
Proof.
  revert mrs. induction n as [n IH|n IH|]; intros mrs Hm; cbn [iter_pos].
  - apply IH, IH, shr_1_nonneg, Hm.
  - apply IH, IH, Hm.
  - apply shr_1_nonneg, Hm.
Qed.

Lemma shr_fexp_nonneg (m e : Z) (l : location) :
  (0 <= m)%Z -> (0 <= shr_m (fst (shr_fexp prec emax m e l)))%Z.
Proof.
  intro Hm. unfold shr_fexp, shr.
  assert (Hrec : (0 <= shr_m (shr_record_of_loc m l))%Z).
  { destruct l as [|[]]; exact Hm. }
  destruct (_ - e)%Z; cbn [fst]; trivial.
  now apply iter_shr_1_nonneg.
Qed.

Lemma round_nearest_even_nonneg (m : Z) (l : location) :
  (0 <= m)%Z -> (0 <= round_nearest_even m l)%Z.
Proof.
  intro Hm. destruct l as [|[]]; cbn; try lia.
  destruct (Z.even m); lia.
Qed.

Lemma binary_round_aux_signed (sx : bool) (mx ex : Z) (lx : location) :
  (0 <= mx)%Z -> signed sx (binary_round_aux prec emax sx mx ex lx).
Proof.
  intro Hm. unfold binary_round_aux.
  pose proof (shr_fexp_nonneg mx ex lx Hm) as H1.
  destruct (shr_fexp prec emax mx ex lx) as [mrs' e']. cbn [fst] in H1.
  pose proof (shr_fexp_nonneg _ e' loc_Exact
                (round_nearest_even_nonneg _ (loc_of_shr_record mrs') H1)) as H2.
  destruct (shr_fexp prec emax _ e' loc_Exact) as [mrs'' e'']. cbn [fst] in H2.
  destruct (shr_m mrs'') as [|p|p]; [reflexivity | | lia].
  destruct (e'' <=? _)%Z; reflexivity.
Qed.

Lemma binary_round_signed (sx : bool) (mx : positive) (ex : Z) :
  signed sx (binary_round prec emax sx mx ex).
Proof.
  unfold binary_round. destruct (shl_align _ _ _) as [mz ez].
  apply binary_round_aux_signed. lia.
Qed.

Lemma binary_normalize_notNaN (m e : Z) (szero : bool) :
  notNaN (binary_normalize prec emax m e szero).
Proof.
  destruct m as [|p|p]; cbn [binary_normalize]; [exact I | |].
  - pose proof (binary_round_signed false p e) as Hs.
    destruct (binary_round _ _ _ _ _); cbn in *; tauto.
  - pose proof (binary_round_signed true p e) as Hs.
    destruct (binary_round _ _ _ _ _); cbn in *; tauto.
Qed.

End Rounding.

(** [0 <= f] is: [f] is a zero, or has the sign of the positive numbers. *)
Lemma signed_false_nonneg (f : spec_float) :
  signed false f -> SFleb (S754_zero false) f = true.
Proof. destruct f as [s|s| |s m e]; cbn; try tauto; now intros ->. Qed.

Lemma nonneg_cases (f : spec_float) :
  SFleb (S754_zero false) f = true ->
  (exists s, f = S754_zero s) \/ signed false f.
Proof.
  destruct f as [s|s| |s m e]; cbn; try discriminate.
  - intros _. left. now exists s.
  - destruct s; [discriminate | now right].
  - destruct s; [discriminate | now right].
Qed.

Lemma SFadd_nonneg (x y : spec_float) :
  SFleb (S754_zero false) x = true -> SFleb (S754_zero false) y = true ->
  SFleb (S754_zero false) (SFadd prec emax x y) = true.
Proof.
  intros Hx Hy.
  destruct (nonneg_cases x Hx) as [[sx ->]|Hsx], (nonneg_cases y Hy) as [[sy ->]|Hsy].
  - destruct sx; destruct sy; reflexivity.
  - destruct y as [s|s| |s m e]; cbn in *; try tauto; subst; destruct sx; reflexivity.
  - destruct x as [s|s| |s m e]; cbn in *; try tauto; subst; destruct sy; reflexivity.
  - destruct x as [s|s| |s m e], y as [s'|s'| |s' m' e']; cbn in Hsx, Hsy;
      try tauto; subst; try reflexivity.
    cbn [SFadd cond_Zopp].
    apply signed_false_nonneg.
    cbn [Z.add binary_normalize]. apply binary_round_signed.
Qed.

(** A sum of two numbers that are 0 or more is 0 or more. *)
Lemma bin_nonneg_add (x y : binary64) : nonneg x -> nonneg y -> nonneg (add x y).
Proof.
  unfold nonneg. cbn [leb add binary64_number].
  rewrite !leb_spec, add_spec. apply SFadd_nonneg.
Qed.

(** *** Comparisons *)

(** Swapping the arguments of a comparison reverses its result. *)
Lemma SFcompare_antisym (x y : spec_float) :
  SFcompare y x = option_map CompOpp (SFcompare x y).
Proof.
  destruct x as [s|s| |s m e], y as [s'|s'| |s' m' e']; cbn;
    try reflexivity;
    try (destruct s; reflexivity); try (destruct s'; reflexivity);
    try (destruct s, s'; reflexivity).
  pose proof (Pos.compare_cont_antisym m m' Eq) as Hm. cbn [CompOpp] in Hm.
  destruct s, s'; cbn; try reflexivity.
  - rewrite (Z.compare_antisym e e'). destruct (e ?= e')%Z; cbn; try reflexivity.
    rewrite <- Hm. now destruct (Pos.compare_cont Eq m m').
  - rewrite (Z.compare_antisym e e'). destruct (e ?= e')%Z; cbn; try reflexivity.
    now rewrite <- Hm.
Qed.

Lemma SFcompare_notNaN (x y : spec_float) :
  notNaN x -> notNaN y -> exists c, SFcompare x y = Some c.
Proof.
  destruct x as [s|s| |s m e], y as [s'|s'| |s' m' e']; cbn; try tauto; eauto.
Qed.

(** Of two numbers one is below the other or they are equal. *)
Lemma SFleb_total (x y : spec_float) :
  notNaN x -> notNaN y -> SFltb y x = false -> SFleb x y = true.
Proof.
  intros Hx Hy. unfold SFltb, SFleb. rewrite (SFcompare_antisym x y).
  destruct (SFcompare_notNaN x y Hx Hy) as [c ->]. now destruct c.
Qed.

Lemma SFltb_notNaN (x y : spec_float) : SFltb x y = true -> notNaN x /\ notNaN y.
Proof.
  destruct x as [s|s| |s m e], y as [s'|s'| |s' m' e']; cbn; try discriminate; tauto.
Qed.

Lemma SFsub_finite_notNaN (x y : spec_float) :
  finiteSF x -> finiteSF y -> notNaN (SFsub prec emax x y).
Proof.
  destruct x as [s|s| |s m e], y as [s'|s'| |s' m' e']; cbn [finiteSF]; try tauto;
    intros _ _.
  - cbn. destruct s; destruct s'; exact I.
  - cbn [SFsub]. apply binary_normalize_notNaN.
Qed.

Lemma SFsub_self (x : spec_float) :
  finiteSF x -> SFsub prec emax x x = S754_zero false.
Proof.
  destruct x as [s|s| |s m e]; cbn [finiteSF]; try tauto; intros _.
  - now destruct s.
  - cbn [SFsub]. now rewrite Z.sub_diag.
Qed.

Lemma SFeqb_zero_notNaN (x : spec_float) :
  SFeqb x (S754_zero false) = true -> exists s, x = S754_zero s.
Proof.
  destruct x as [s|s| |s m e]; cbn; try discriminate; eauto.
  - destruct s; discriminate.
  - destruct s; discriminate.
Qed.

(** [x - x] is 0 for a zero or a finite [x] only. *)
Lemma bin_isFinite (x : binary64) : isFinite x = true -> finiteSF (Prim2SF x).
Proof.
  unfold isFinite. cbn [eqb sub binary64_number].
  rewrite eqb_spec, sub_spec. change (Prim2SF zero) with (S754_zero false).
  intro Heq. apply SFeqb_zero_notNaN in Heq as [s Heq].
  unfold SF64sub in Heq.
  destruct (Prim2SF x) as [sx|sx| |sx m e]; try exact I.
  - destruct sx; discriminate.
  - discriminate.
Qed.

(** The two facts the bound on the chunks needs, in binary64. *)
Lemma bin_leb_sub_self (a w : binary64) :
  ltb zero w = true -> isFinite a = true -> leb (sub a a) w = true.
Proof.
  cbn [ltb leb sub binary64_number]. intros Hw Ha.
  apply bin_isFinite in Ha. rewrite leb_spec, sub_spec.
  unfold SF64sub. rewrite SFsub_self by exact Ha.
  rewrite ltb_spec in Hw. change (Prim2SF zero) with (S754_zero false) in Hw.
  destruct (Prim2SF w) as [s|s| |s m e]; cbn in *; try discriminate; trivial.
  - now destruct s.
  - now destruct s.
Qed.

Lemma bin_not_gt_le (a b w : binary64) :
  isFinite a = true -> isFinite b = true -> ltb zero w = true ->
  gtb (sub a b) w = false -> leb (sub a b) w = true.
Proof.
  unfold gtb. cbn [ltb leb sub binary64_number]. intros Ha Hb Hw.
  apply bin_isFinite in Ha, Hb.
  rewrite ltb_spec in Hw. apply SFltb_notNaN in Hw as [_ Hw].
  rewrite ltb_spec, leb_spec, sub_spec. apply SFleb_total; trivial.
  now apply SFsub_finite_notNaN.
Qed.

(** *** Magnitudes

    A valid finite number has its mantissa in canonical position, which is
    why comparing exponents first and mantissas second compares values. *)

Section Magnitudes.
Local Open Scope Z_scope.

(** A mantissa of [d] binary digits lies between [2^(d-1)] and [2^d]. *)
Lemma digits2_pos_bounds (m : positive) :
  2 ^ (Zpos (digits2_pos m) - 1) <= Zpos m < 2 ^ Zpos (digits2_pos m).
Proof.
  induction m as [m IH|m IH|]; cbn [digits2_pos].
  - rewrite Pos2Z.inj_succ, (Pos2Z.inj_xI m).
    replace (Z.succ (Zpos (digits2_pos m)) - 1)
      with (Z.succ (Zpos (digits2_pos m) - 1)) by lia.
    rewrite !Z.pow_succ_r by lia. revert IH.
    generalize (2 ^ (Zpos (digits2_pos m) - 1)) (2 ^ Zpos (digits2_pos m)).
    intros; lia.
  - rewrite Pos2Z.inj_succ, (Pos2Z.inj_xO m).
    replace (Z.succ (Zpos (digits2_pos m)) - 1)
      with (Z.succ (Zpos (digits2_pos m) - 1)) by lia.
    rewrite !Z.pow_succ_r by lia. revert IH.
    generalize (2 ^ (Zpos (digits2_pos m) - 1)) (2 ^ Zpos (digits2_pos m)).
    intros; lia.
  - cbn. lia.
Qed.

Lemma iter_xO_value (m n : positive) :
  Zpos (Pos.iter xO m n) = Zpos m * 2 ^ Zpos n.
Proof.
  induction n as [|n IH] using Pos.peano_ind.
  - cbn. lia.
  - rewrite Pos.iter_succ, (Pos2Z.inj_xO (Pos.iter xO m n)), IH.
    rewrite Pos2Z.inj_succ, Z.pow_succ_r by lia. lia.
Qed.

(** What validity says of a finite number. *)
Lemma bounded_canonical (m : positive) (e : Z) :
  bounded prec emax m e = true ->
  SpecFloat.emin prec emax <= e
  /\ Zpos (digits2_pos m) <= prec
  /\ (SpecFloat.emin prec emax < e -> Zpos (digits2_pos m) = prec).
Proof.
  unfold bounded, canonical_mantissa, fexp. intro Hb.
  apply andb_true_iff in Hb as [Hc _]. apply Z.eqb_eq in Hc. lia.
Qed.

(** The mantissa of [m * 2^e] once aligned on a smaller exponent. *)
Lemma shl_align_value (m : positive) (e e' : Z) :
  e' <= e -> Zpos (fst (shl_align m e e')) = Zpos m * 2 ^ (e - e').
Proof.
  intro He. unfold shl_align.
  destruct (e' - e) as [|d|d] eqn:Hd; cbn [fst]; try lia.
  - replace (e - e') with 0 by lia. cbn. lia.
  - rewrite iter_xO_value. f_equal. f_equal. lia.
Qed.

Lemma magnitude_cmp_aligned (m1 : positive) (e1 : Z) (m2 : positive) (e2 : Z) :
  bounded prec emax m1 e1 = true -> bounded prec emax m2 e2 = true ->
  let a1 := Zpos (fst (shl_align m1 e1 (Z.min e1 e2))) in
  let a2 := Zpos (fst (shl_align m2 e2 (Z.min e1 e2))) in
  match magnitude_cmp m1 e1 m2 e2 with
  | Lt => a1 < a2
  | Eq => a1 = a2
  | Gt => a1 > a2
  end.
Proof.
  intros H1 H2.
  apply bounded_canonical in H1 as (Hmin1 & Hd1 & Hn1).
  apply bounded_canonical in H2 as (Hmin2 & Hd2 & Hn2).
  pose proof (digits2_pos_bounds m1) as [Hlo1 Hhi1].
  pose proof (digits2_pos_bounds m2) as [Hlo2 Hhi2].
  cbv zeta. rewrite !shl_align_value by lia.
  unfold magnitude_cmp.
  assert (Hpow : forall d, Zpos d <= prec -> 2 ^ Zpos d <= 2 ^ prec).
  { intros d Hd. apply Z.pow_le_mono_r; lia. }
  assert (Hshift : forall k, 0 < k -> 2 <= 2 ^ k).
  { intros k Hk. change 2 with (2 ^ 1) at 1. apply Z.pow_le_mono_r; lia. }
  assert (Hprec : 2 ^ prec = 2 * 2 ^ (prec - 1)).
  { vm_compute. reflexivity. }
  destruct (Z.compare_spec e1 e2) as [He|He|He].
  - subst e2. rewrite Z.min_id, Z.sub_diag. cbn [Z.pow]. rewrite !Z.mul_1_r.
    change (Pos.compare_cont Eq m1 m2) with (Pos.compare m1 m2).
    destruct (Pos.compare_spec m1 m2); subst; lia.
  - rewrite Z.min_l by lia. rewrite Z.sub_diag. cbn [Z.pow]. rewrite Z.mul_1_r.
    specialize (Hn2 ltac:(lia)). rewrite Hn2 in Hlo2.
    specialize (Hpow _ Hd1). specialize (Hshift (e2 - e1) ltac:(lia)). nia.
  - rewrite Z.min_r by lia. rewrite Z.sub_diag. cbn [Z.pow]. rewrite Z.mul_1_r.
    specialize (Hn1 ltac:(lia)). rewrite Hn1 in Hlo1.
    specialize (Hpow _ Hd2). specialize (Hshift (e1 - e2) ltac:(lia)). nia.
Qed.

(** *** Rounding a positive number never gives zero *)

Lemma shr_1_div2 (mrs : shr_record) :
  0 <= shr_m mrs -> shr_m (shr_1 mrs) = shr_m mrs / 2.
Proof.
  destruct mrs as [m r s]. cbn [shr_m]. intro Hm.
  rewrite <- Z.div2_div. destruct m as [|p|p]; [reflexivity | | lia].
  destruct p; reflexivity.
Qed.

Lemma iter_shr_1_value (n : positive) (mrs : shr_record) :
  0 <= shr_m mrs ->
  shr_m (iter_pos shr_1 n mrs) = shr_m mrs / 2 ^ Zpos n.
Proof.
  revert mrs. induction n as [n IH|n IH|]; intros mrs Hm; cbn [iter_pos].
  - assert (H1 : 0 <= shr_m (shr_1 mrs)) by now apply shr_1_nonneg.
    assert (H2 : 0 <= shr_m (iter_pos shr_1 n (shr_1 mrs))).
    { rewrite IH by exact H1. apply Z.div_pos; [exact H1 | apply Z.pow_pos_nonneg; lia]. }
    rewrite IH by exact H2. rewrite IH by exact H1. rewrite shr_1_div2 by exact Hm.
    rewrite !Z.div_div by (try apply Z.pow_pos_nonneg; lia).
    f_equal. rewrite (Pos2Z.inj_xI n).
    replace (2 * Zpos n + 1) with (Zpos n + Zpos n + 1) by lia.
    rewrite !Z.pow_add_r by lia. change (2 ^ 1) with 2. ring.
  - assert (H2 : 0 <= shr_m (iter_pos shr_1 n mrs)).
    { rewrite IH by exact Hm. apply Z.div_pos; [exact Hm | apply Z.pow_pos_nonneg; lia]. }
    rewrite IH by exact H2. rewrite IH by exact Hm.
    rewrite !Z.div_div by (try apply Z.pow_pos_nonneg; lia).
    f_equal. rewrite (Pos2Z.inj_xO n).
    replace (2 * Zpos n) with (Zpos n + Zpos n) by lia.
    rewrite !Z.pow_add_r by lia. ring.
  - rewrite shr_1_div2 by exact Hm. reflexivity.
Qed.

Lemma shr_record_of_loc_m (m : Z) (l : location) : shr_m (shr_record_of_loc m l) = m.
Proof. destruct l as [|[]]; reflexivity. Qed.

Lemma Zdigits2_pos (m : positive) : Zdigits2 (Zpos m) = Zpos (digits2_pos m).
Proof. reflexivity. Qed.

Lemma shr_fexp_positive (m : positive) (e : Z) (l : location) :
  SpecFloat.emin prec emax <= e ->
  0 < shr_m (fst (shr_fexp prec emax (Zpos m) e l))
  /\ SpecFloat.emin prec emax <= snd (shr_fexp prec emax (Zpos m) e l).
Proof.
  intro He. unfold shr_fexp, shr. rewrite Zdigits2_pos.
  destruct (fexp prec emax (Zpos (digits2_pos m) + e) - e) as [|n|n] eqn:Hn;
    cbn [fst snd]; rewrite ?shr_record_of_loc_m; try (split; lia).
  rewrite iter_shr_1_value by (rewrite shr_record_of_loc_m; lia).
  rewrite shr_record_of_loc_m. split; [|lia].
  assert (Hd : Zpos n = Zpos (digits2_pos m) - prec).
  { unfold fexp in Hn. lia. }
  pose proof (digits2_pos_bounds m) as [Hlo _].
  replace (Zpos (digits2_pos m) - 1) with (Zpos n + (prec - 1)) in Hlo by lia.
  rewrite Z.pow_add_r in Hlo by (unfold prec; lia).
  assert (Hp : 0 < 2 ^ Zpos n) by (apply Z.pow_pos_nonneg; lia).
  assert (Hq : 1 <= 2 ^ (prec - 1)) by (vm_compute; discriminate).
  apply Z.lt_le_trans with (2 ^ (prec - 1)); [lia|].
  apply Z.div_le_lower_bound; [exact Hp | lia].
Qed.

Lemma binary_round_aux_positive (sx : bool) (m : positive) (e : Z) (l : location) :
  SpecFloat.emin prec emax <= e ->
  positiveSF sx (binary_round_aux prec emax sx (Zpos m) e l).
Proof.
  intro He. unfold binary_round_aux.
  pose proof (shr_fexp_positive m e l He) as [H1 He'].
  destruct (shr_fexp prec emax (Zpos m) e l) as [mrs' e']. cbn [fst snd] in H1, He'.
  assert (Hr : 0 < round_nearest_even (shr_m mrs') (loc_of_shr_record mrs')).
  { destruct (loc_of_shr_record mrs') as [|[]]; cbn; try lia.
    destruct (Z.even _); lia. }
  destruct (round_nearest_even _ _) as [|m1|m1]; try lia.
  pose proof (shr_fexp_positive m1 e' loc_Exact He') as [H2 _].
  destruct (shr_fexp prec emax (Zpos m1) e' loc_Exact) as [mrs'' e'']. cbn [fst] in H2.
  destruct (shr_m mrs'') as [|p|p]; try lia.
  destruct (e'' <=? _); reflexivity.
Qed.

Lemma binary_round_positive (sx : bool) (m : positive) (e : Z) :
  SpecFloat.emin prec emax <= e -> positiveSF sx (binary_round prec emax sx m e).
Proof.
  intro He. unfold binary_round.
  destruct (shl_align m e _) as [mz ez] eqn:Hal.
  apply binary_round_aux_positive.
  unfold shl_align in Hal.
  destruct (fexp prec emax (Zpos (digits2_pos m) + e) - e) eqn:Hd;
    injection Hal as <- <-; unfold fexp in *; lia.
Qed.

(** *** The sign of a difference *)

Lemma signed_true_not_above (f : spec_float) :
  signed true f -> SFltb (S754_zero false) f = false.
Proof. destruct f as [s|s| |s m e]; cbn; try tauto; now intros ->. Qed.

Lemma positiveSF_above (f : spec_float) :
  positiveSF false f -> SFltb (S754_zero false) f = true.
Proof. destruct f as [s|s| |s m e]; cbn; try tauto; now intros ->. Qed.

Lemma binary_normalize_sign (d e : Z) :
  SpecFloat.emin prec emax <= e ->
  (d < 0 -> SFltb (S754_zero false) (binary_normalize prec emax d e false) = false)
  /\ (0 < d -> SFltb (S754_zero false) (binary_normalize prec emax d e false) = true).
Proof.
  intro He. destruct d as [|p|p]; cbn [binary_normalize]; split; try lia; intros _.
  - apply positiveSF_above, binary_round_positive, He.
  - apply signed_true_not_above, binary_round_signed.
Qed.

Lemma SFsub_by_compare (y x : spec_float) :
  valid_binary y = true -> valid_binary x = true ->
  match SFcompare y x with
  | Some Lt => SFltb (S754_zero false) (SFsub prec emax y x) = false
  | Some Gt => SFltb (S754_zero false) (SFsub prec emax y x) = true
  | _ => True
  end.
Proof.
  destruct y as [sy|sy| |sy my ey], x as [sx|sx| |sx mx ex];
    try (intros _ _; cbn; try (destruct sy); try (destruct sx); reflexivity).
  cbn [valid_binary]. intros Hy Hx.
  pose proof (magnitude_cmp_aligned my ey mx ex Hy Hx) as Hmag. cbv zeta in Hmag.
  apply bounded_canonical in Hy as (Hy & _). apply bounded_canonical in Hx as (Hx & _).
  assert (Hez : SpecFloat.emin prec emax <= Z.min ey ex) by lia.
  destruct (binary_normalize_sign
              (cond_Zopp sy (Zpos (fst (shl_align my ey (Z.min ey ex))))
               - cond_Zopp sx (Zpos (fst (shl_align mx ex (Z.min ey ex)))))
              (Z.min ey ex) Hez) as [Hneg Hpos].
  cbn [SFsub SFcompare]. fold (magnitude_cmp my ey mx ex).
  destruct sy, sx; cbn [cond_Zopp] in *.
  - replace (match ey ?= ex with
             | Lt => Gt
             | Eq => CompOpp (Pos.compare_cont Eq my mx)
             | Gt => Lt
             end)
      with (CompOpp (magnitude_cmp my ey mx ex))
      by (unfold magnitude_cmp; now destruct (ey ?= ex)).
    destruct (magnitude_cmp my ey mx ex); cbn [CompOpp]; trivial.
    + apply Hpos. lia.
    + apply Hneg. lia.
  - apply Hneg. lia.
  - apply Hpos. lia.
  - destruct (magnitude_cmp my ey mx ex); trivial.
    + apply Hneg. lia.
    + apply Hpos. lia.
Qed.

(** *** The order on binary64 *)

Lemma bin_notNaN (a : binary64) : isNaN a = false -> notNaN (Prim2SF a).
Proof.
  unfold isNaN. cbn [eqb binary64_number]. rewrite eqb_spec, negb_false_iff.
  now destruct (Prim2SF a).
Qed.

Lemma bin_leb_refl (a : binary64) : isNaN a = false -> leb a a = true.
Proof.
  unfold isNaN. cbn [eqb leb binary64_number].
  rewrite eqb_spec, leb_spec, negb_false_iff. unfold SFeqb, SFleb.
  now destruct (SFcompare _ _) as [[]|].
Qed.

Lemma SFleb_trans (x y z : spec_float) :
  SFleb x y = true -> SFleb y z = true -> SFleb x z = true.
Proof.
  unfold SFleb.
  destruct x as [s1|s1| |s1 m1 e1], y as [s2|s2| |s2 m2 e2], z as [s3|s3| |s3 m3 e3];
    cbn; try discriminate; try reflexivity;
    try (destruct s1; try discriminate; try reflexivity);
    try (destruct s2; try discriminate; try reflexivity);
    try (destruct s3; try discriminate; try reflexivity);
    try (intros; discriminate).
  all: change (Pos.compare_cont Eq) with Pos.compare.
  all: destruct (Z.compare_spec e1 e2); destruct (Z.compare_spec e2 e3);
       destruct (Z.compare_spec e1 e3); try lia; try discriminate; try reflexivity;
       subst; cbn [CompOpp];
       destruct (Pos.compare_spec m1 m2); destruct (Pos.compare_spec m2 m3);
       destruct (Pos.compare_spec m1 m3); cbn [CompOpp]; try lia;
       try discriminate; try reflexivity.
Qed.

Lemma bin_leb_trans (a b c : binary64) :
  leb a b = true -> leb b c = true -> leb a c = true.
Proof. cbn [leb binary64_number]. rewrite !leb_spec. apply SFleb_trans. Qed.

(** The sign of [b - a] tells which of two different numbers is the
    larger: a difference never rounds to zero. *)
Lemma bin_order_by_sub (a b : binary64) :
  isNaN a = false -> isNaN b = false ->
  if neqb b a
  then if gtb (sub b a) zero then leb a b = true else leb b a = true
  else leb a b = true /\ leb b a = true.
Proof.
  intros Ha Hb. apply bin_notNaN in Ha, Hb.
  unfold neqb, gtb. cbn [eqb ltb leb sub binary64_number].
  rewrite eqb_spec, ltb_spec, !leb_spec, sub_spec.
  change (Prim2SF zero) with (S754_zero false).
  pose proof (SFsub_by_compare _ _ (Prim2SF_valid b) (Prim2SF_valid a)) as Hsub.
  unfold SFeqb, SFleb. rewrite (SFcompare_antisym (Prim2SF b) (Prim2SF a)).
  destruct (SFcompare_notNaN _ _ Hb Ha) as [c Hc]. rewrite Hc in *.
  unfold SF64sub. destruct c; cbn [negb option_map CompOpp]; try rewrite Hsub; auto.
Qed.

End Magnitudes.

(** ** Splitting and reading numerals *)

Lemma startsWith_unit (c a : ascii) (s : str) :
  startsWith [c] (a :: s) = Ascii.eqb c a.
Proof. simpl. apply andb_true_r. Qed.

Lemma split_unit_absent (c : ascii) (s : str) :
  ~ In c s -> split [c] s = [s].
Proof.
  unfold split. induction s as [|a s IH]; intro Hc; trivial.
  cbn [split_from]. rewrite startsWith_unit.
  destruct (Ascii.eqb c a) eqn:Hca.
  - apply Ascii.eqb_eq in Hca. subst a. exfalso. apply Hc. now left.
  - rewrite IH; trivial. intro Hin. apply Hc. now right.
Qed.

Lemma split_unit_app (c : ascii) (p rest : str) :
  ~ In c p -> split [c] (p ++ c :: rest) = p :: split [c] rest.
Proof.
  unfold split. induction p as [|a p IH]; intro Hc.
  - cbn [app split_from]. rewrite startsWith_unit, Ascii.eqb_refl. reflexivity.
  - cbn [app split_from]. rewrite startsWith_unit.
    destruct (Ascii.eqb c a) eqn:Hca.
    + apply Ascii.eqb_eq in Hca. subst a. exfalso. apply Hc. now left.
    + rewrite IH; trivial. intro Hin. apply Hc. now right.
Qed.

Lemma isDigit_cases (c : ascii) :
  isDigit c = true ->
  In c (lit "0123456789").
Proof.
  destruct c as [[] [] [] [] [] [] [] []]; cbv; intro Hd;
    solve [discriminate | tauto].
Qed.

Lemma numeral_absent (c : ascii) (s : str) :
  isDigit c = false -> forallb isDigit s = true -> ~ In c s.
Proof.
  intros Hc Hs Hin.
  rewrite forallb_forall in Hs. apply Hs in Hin. congruence.
Qed.

Lemma takeWhile_all (p : ascii -> bool) (s : str) :
  forallb p s = true -> takeWhile p s = s.
Proof.
  induction s as [|c s IH]; simpl; trivial.
  intro Hs. apply andb_true_iff in Hs as [-> Hs]. now rewrite IH.
Qed.

Lemma stripSign_digit (c : ascii) (s : str) :
  isDigit c = true -> stripSign (c :: s) = (false, c :: s).
Proof.
  intro Hc. apply isDigit_cases in Hc. cbv in Hc.
  repeat (destruct Hc as [<-|Hc]; [reflexivity|]). contradiction.
Qed.

Lemma trimStart_digit (c : ascii) (s : str) :
  isDigit c = true -> trimStart (c :: s) = c :: s.
Proof.
  intro Hc. apply isDigit_cases in Hc. cbv in Hc.
  repeat (destruct Hc as [<-|Hc]; [reflexivity|]). contradiction.
Qed.

Lemma hexPrefix_digits (s : str) : forallb isDigit s = true -> hexPrefix s = false.
Proof.
  destruct s as [|c [|d s]]; trivial.
  - intros _. unfold hexPrefix. cbn. now rewrite !andb_false_r.
  - cbn [forallb]. intro Hs.
    apply andb_true_iff in Hs as [_ Hs]. apply andb_true_iff in Hs as [Hd _].
    apply isDigit_cases in Hd. cbv in Hd. unfold hexPrefix.
    cbn [lit list_ascii_of_string startsWith].
    repeat (destruct Hd as [<-|Hd];
            [cbn; now rewrite !andb_false_r|]). contradiction.
Qed.

Section ReadingNumbers.
Context {num : Type} `{JsNumber num}.

Lemma parseInt_numeral (s : str) :
  numeral s -> parseInt (Some s) = of_Z (decimal s).
Proof.
  intros [Hne Hs]. destruct s as [|c s]; [congruence|].
  pose proof Hs as Hc. cbn [forallb] in Hc. apply andb_true_iff in Hc as [Hc _].
  unfold parseInt. rewrite trimStart_digit, stripSign_digit by exact Hc.
  rewrite hexPrefix_digits, takeWhile_all by exact Hs. reflexivity.
Qed.

Lemma parseTimestamp_nonempty (t : str) :
  t <> [] ->
  parseTimestamp (Some t)
  = match nth_error (split (lit ":") t) 2 with
    | None => Throw TypeError
    | Some s =>
        Ok (add (add (add (mul (parseInt (nth_error (split (lit ":") t) 0)) (of_Z 3600))
                          (mul (parseInt (nth_error (split (lit ":") t) 1)) (of_Z 60)))
                     (parseInt (nth_error (split (lit ",") s) 0)))
                (div (parseInt (nth_error (split (lit ",") s) 1)) (of_Z 1000)))
    end.
Proof. destruct t; [congruence | reflexivity]. Qed.

(** C9. A non-empty string without a colon makes [parseTimestamp] throw:
    [split(':')] gives a single piece, the third name of the destructuring is
    [undefined], and [s.split(',')] is a TypeError.  Only the empty string and
    [undefined] are caught by the guard of the first line. *)
Theorem parseTimestamp_throws_without_colon (timeStr : str) :
  timeStr <> [] -> ~ In ":"%char timeStr ->
  parseTimestamp (Some timeStr) = Throw TypeError.
Proof.
  intros Hne Hcolon. rewrite parseTimestamp_nonempty by exact Hne.
  change (lit ":") with [":"%char].
  rewrite split_unit_absent by exact Hcolon. reflexivity.
Qed.

Lemma parseTimestamp_fields (hh mm ss mmm : str) :
  numeral hh -> numeral mm -> numeral ss -> numeral mmm ->
  parseTimestamp (Some (timestampOf hh mm ss mmm))
  = Ok (add (add (add (mul (of_Z (decimal hh)) (of_Z 3600))
                      (mul (of_Z (decimal mm)) (of_Z 60)))
                 (of_Z (decimal ss)))
            (div (of_Z (decimal mmm)) (of_Z 1000))).
Proof.
  intros Hh Hm Hs Hms.
  assert (Hcolon : forall s, numeral s -> ~ In ":"%char s).
  { intros s [_ Hd]. now apply numeral_absent. }
  assert (Hcomma : forall s, numeral s -> ~ In ","%char s).
  { intros s [_ Hd]. now apply numeral_absent. }
  rewrite parseTimestamp_nonempty.
  2:{ unfold timestampOf. destruct hh; [now destruct Hh | discriminate]. }
  unfold timestampOf. change (lit ":") with [":"%char]. change (lit ",") with [","%char].
  cbn [app].
  rewrite !split_unit_app by auto.
  rewrite split_unit_absent.
  - cbn [nth_error]. rewrite split_unit_app by auto.
    rewrite split_unit_absent by auto. cbn [nth_error].
    rewrite !parseInt_numeral by assumption. reflexivity.
  - intro Hin. apply in_app_or in Hin as [Hin|[Heq|Hin]].
    + now apply (Hcolon ss).
    + discriminate.
    + now apply (Hcolon mmm).
Qed.

End ReadingNumbers.

(** C6. On a timestamp [hh:mm:ss,mmm] whose four fields are non-empty runs of
    digits (two, two, two and three of them in a well-formed one)
    [parseTimestamp] returns [h*3600 + m*60 + s + ms/1000], the fields read
    as decimal numbers; "00:01:05,250" gives 65.25, in binary64 as in exact
    arithmetic; the empty string and [undefined] give 0 and nothing is
    thrown. *)
Theorem parseTimestamp_value :
  (forall (num : Type) (N : JsNumber num) (hh mm ss mmm : str),
      numeral hh -> numeral mm -> numeral ss -> numeral mmm ->
      parseTimestamp (Some (timestampOf hh mm ss mmm))
      = Ok (add (add (add (mul (of_Z (decimal hh)) (of_Z 3600))
                          (mul (of_Z (decimal mm)) (of_Z 60)))
                     (of_Z (decimal ss)))
                (div (of_Z (decimal mmm)) (of_Z 1000))))
  /\ parseTimestamp (num := binary64) (Some (lit "00:01:05,250")) = Ok 65.25%float
  /\ parseTimestamp (num := exact) (Some (lit "00:01:05,250")) = Ok (ENum (261 # 4))
  /\ (forall (num : Type) (N : JsNumber num),
         parseTimestamp (Some (lit "")) = Ok zero
         /\ parseTimestamp None = Ok zero).
Proof.
  split; [|split; [|split]].
  - intros. now apply parseTimestamp_fields.
  - vm_compute. reflexivity.
  - vm_compute. reflexivity.
  - intros. split; reflexivity.
Qed.

Lemma parseTimestamp_value_witness :
  parseTimestamp (num := binary64)
    (Some (timestampOf (lit "00") (lit "01") (lit "05") (lit "250")))
  = Ok (add (add (add (mul (of_Z (decimal (lit "00"))) (of_Z 3600))
                      (mul (of_Z (decimal (lit "01"))) (of_Z 60)))
                 (of_Z (decimal (lit "05"))))
            (div (of_Z (decimal (lit "250"))) (of_Z 1000))).
Proof.
  apply (proj1 parseTimestamp_value binary64 _);
    (split; [discriminate | reflexivity]).
Defined.

Lemma parseTimestamp_throws_without_colon_witness :
  parseTimestamp (num := binary64) (Some (lit "abc")) = Throw TypeError.
Proof.
  apply parseTimestamp_throws_without_colon.
  - discriminate.
  - cbv. intros [H|[H|[H|[]]]]; discriminate.
Defined.

(** ** The subtitle parser *)

Lemma keptLines_nonempty (block l : str) : In l (keptLines block) -> l <> [].
Proof.
  unfold keptLines. intro Hl. apply filter_In in Hl as [_ Hl].
  intros ->. vm_compute in Hl. discriminate.
Qed.

Lemma join_nonempty (sep p : str) (rest : list str) :
  p <> [] -> join sep (p :: rest) <> [].
Proof.
  intro Hp. destruct p as [|c p]; [congruence|].
  destruct rest; discriminate.
Qed.

Lemma text_nonempty (block : str) :
  hasEntry block = true -> join (lit " ") (skipn 2 (keptLines block)) <> [].
Proof.
  unfold hasEntry. intro Hlen. apply Nat.leb_le in Hlen.
  pose proof (keptLines_nonempty block) as Hkept.
  destruct (keptLines block) as [|l1 [|l2 [|l3 rest]]]; cbn [length] in Hlen; try lia.
  cbn [skipn]. apply join_nonempty, Hkept. cbn. tauto.
Qed.

Lemma matchHere_timePattern (s : str) :
  matchHere timePattern s = true ->
  exists hh mm ss mmm,
    fieldsOfMatch hh mm ss mmm /\ firstn 12 s = timestampOf hh mm ss mmm.
Proof.
  unfold timePattern.
  do 16 (destruct s as [|? s];
         [cbn [matchHere]; rewrite ?andb_false_r; discriminate|]).
  cbn [matchHere]. rewrite !andb_true_iff, !Ascii.eqb_eq.
  intros (D1 & D2 & <- & D3 & D4 & <- & D5 & D6 & <- & D7 & D8 & D9 & _).
  eexists [_; _], [_; _], [_; _], [_; _; _].
  unfold fieldsOfMatch, numeral. cbn [forallb length firstn].
  rewrite D1, D2, D3, D4, D5, D6, D7, D8, D9.
  repeat split; try discriminate; reflexivity.
Qed.

Lemma timeMatch_fields (timeLine group1 : str) :
  timeMatch timeLine = Some group1 ->
  exists hh mm ss mmm,
    fieldsOfMatch hh mm ss mmm /\ group1 = timestampOf hh mm ss mmm.
Proof.
  induction timeLine as [|c rest IH]; [discriminate|].
  cbn [timeMatch]. destruct (matchHere _ _) eqn:Hhere; [|exact IH].
  intro Heq.
  assert (Hgroup : group1 = firstn 12 (c :: rest)) by congruence.
  rewrite Hgroup. now apply matchHere_timePattern.
Qed.

Section Parser.
Context {num : Type} `{JsNumber num}.

(** A property of the start of an entry that holds of 0 and of the seconds
    of every timestamp the pattern can match. *)
Variable goodStart : num -> Prop.
Hypothesis goodStart_zero : goodStart zero.
Hypothesis goodStart_seconds :
  forall hh mm ss mmm, fieldsOfMatch hh mm ss mmm -> goodStart (secondsOf hh mm ss mmm).

Lemma startSeconds_of_line (timeLine : str) :
  exists x,
    match timeMatch timeLine with
    | Some group1 => parseTimestamp (Some group1)
    | None => Ok zero
    end = Ok x /\ goodStart x.
Proof.
  destruct (timeMatch timeLine) as [group1|] eqn:Hmatch; [|eauto].
  apply timeMatch_fields in Hmatch as (hh & mm & ss & mmm & Hfields & ->).
  exists (secondsOf hh mm ss mmm). split; [|auto].
  destruct Hfields as ((Hh & _) & (Hm & _) & (Hs & _) & (Hms & _)).
  now apply parseTimestamp_fields.
Qed.

Lemma parseBlock_entry (entries : list (@Entry num)) (block : str) :
  hasEntry block = true ->
  exists e, parseBlock entries block = Ok (entries ++ [e])
            /\ fullBlock e = block /\ goodEntry goodStart e.
Proof.
  intro Hblock. unfold parseBlock. fold (hasEntry block). rewrite Hblock.
  destruct (startSeconds_of_line (nth 1 (keptLines block) [])) as (x & -> & Hx).
  cbn [bind]. eexists. split; [reflexivity|].
  cbn [fullBlock text startSeconds]. unfold goodEntry. cbn [text startSeconds].
  repeat split; trivial. now apply text_nonempty.
Qed.

Lemma parseBlock_dropped (entries : list (@Entry num)) (block : str) :
  hasEntry block = false -> parseBlock entries block = Ok entries.
Proof.
  intro Hblock. unfold parseBlock. fold (hasEntry block). now rewrite Hblock.
Qed.

Lemma parseLoop_entries (blocks : list str) (acc : list (@Entry num)) :
  exists es,
    forEachM parseBlock blocks acc = Ok (acc ++ es)
    /\ map (@fullBlock num) es = filter hasEntry blocks
    /\ Forall (goodEntry goodStart) es.
Proof.
  revert acc; induction blocks as [|block blocks IH]; intro acc.
  - exists []. cbn. rewrite app_nil_r. repeat split. constructor.
  - cbn [forEachM filter]. destruct (hasEntry block) eqn:Hblock.
    + destruct (parseBlock_entry acc block Hblock) as (e & -> & Hfull & He).
      cbn [bind]. destruct (IH (acc ++ [e])) as (es & -> & Hmap & Hgood).
      exists (e :: es). rewrite <- app_assoc. cbn [app map].
      rewrite Hfull, Hmap. repeat split. now constructor.
    + rewrite parseBlock_dropped by exact Hblock. cbn [bind].
      destruct (IH acc) as (es & -> & Hmap & Hgood). now exists es.
Qed.

Lemma parseSRT_spec (srtContent : str) :
  exists entries,
    parseSRT srtContent = Ok entries
    /\ map (@fullBlock num) entries = filter hasEntry (blocksOf srtContent)
    /\ Forall (goodEntry goodStart) entries.
Proof. apply (parseLoop_entries (blocksOf srtContent) []). Qed.

End Parser.

Lemma digitVal_nonneg (c : ascii) : isDigit c = true -> (0 <= digitVal c)%Z.
Proof.
  unfold isDigit, digitVal. intro Hc.
  apply andb_true_iff in Hc as [Hc _]. apply Nat.leb_le in Hc. lia.
Qed.

Lemma numeralValue_nonneg (s : str) (acc : Z) :
  forallb isDigit s = true -> (0 <= acc)%Z ->
  (0 <= fold_left (fun acc c => acc * 10 + digitVal c) s acc)%Z.
Proof.
  revert acc; induction s as [|c s IH]; intros acc Hs Hacc; trivial.
  cbn [forallb] in Hs. apply andb_true_iff in Hs as [Hc Hs].
  cbn [fold_left]. apply IH; trivial.
  pose proof (digitVal_nonneg c Hc). lia.
Qed.

Lemma decimal_nonneg (s : str) : numeral s -> (0 <= decimal s)%Z.
Proof.
  intros [_ Hs]. unfold decimal, numeralValue.
  apply numeralValue_nonneg; [exact Hs | lia].
Qed.

Section ExactNonneg.
Implicit Types (a b : exact).

Lemma exact_nonneg_iff (q : Q) : nonneg (ENum q) <-> (0 <= q)%Q.
Proof. unfold nonneg. apply exact_leb_le. Qed.

Lemma exact_nonneg_of_Z (z : Z) : (0 <= z)%Z -> nonneg (of_Z z : exact).
Proof.
  intro Hz. apply exact_nonneg_iff.
  change 0%Q with (inject_Z 0). now rewrite <- Zle_Qle.
Qed.

Lemma exact_nonneg_add a b : nonneg a -> nonneg b -> nonneg (add a b).
Proof.
  destruct a as [|x], b as [|y]; try discriminate.
  rewrite !exact_nonneg_iff. intros Hx Hy.
  change (add (ENum x) (ENum y)) with (ENum (Qred (x + y))).
  apply exact_nonneg_iff. rewrite Qred_correct. lra.
Qed.

Lemma exact_nonneg_mul a b : nonneg a -> nonneg b -> nonneg (mul a b).
Proof.
  destruct a as [|x], b as [|y]; try discriminate.
  rewrite !exact_nonneg_iff. intros Hx Hy.
  change (mul (ENum x) (ENum y)) with (ENum (Qred (x * y))).
  apply exact_nonneg_iff. rewrite Qred_correct. now apply Qmult_le_0_compat.
Qed.

Lemma exact_nonneg_div_1000 a : nonneg a -> nonneg (div a (of_Z 1000)).
Proof.
  destruct a as [|x]; try discriminate.
  rewrite exact_nonneg_iff. intro Hx.
  change (div (ENum x) (of_Z 1000)) with (ENum (Qred (x / inject_Z 1000))).
  apply exact_nonneg_iff. rewrite Qred_correct.
  apply Qle_shift_div_l; [reflexivity | lra].
Qed.

Lemma exact_secondsOf_nonneg (hh mm ss mmm : str) :
  fieldsOfMatch hh mm ss mmm -> nonneg (secondsOf hh mm ss mmm : exact).
Proof.
  intros ((Hh & _) & (Hm & _) & (Hs & _) & (Hms & _)). unfold secondsOf.
  repeat first [ apply exact_nonneg_add | apply exact_nonneg_mul
               | apply exact_nonneg_div_1000 | apply exact_nonneg_of_Z ];
    solve [now apply decimal_nonneg | lia].
Qed.

End ExactNonneg.

(** The fields the pattern matches denote small numbers. *)
Lemma digitVal_bounds (c : ascii) : isDigit c = true -> (0 <= digitVal c <= 9)%Z.
Proof.
  unfold isDigit, digitVal. intro Hc.
  apply andb_true_iff in Hc as [Hlo Hhi].
  apply Nat.leb_le in Hlo, Hhi. lia.
Qed.

Lemma decimal_two_digits (s : str) :
  numeral s -> length s = 2%nat -> (0 <= decimal s <= 99)%Z.
Proof.
  intros [_ Hs] Hlen. destruct s as [|a [|b [|c s]]]; try discriminate.
  cbn [forallb] in Hs. rewrite !andb_true_iff in Hs. destruct Hs as (Ha & Hb & _).
  apply digitVal_bounds in Ha, Hb. unfold decimal, numeralValue. cbn [fold_left]. lia.
Qed.

Lemma decimal_three_digits (s : str) :
  numeral s -> length s = 3%nat -> (0 <= decimal s <= 999)%Z.
Proof.
  intros [_ Hs] Hlen. destruct s as [|a [|b [|c [|d s]]]]; try discriminate.
  cbn [forallb] in Hs. rewrite !andb_true_iff in Hs. destruct Hs as (Ha & Hb & Hc & _).
  apply digitVal_bounds in Ha, Hb, Hc.
  unfold decimal, numeralValue. cbn [fold_left]. lia.
Qed.

Section Binary64Nonneg.

Lemma range_In (n : nat) (z : Z) :
  (0 <= z < Z.of_nat n)%Z -> In z (map Z.of_nat (seq 0 n)).
Proof.
  intro Hz. apply in_map_iff. exists (Z.to_nat z). split; [lia|].
  apply in_seq. lia.
Qed.

Lemma summandsNonneg_small (z : Z) : (0 <= z <= 99)%Z -> summandsNonneg z = true.
Proof.
  intro Hz.
  assert (Hall : forallb summandsNonneg (map Z.of_nat (seq 0 100)) = true)
    by (vm_compute; reflexivity).
  rewrite forallb_forall in Hall. apply Hall, range_In. lia.
Qed.

Lemma millisNonneg_small (z : Z) : (0 <= z <= 999)%Z -> millisNonneg z = true.
Proof.
  intro Hz.
  assert (Hall : forallb millisNonneg (map Z.of_nat (seq 0 1000)) = true)
    by (vm_compute; reflexivity).
  rewrite forallb_forall in Hall. apply Hall, range_In. lia.
Qed.

Lemma bin_secondsOf_nonneg (hh mm ss mmm : str) :
  fieldsOfMatch hh mm ss mmm -> nonneg (secondsOf hh mm ss mmm : binary64).
Proof.
  intros ((Hh & Lh) & (Hm & Lm) & (Hs & Ls) & (Hms & Lms)).
  pose proof (summandsNonneg_small _ (decimal_two_digits hh Hh Lh)) as Sh.
  pose proof (summandsNonneg_small _ (decimal_two_digits mm Hm Lm)) as Sm.
  pose proof (summandsNonneg_small _ (decimal_two_digits ss Hs Ls)) as Ss.
  pose proof (millisNonneg_small _ (decimal_three_digits mmm Hms Lms)) as Sms.
  unfold summandsNonneg in Sh, Sm, Ss. rewrite !andb_true_iff in Sh, Sm, Ss.
  unfold secondsOf. repeat apply bin_nonneg_add; unfold nonneg; tauto.
Qed.

End Binary64Nonneg.

Lemma startsWith_skipn (p s : str) :
  startsWith p s = true -> s = p ++ skipn (length p) s.
Proof.
  revert s; induction p as [|a p IH]; intros s Hs; [reflexivity|].
  destruct s as [|b s]; [discriminate|].
  cbn [startsWith] in Hs. apply andb_prop in Hs. destruct Hs as [Hab Hs].
  apply Ascii.eqb_eq in Hab. subst b. cbn [length skipn app].
  f_equal. now apply IH.
Qed.

Lemma split_from_skip (sep : str) (k : nat) (s : str) :
  split_from sep k s = split sep (skipn k s).
Proof.
  revert k; induction s as [|c s IH]; intros [|k]; try reflexivity.
  cbn [split_from skipn]. apply IH.
Qed.

(** ** The words of the specification and the functions of the parser *)

Lemma replaceCRLF_pair (s : str) :
  replaceCRLF (CR :: LF :: s) = LF :: replaceCRLF s.
Proof. reflexivity. Qed.

Lemma replaceCRLF_normalized (s : str) : normalized s (replaceCRLF s).
Proof.
  enough (Hboth : normalized s (replaceCRLF s)
                  /\ forall c, normalized (c :: s) (replaceCRLF (c :: s)))
    by apply Hboth.
  induction s as [|b s [IH IHc]].
  - split; [constructor|]. intro c. cbn [replaceCRLF startsWith].
    rewrite andb_false_r. constructor; [|constructor]. intros _ s'. discriminate.
  - split; [apply IHc|]. intro c.
    destruct (Ascii.eqb c CR && startsWith [LF] (b :: s)) eqn:E.
    + apply andb_prop in E as [Ec Eb]. apply Ascii.eqb_eq in Ec.
      rewrite startsWith_unit in Eb. apply Ascii.eqb_eq in Eb. subst c b.
      rewrite replaceCRLF_pair. now constructor.
    + change (replaceCRLF (c :: b :: s))
        with (if Ascii.eqb c CR && startsWith [LF] (b :: s)
              then replaceCRLF (b :: s) else c :: replaceCRLF (b :: s)).
      rewrite E. constructor; [|apply IHc].
      intros -> s' Hs'. injection Hs' as -> _.
      rewrite startsWith_unit, !Ascii.eqb_refl in E. discriminate.
Qed.

(** There is one text only with the line endings of another normalised. *)
Lemma normalized_unique (s normal normal' : str) :
  normalized s normal -> normalized s normal' -> normal = normal'.
Proof.
  intro Hn. revert normal'.
  induction Hn as [|s normal Hn IH|c s normal Hc Hn IH]; intros normal' Hn'.
  - now inversion Hn'.
  - inversion Hn' as [|s' t' Hs'|c' s' t' Hc' Hs']; subst.
    + f_equal. now apply IH.
    + exfalso. now apply (Hc' eq_refl s).
  - inversion Hn' as [|s' t' Hs'|c' s' t' Hc' Hs']; subst.
    + exfalso. now apply (Hc eq_refl s').
    + f_equal. now apply IH.
Qed.

Lemma startsWith_occurs (sep s : str) :
  startsWith sep s = true <-> occursAfter sep s [].
Proof.
  split.
  - intro Hs. exists (skipn (length sep) s). now apply startsWith_skipn.
  - intros [b ->]. cbn [app]. induction sep as [|a sep IH]; [reflexivity|].
    cbn [app startsWith]. now rewrite Ascii.eqb_refl.
Qed.

Lemma occursAfter_cons (sep : str) (c : ascii) (s a : str) :
  occursAfter sep (c :: s) a ->
  occursAfter sep (c :: s) [] \/ exists a', a = c :: a' /\ occursAfter sep s a'.
Proof.
  intros [b Hb]. destruct a as [|c' a'].
  - left. now exists b.
  - right. cbn [app] in Hb. injection Hb as <- Hs. exists a'. split; trivial.
    now exists b.
Qed.

Lemma piecesOf_unit (sep : str) (c : ascii) (s : str) (pieces : list str) :
  startsWith sep (c :: s) = false -> piecesOf sep s pieces ->
  piecesOf sep (c :: s)
    (match pieces with
     | piece :: pieces' => (c :: piece) :: pieces'
     | [] => [[c]]
     end).
Proof.
  intros Hstart Hs.
  assert (Hnot : ~ occursAfter sep (c :: s) []).
  { intro Hocc. apply startsWith_occurs in Hocc. congruence. }
  destruct Hs as [s Hnone | p rest pieces Hfirst Hrest].
  - constructor. intros a Ha. apply occursAfter_cons in Ha.
    destruct Ha as [Ha|(a' & _ & Ha)]; [tauto | now apply (Hnone a')].
  - change (c :: p ++ sep ++ rest) with ((c :: p) ++ sep ++ rest).
    constructor; trivial. intros a Ha. apply occursAfter_cons in Ha.
    destruct Ha as [Ha|(a' & -> & Ha)]; [tauto|].
    apply Hfirst in Ha. cbn [length]. lia.
Qed.

Lemma split_pieces_bounded (sep : str) (n : nat) (s : str) :
  sep <> [] -> (length s <= n)%nat -> piecesOf sep s (split sep s).
Proof.
  intro Hsep. revert s; induction n as [|n IH]; intros s Hlen.
  - destruct s; [|cbn in Hlen; lia]. constructor.
    intros a [b Hb]. destruct a; [|discriminate].
    destruct sep; [contradiction | discriminate].
  - destruct s as [|c s].
    { constructor. intros a [b Hb]. destruct a; [|discriminate].
      destruct sep; [contradiction | discriminate]. }
    cbn [length] in Hlen. unfold split. cbn [split_from].
    destruct (startsWith sep (c :: s)) eqn:Hstart.
    + rewrite split_from_skip.
      pose proof (startsWith_skipn _ _ Hstart) as Hs.
      assert (Hrest : skipn (length sep - 1) s = skipn (length sep) (c :: s)).
      { destruct sep as [|a sep]; [contradiction|].
        cbn [length skipn Nat.sub]. now rewrite Nat.sub_0_r. }
      rewrite Hrest. rewrite Hs at 1.
      apply (piecesOf_first sep [] _ _).
      * intros a _. cbn [length]. lia.
      * apply IH. rewrite <- Hrest, length_skipn. lia.
    + fold (split sep s). apply (piecesOf_unit sep c s _ Hstart). apply IH. lia.
Qed.

(** [split] gives the pieces between the separators. *)
Lemma split_pieces (sep s : str) : sep <> [] -> piecesOf sep s (split sep s).
Proof. intro Hsep. now apply (split_pieces_bounded sep (length s)). Qed.

Lemma app_same_length (p p' x y : str) :
  length p = length p' -> p ++ x = p' ++ y -> p = p' /\ x = y.
Proof.
  revert p'; induction p as [|c p IH]; intros [|c' p'] Hlen E; try discriminate.
  - now split.
  - cbn [app] in E. injection E as -> E. cbn [length] in Hlen.
    destruct (IH p' ltac:(lia) E) as [-> ->]. now split.
Qed.

(** There is one way only to cut a text into its pieces. *)
Lemma piecesOf_unique (sep s : str) (ps ps' : list str) :
  piecesOf sep s ps -> piecesOf sep s ps' -> ps = ps'.
Proof.
  intro Hps. revert ps'.
  induction Hps as [s Hnone | p rest pieces Hfirst Hrest IH]; intros ps' Hps'.
  - inversion Hps' as [s' Hnone' | p' rest' pieces' Hfirst' Hrest' E]; subst; trivial.
    exfalso. apply (Hnone p'). now exists rest'.
  - remember (p ++ sep ++ rest) as s eqn:Es.
    destruct Hps' as [s Hnone' | p' rest' pieces' Hfirst' Hrest'].
    + exfalso. apply (Hnone' p). now exists rest.
    + assert (Hlen : length p = length p').
      { apply Nat.le_antisymm.
        - apply Hfirst. now exists rest'.
        - apply Hfirst'. exists rest. exact Es. }
      destruct (app_same_length _ _ _ _ Hlen (eq_sym Es)) as [-> E].
      apply app_inv_head in E. subst rest'. f_equal. now apply IH.
Qed.

Lemma forallb_isWhite_trimStart (s : str) :
  forallb isWhite s = true <-> trimStart s = [].
Proof.
  induction s as [|c s IH]; [tauto|]. cbn [forallb trimStart].
  destruct (isWhite c); cbn [andb]; [exact IH|]. split; discriminate.
Qed.

Lemma trimStart_white (s : str) :
  forallb isWhite (trimStart s) = true -> trimStart s = [].
Proof.
  induction s as [|c s IH]; [trivial|]. cbn [trimStart].
  destruct (isWhite c) eqn:Hc; [exact IH|].
  cbn [forallb]. rewrite Hc. discriminate.
Qed.

Lemma forallb_rev (f : ascii -> bool) (s : str) :
  forallb f (rev s) = forallb f s.
Proof.
  apply eq_true_iff_eq. rewrite !forallb_forall. split; intros Hs c Hc;
    apply Hs; [now apply -> in_rev | now apply in_rev].
Qed.

(** [l.trim() !== ''] holds of the lines that have a unit other than white
    space. *)
Lemma trim_notBlank (line : str) :
  negb (str_eqb (trim line) []) = notBlank line.
Proof.
  assert (Hex : notBlank line = negb (forallb isWhite line)).
  { unfold notBlank. induction line as [|c l IH]; [reflexivity|].
    cbn [existsb forallb]. rewrite IH. now destruct (isWhite c). }
  rewrite Hex. f_equal. apply eq_true_iff_eq.
  assert (Htrim : trim line = [] <-> forallb isWhite line = true).
  { unfold trim, trimEnd. split.
    - intro Ht. apply forallb_isWhite_trimStart, trimStart_white.
      rewrite <- forallb_rev. apply forallb_isWhite_trimStart.
      apply (f_equal (@rev _)) in Ht. now rewrite rev_involutive in Ht.
    - intro Hw. apply forallb_isWhite_trimStart in Hw. now rewrite Hw. }
  rewrite <- Htrim. unfold str_eqb.
  destruct (list_eq_dec ascii_dec (trim line) []); split; congruence.
Qed.

Lemma keptLines_notBlank (block : str) :
  keptLines block = filter notBlank (split [LF] block).
Proof. unfold keptLines. apply filter_ext. intro l. apply trim_notBlank. Qed.

(** The test of line 23 is the one of the specification. *)
Lemma hasEntry_threeLines (block : str) :
  hasEntry block = true <-> threeLines block.
Proof.
  unfold hasEntry, threeLines, linesIn. rewrite keptLines_notBlank, Nat.leb_le.
  split.
  - intro Hlen. exists (split [LF] block). split; trivial.
    apply split_pieces. discriminate.
  - intros (lines & Hlines & Hlen).
    rewrite (piecesOf_unique _ _ _ _ (split_pieces [LF] block ltac:(discriminate)) Hlines).
    exact Hlen.
Qed.

Lemma filter_oneForEach (blocks : list str) :
  oneForEach threeLines blocks (filter hasEntry blocks).
Proof.
  induction blocks as [|b blocks IH]; [constructor|]. cbn [filter].
  destruct (hasEntry b) eqn:Hb.
  - constructor; trivial. now apply hasEntry_threeLines.
  - apply oneForEach_dropped; trivial. intro Ht.
    apply hasEntry_threeLines in Ht. congruence.
Qed.

Lemma oneForEach_none {A : Type} (P : A -> Prop) (l kept : list A) :
  oneForEach P l kept -> (forall x, In x l -> ~ P x) -> kept = [].
Proof.
  induction 1 as [|x l kept Hx _ _|x l kept _ _ IH]; intro Hnone; trivial.
  - exfalso. apply (Hnone x); [now left | exact Hx].
  - apply IH. intros y Hy. apply Hnone. now right.
Qed.

Lemma parseSRT_blocks (srtContent : str) :
  normalized srtContent (replaceCRLF srtContent)
  /\ blocksIn (replaceCRLF srtContent) (blocksOf srtContent)
  /\ oneForEach threeLines (blocksOf srtContent)
       (filter hasEntry (blocksOf srtContent)).
Proof.
  split; [apply replaceCRLF_normalized|]. split.
  - apply split_pieces. discriminate.
  - apply filter_oneForEach.
Qed.

(** C8. [parseSRT] never throws.  With the line endings normalised and the
    blocks being the pieces of the text between the empty lines, its entries
    are, in order, one for each block that has at least 3 non-empty lines,
    a line counting as non-empty when it has a character other than white
    space; the other blocks give nothing, so that an input without such a
    block gives the empty array.  Each entry has a text that is not empty
    and a start that is 0 or more.  This is so in binary64 and in exact
    arithmetic. *)
Theorem parseSRT_one_entry_per_block (srtContent : str) :
  (exists (entries : list (@Entry binary64)) (normal : str) (blocks : list str),
      parseSRT srtContent = Ok entries
      /\ normalized srtContent normal /\ blocksIn normal blocks
      /\ oneForEach threeLines blocks (map (@fullBlock binary64) entries)
      /\ Forall (fun e => text e <> [] /\ leb zero (startSeconds e) = true) entries
      /\ ((forall block, In block blocks -> ~ threeLines block) -> entries = []))
  /\ (exists (entries : list (@Entry exact)) (normal : str) (blocks : list str),
         parseSRT srtContent = Ok entries
         /\ normalized srtContent normal /\ blocksIn normal blocks
         /\ oneForEach threeLines blocks (map (@fullBlock exact) entries)
         /\ Forall (fun e => text e <> [] /\ leb zero (startSeconds e) = true) entries
         /\ ((forall block, In block blocks -> ~ threeLines block) -> entries = [])).
Proof.
  destruct (parseSRT_blocks srtContent) as (Hnormal & Hblocks & Hone).
  split.
  - destruct (parseSRT_spec (num := binary64) nonneg) with (srtContent := srtContent)
      as (entries & Hparse & Hfull & Hgood).
    + reflexivity.
    + apply bin_secondsOf_nonneg.
    + exists entries, (replaceCRLF srtContent), (blocksOf srtContent).
      rewrite Hfull. repeat split; trivial.
      intro Hnone. apply (oneForEach_none _ _ _ Hone) in Hnone.
      rewrite <- Hfull in Hnone. now destruct entries.
  - destruct (parseSRT_spec (num := exact) nonneg) with (srtContent := srtContent)
      as (entries & Hparse & Hfull & Hgood).
    + reflexivity.
    + apply exact_secondsOf_nonneg.
    + exists entries, (replaceCRLF srtContent), (blocksOf srtContent).
      rewrite Hfull. repeat split; trivial.
      intro Hnone. apply (oneForEach_none _ _ _ Hone) in Hnone.
      rewrite <- Hfull in Hnone. now destruct entries.
Qed.

(** Two blocks that become entries and one that has two lines only. *)
Example parseSRT_sample :
  let srt :=
    join [LF] [lit "1"; lit "00:00:01,000 --> 00:00:02,000"; lit "Hello";
               lit "world"; lit "";
               lit "2"; lit "00:01:05,250 --> 00:01:07,000"; lit "Bye"; lit "";
               lit "junk"; lit "x"; lit ""] in
  match parseSRT (num := binary64) srt with
  | Ok entries =>
      map (fun e => (id e, startSeconds e, text e)) entries
      = [(lit "1", 1%float, lit "Hello world"); (lit "2", 65.25%float, lit "Bye")]
  | Throw _ => False
  end.
Proof. vm_compute. reflexivity. Qed.

(** A line of white space only counts as empty: this block keeps two lines
    and gives no entry. *)
Example parseSRT_blank_line :
  let srt := join [LF] [lit "1"; lit "00:00:01,000 --> 00:00:02,000"; lit "   "] in
  parseSRT (num := binary64) srt = Ok [].
Proof. vm_compute. reflexivity. Qed.

(** A line of white space only does not separate blocks either: the lines
    below are one block and give one entry. *)
Example parseSRT_white_line_between :
  let srt :=
    join [LF] [lit "1"; lit "00:00:01,000 --> 00:00:02,000"; lit "Hello";
               lit " ";
               lit "2"; lit "00:00:03,000 --> 00:00:04,000"; lit "Bye"] in
  match parseSRT (num := binary64) srt with
  | Ok entries =>
      map (fun e => (id e, startSeconds e, text e)) entries
      = [(lit "1", 1%float, lit "Hello 2 00:00:03,000 --> 00:00:04,000 Bye")]
  | Throw _ => False
  end.
Proof. vm_compute. reflexivity. Qed.

(** ** The chunker: structure of its output *)

Section ChunkStructure.
Context {num : Type} `{JsNumber num}.
Implicit Types (st : @ChunkState num) (entries : list (@Entry num)) (e : @Entry num).

Lemma nonempty_length_pos (A : Type) (l : list A) :
  (0 <? length l)%nat = true <-> l <> [].
Proof.
  destruct l as [|a l]; cbn; split; intro Hl;
    solve [reflexivity | discriminate | now destruct Hl].
Qed.

Lemma chunkStep_consumed w st e :
  consumed (chunkStep w st e) = consumed st ++ [e].
Proof.
  unfold chunkStep, consumed.
  destruct (_ && _); simpl.
  - rewrite concat_app; simpl. now rewrite app_nil_r.
  - now rewrite app_assoc.
Qed.

Lemma chunkStep_closed w st e :
  closedChunksNonEmpty st -> closedChunksNonEmpty (chunkStep w st e).
Proof.
  unfold chunkStep, closedChunksNonEmpty. intro Hst.
  destruct (gtb _ _ && _) eqn:Htest; simpl; trivial.
  apply andb_true_iff in Htest as [_ Hlen].
  apply Forall_app; split; trivial.
  constructor; [now apply nonempty_length_pos | constructor].
Qed.

Lemma chunkLoop_consumed w entries st :
  consumed (fold_left (chunkStep w) entries st) = consumed st ++ entries.
Proof.
  revert st; induction entries as [|e entries IH]; intro st; simpl.
  - now rewrite app_nil_r.
  - rewrite IH, chunkStep_consumed, <- app_assoc. reflexivity.
Qed.

Lemma chunkLoop_closed w entries st :
  closedChunksNonEmpty st ->
  closedChunksNonEmpty (fold_left (chunkStep w) entries st).
Proof.
  revert st; induction entries as [|e entries IH]; intros st Hst; simpl; trivial.
  apply IH, chunkStep_closed, Hst.
Qed.

Lemma chunkFlush_concat st : concat (chunkFlush st) = consumed st.
Proof.
  unfold chunkFlush, consumed.
  destruct (currentChunk st); simpl.
  - now rewrite app_nil_r.
  - rewrite concat_app; simpl. now rewrite app_nil_r.
Qed.

Lemma chunkFlush_nonempty st :
  closedChunksNonEmpty st -> Forall (fun chunk => chunk <> []) (chunkFlush st).
Proof.
  unfold chunkFlush, closedChunksNonEmpty; intro Hst.
  destruct (0 <? _)%nat eqn:Hlen; trivial.
  apply Forall_app; split; trivial.
  constructor; [now apply nonempty_length_pos | constructor].
Qed.

(** C3. The chunks of [chunkSRTByDuration], concatenated in order, are the
    entry sequence itself (nothing lost, repeated or reordered), and no chunk
    is empty.  This holds for every entry sequence and every window, sorted
    and positive or not. *)
Theorem chunks_partition_entries entries (durationMinutes : num) :
  concat (chunkSRTByDuration entries durationMinutes) = entries
  /\ Forall (fun chunk => chunk <> []) (chunkSRTByDuration entries durationMinutes).
Proof.
  unfold chunkSRTByDuration, chunkBySeconds; split.
  - rewrite chunkFlush_concat, chunkLoop_consumed. reflexivity.
  - apply chunkFlush_nonempty, chunkLoop_closed. constructor.
Qed.

End ChunkStructure.

(** ** The chunker: the span of a chunk *)

Section ChunkSpan.
Context {num : Type} `{JsNumber num}.
Implicit Types (st : @ChunkState num) (entries : list (@Entry num))
  (e : @Entry num) (w : num).

(** What the argument needs of the numbers; both models have it. *)
Hypothesis sentinel_eq : eqb (of_Z (-1)) (of_Z (-1) : num) = true.
Hypothesis finite_sub_self :
  forall a w, ltb zero w = true -> isFinite a = true -> leb (sub a a) w = true.
Hypothesis finite_not_gt_le :
  forall a b w, isFinite a = true -> isFinite b = true -> ltb zero w = true ->
                gtb (sub a b) w = false -> leb (sub a b) w = true.

Lemma spanWithin_chunkOk w chunk : spanWithin w chunk = true -> chunkOk w chunk = true.
Proof. unfold chunkOk. now intros ->. Qed.

Lemma chunkStep_inv w st e :
  ltb zero w = true ->
  isFinite (startSeconds e) = true ->
  eqb (startSeconds e) (of_Z (-1)) = false ->
  chunkInv w st -> chunkInv w (chunkStep w st e).
Proof.
  intros Hw He Hsent [Hclosed Hopen]. unfold chunkStep.
  destruct (currentChunk st) as [|first rest] eqn:Hcur.
  - rewrite Hopen, sentinel_eq.
    cbn [length Nat.ltb Nat.leb]. rewrite andb_false_r.
    split; cbn [chunks currentChunk chunkStartTime app]; trivial.
    repeat split; trivial.
    cbn [spanWithin last]. now apply finite_sub_self.
  - destruct Hopen as [Hstart [Hnum [Hfirst Hspan]]].
    rewrite Hstart, Hfirst. cbn [length Nat.ltb Nat.leb]. rewrite andb_true_r.
    destruct (gtb _ _) eqn:Hgt.
    + split; cbn [chunks currentChunk chunkStartTime].
      * apply Forall_app; split; trivial.
        constructor; [now apply spanWithin_chunkOk | constructor].
      * repeat split; trivial.
        cbn [spanWithin last]. now apply finite_sub_self.
    + split; cbn [chunks currentChunk chunkStartTime]; trivial.
      cbn [app]. repeat split; trivial.
      unfold spanWithin. change (first :: rest ++ [e]) with ((first :: rest) ++ [e]).
      rewrite last_last. now apply finite_not_gt_le.
Qed.

Lemma chunkLoop_inv w entries st :
  ltb zero w = true -> finiteStarts entries -> noSentinel entries ->
  chunkInv w st -> chunkInv w (fold_left (chunkStep w) entries st).
Proof.
  intros Hw. revert st.
  induction entries as [|e entries IH]; intros st Hnum Hsent Hst; trivial.
  inversion Hnum; inversion Hsent; subst. cbn [fold_left].
  apply IH; trivial. now apply chunkStep_inv.
Qed.

Lemma chunkFlush_ok w st :
  chunkInv w st -> Forall (fun chunk => chunkOk w chunk = true) (chunkFlush st).
Proof.
  intros [Hclosed Hopen]. unfold chunkFlush.
  destruct (currentChunk st) as [|first rest] eqn:Hcur; trivial.
  cbn [length Nat.ltb Nat.leb]. apply Forall_app; split; trivial.
  constructor; [|constructor]. apply spanWithin_chunkOk. tauto.
Qed.

Lemma chunkBySeconds_within entries w :
  ltb zero w = true -> finiteStarts entries -> noSentinel entries ->
  Forall (fun chunk => chunkOk w chunk = true) (chunkBySeconds entries w).
Proof.
  intros Hw Hfin Hsent.
  apply chunkFlush_ok, chunkLoop_inv; trivial.
  split; [constructor | reflexivity].
Qed.

End ChunkSpan.

Lemma exact_sentinel_eq : eqb (of_Z (-1)) (of_Z (-1) : exact) = true.
Proof. reflexivity. Qed.

Lemma bin_sentinel_eq : eqb (of_Z (-1)) (of_Z (-1) : binary64) = true.
Proof. reflexivity. Qed.

(** In exact arithmetic a sorted sequence of two entries or more has finite
    starts only (a NaN compares with nothing), and a single entry is a chunk
    of its own: there the bound needs no word on finiteness. *)
Lemma exact_sorted_finiteStarts (entries : list (@Entry exact)) :
  sortedByStart entries -> (2 <= length entries)%nat -> finiteStarts entries.
Proof.
  unfold sortedByStart, finiteStarts.
  induction 1 as [|a l Hl IH Hhd]; cbn [length]; [lia|].
  intro Hlen. destruct l as [|b l]; [cbn in Hlen; lia|].
  inversion Hhd as [|? ? Hab]; subst.
  assert (Ha : isFinite (startSeconds a) = true /\ isFinite (startSeconds b) = true).
  { destruct (startSeconds a), (startSeconds b); try discriminate.
    split; apply exact_isFinite_iff; eauto. }
  constructor; [tauto|].
  destruct l as [|c l]; [repeat constructor; tauto|].
  apply IH. cbn [length]. lia.
Qed.

Lemma exact_chunkBySeconds_within (entries : list (@Entry exact)) (w : exact) :
  sortedByStart entries -> ltb zero w = true -> noSentinel entries ->
  Forall (fun chunk => chunkOk w chunk = true) (chunkBySeconds entries w).
Proof.
  intros Hsorted Hw Hsent.
  destruct entries as [|e [|e' entries]].
  - constructor.
  - unfold chunkBySeconds, chunkStep.
    cbn [fold_left chunkInit currentChunk length Nat.ltb Nat.leb].
    rewrite andb_false_r. repeat constructor.
    unfold chunkOk. cbn [length Nat.eqb]. apply orb_true_r.
  - apply (chunkBySeconds_within exact_sentinel_eq exact_finite_sub_self
                                 exact_finite_not_gt_le); trivial.
    apply exact_sorted_finiteStarts; trivial. cbn [length]. lia.
Qed.

(** The chunker loses track of the start of an open chunk when that start is
    -1: the two entries -1 and 601 are sorted, the window is ten minutes, and
    they come out, in exact arithmetic as in binary64, as one chunk that spans
    602 seconds.  In binary64 two entries at infinity stay together too:
    their distance is NaN, which exceeds nothing and is within nothing. *)
Lemma chunk_span_sentinel_counterexample :
  let entry {num : Type} `{JsNumber num} (x : num) : @Entry num :=
    {| id := []; timeLine := []; startSeconds := x; text := []; fullBlock := [] |} in
  let exact_entries : list (@Entry exact) :=
    [entry (of_Z (-1)); entry (of_Z 601)] in
  let float_entries : list (@Entry binary64) :=
    [entry (-1)%float; entry 601%float] in
  let infinite_entries : list (@Entry binary64) :=
    [entry infinity; entry infinity] in
  (sortedByStart exact_entries
   /\ ltb zero (mul (of_Z 10) (of_Z 60) : exact) = true
   /\ chunkSRTByDuration exact_entries (of_Z 10) = [exact_entries]
   /\ ~ Forall (fun chunk => chunkOk (mul (of_Z 10) (of_Z 60)) chunk = true)
               (chunkSRTByDuration exact_entries (of_Z 10)))
  /\ (sortedByStart float_entries
      /\ ltb zero (mul 10 60 : binary64)%float = true
      /\ chunkSRTByDuration float_entries 10%float = [float_entries]
      /\ ~ Forall (fun chunk => chunkOk (mul 10 60)%float chunk = true)
                  (chunkSRTByDuration float_entries 10%float))
  /\ (sortedByStart infinite_entries
      /\ noSentinel infinite_entries
      /\ chunkSRTByDuration infinite_entries 10%float = [infinite_entries]
      /\ ~ Forall (fun chunk => chunkOk (mul 10 60)%float chunk = true)
                  (chunkSRTByDuration infinite_entries 10%float)).
Proof.
  cbv zeta. repeat split; try (repeat constructor; fail).
  - intro Hall. inversion Hall as [|? ? Hchunk _]. vm_compute in Hchunk. discriminate.
  - intro Hall. inversion Hall as [|? ? Hchunk _]. vm_compute in Hchunk. discriminate.
  - intro Hall. inversion Hall as [|? ? Hchunk _]. vm_compute in Hchunk. discriminate.
Qed.

(** C2, as the program has it.  For entries sorted by [startSeconds] whose
    starts are finite numbers other than -1 (the parser gives only such: its
    starts are finite and 0 or more) and a window
    [w = durationMinutes * 60 > 0], every chunk of [chunkSRTByDuration] spans
    at most [w] from its first to its last entry, or is a single entry; in
    binary64 and in exact arithmetic. *)
Theorem chunk_span_within_window :
  (forall (entries : list (@Entry binary64)) (durationMinutes : binary64),
      sortedByStart entries ->
      ltb zero (mul durationMinutes (of_Z 60)) = true ->
      finiteStarts entries -> noSentinel entries ->
      Forall (fun chunk => chunkOk (mul durationMinutes (of_Z 60)) chunk = true)
             (chunkSRTByDuration entries durationMinutes))
  /\ (forall (entries : list (@Entry exact)) (durationMinutes : exact),
         sortedByStart entries ->
         ltb zero (mul durationMinutes (of_Z 60)) = true ->
         finiteStarts entries -> noSentinel entries ->
         Forall (fun chunk => chunkOk (mul durationMinutes (of_Z 60)) chunk = true)
                (chunkSRTByDuration entries durationMinutes)).
Proof.
  split; intros entries durationMinutes _ Hw Hfin Hsent; unfold chunkSRTByDuration.
  - now apply (chunkBySeconds_within bin_sentinel_eq bin_leb_sub_self
                                     bin_not_gt_le).
  - now apply (chunkBySeconds_within exact_sentinel_eq exact_finite_sub_self
                                     exact_finite_not_gt_le).
Qed.

Lemma chunk_span_within_window_witness :
  let entry (x : binary64) : @Entry binary64 :=
    {| id := []; timeLine := []; startSeconds := x; text := []; fullBlock := [] |} in
  let entries := [entry 0; entry 600; entry 601; entry 1300]%float in
  Forall (fun chunk => chunkOk (mul 10%float (of_Z 60)) chunk = true)
         (chunkSRTByDuration entries 10%float).
Proof.
  cbv zeta. apply (proj1 chunk_span_within_window).
  - repeat constructor.
  - reflexivity.
  - repeat constructor.
  - repeat constructor.
Defined.

(** ** The greedy selection *)

Section Selection.
Context {num : Type} `{JsNumber num}.
Implicit Types (c : @Clip num) (st : @Selection num) (m : object (@Moment num)).

Lemma overlaps_sym c c' : overlaps c c' = overlaps c' c.
Proof. unfold overlaps. apply andb_comm. Qed.

Lemma apart_sym c c' : apart c c' -> apart c' c.
Proof. unfold apart. now rewrite overlaps_sym. Qed.

Lemma entryOf_toClip (kv : str * @Moment num) : entryOf (toClip kv) = kv.
Proof. now destruct kv. Qed.

Lemma FOP_snoc (R : @Clip num -> @Clip num -> Prop) (l : list (@Clip num)) c :
  ForallOrdPairs R l -> Forall (fun a => R a c) l -> ForallOrdPairs R (l ++ [c]).
Proof.
  induction 1 as [|a l Ha Hl IH]; simpl; intro Hc.
  - repeat constructor.
  - inversion Hc; subst. constructor; [|now apply IH].
    apply Forall_app; split; trivial. now repeat constructor.
Qed.

Lemma FOP_of_NoDup (R : @Clip num -> @Clip num -> Prop) (l : list (@Clip num)) :
  NoDup l ->
  (forall a b, In a l -> In b l -> a <> b -> R a b) ->
  ForallOrdPairs R l.
Proof.
  induction 1 as [|a l Ha Hnd IH]; intro HR; constructor.
  - apply Forall_forall. intros b Hb. apply HR; simpl; auto.
    intros ->. contradiction.
  - apply IH. intros; apply HR; simpl; auto.
Qed.

(** Each step keeps the selected clips pairwise apart and draws them from
    the clips it was given. *)
Lemma selectStep_apart st c :
  ForallOrdPairs apart (selectedClips st) ->
  ForallOrdPairs apart (selectedClips (selectStep st c)).
Proof.
  unfold selectStep. intro Hst.
  destruct (existsb _ _) eqn:Hover; simpl; trivial.
  apply FOP_snoc; trivial.
  apply Forall_forall. intros a Ha. apply apart_sym. unfold apart.
  destruct (overlaps c a) eqn:Hca; trivial.
  assert (existsb (overlaps c) (selectedClips st) = true); [|congruence].
  apply existsb_exists. now exists a.
Qed.

Lemma selectLoop_apart clips st :
  ForallOrdPairs apart (selectedClips st) ->
  ForallOrdPairs apart (selectedClips (fold_left selectStep clips st)).
Proof.
  revert st; induction clips as [|c clips IH]; intros st Hst; simpl; trivial.
  apply IH, selectStep_apart, Hst.
Qed.

Lemma selectLoop_In clips st c :
  In c (selectedClips (fold_left selectStep clips st)) ->
  In c (selectedClips st) \/ In c clips.
Proof.
  revert st; induction clips as [|c0 clips IH]; intros st; simpl; auto.
  intro Hin. destruct (IH _ Hin) as [Hst|Hrest]; auto.
  unfold selectStep in Hst. destruct (existsb _ _); simpl in Hst; auto.
  apply in_app_or in Hst as [Hst|[->|[]]]; auto.
Qed.

Lemma FOP_app_In (R : @Clip num -> @Clip num -> Prop) (l1 l2 : list (@Clip num)) a b :
  ForallOrdPairs R (l1 ++ l2) -> In a l1 -> In b l2 -> R a b.
Proof.
  induction l1 as [|x l1 IH]; simpl; intros Hfop Ha Hb; [contradiction|].
  inversion Hfop as [|? ? Hx Hrest]; subst.
  destruct Ha as [->|Ha]; [|now apply IH].
  eapply Forall_forall; [exact Hx | apply in_or_app; now right].
Qed.

(** Clips that are pairwise apart are all selected, in their order. *)
Lemma selectLoop_all clips st :
  ForallOrdPairs apart (selectedClips st ++ clips) ->
  selectedClips (fold_left selectStep clips st) = selectedClips st ++ clips.
Proof.
  revert st; induction clips as [|c clips IH]; intros st Hall; simpl.
  - now rewrite app_nil_r.
  - assert (Hstep : selectedClips (selectStep st c) = selectedClips st ++ [c]).
    { unfold selectStep.
      destruct (existsb _ _) eqn:Hover; simpl; trivial.
      apply existsb_exists in Hover as [a [Ha Hover]].
      assert (Hc : apart a c).
      { eapply FOP_app_In; [exact Hall | exact Ha | now left]. }
      apply apart_sym in Hc. unfold apart in Hc. congruence. }
    rewrite IH; rewrite Hstep; now rewrite <- app_assoc.
Qed.

Lemma toResult_acc_In (selected : list (@Clip num)) (acc : object (@Moment num)) k v :
  In (k, v) (fold_left (fun result clip => objSet result (key clip) (val clip))
                       selected acc) ->
  In (k, v) acc \/ exists c, In c selected /\ entryOf c = (k, v).
Proof.
  revert acc; induction selected as [|c selected IH]; intro acc; simpl; auto.
  intro Hin. destruct (IH _ Hin) as [Hacc|[c' [Hc' Heq]]].
  - destruct (objSet_In _ _ _ _ _ Hacc) as [Ho|Hnew]; auto.
    right. exists c. split; auto.
  - right. exists c'. split; auto.
Qed.

Lemma toResult_acc_NoDup (selected : list (@Clip num)) (acc : object (@Moment num)) :
  NoDup (keys acc) ->
  NoDup (keys (fold_left (fun result clip => objSet result (key clip) (val clip))
                         selected acc)).
Proof.
  revert acc; induction selected as [|c selected IH]; intros acc Hacc; simpl; trivial.
  apply IH, objSet_NoDup, Hacc.
Qed.

Lemma toResult_acc_perm (selected : list (@Clip num)) (acc : object (@Moment num)) :
  NoDup (keys acc ++ map (@key num) selected) ->
  ~ In protoKey (map (@key num) selected) ->
  Permutation
    (fold_left (fun result clip => objSet result (key clip) (val clip)) selected acc)
    (acc ++ map entryOf selected).
Proof.
  revert acc; induction selected as [|c selected IH]; intros acc Hnd Hproto; simpl.
  - now rewrite app_nil_r.
  - assert (Hfresh : ~ In (key c) (keys acc)).
    { apply NoDup_remove_2 in Hnd. intro Hk. apply Hnd.
      apply in_or_app. now left. }
    assert (Hc : key c <> protoKey).
    { intro E. apply Hproto. now left. }
    pose proof (objSet_Permutation acc (key c) (val c) Hfresh Hc) as Hset.
    rewrite IH.
    + rewrite Hset, <- app_assoc. reflexivity.
    + eapply Permutation_NoDup; [|exact Hnd].
      rewrite (Permutation_map fst Hset). unfold keys.
      rewrite map_app, <- app_assoc. reflexivity.
    + intro Hin. apply Hproto. now right.
Qed.


Lemma toResult_acc_no_proto (selected : list (@Clip num)) (acc : object (@Moment num)) :
  ~ In protoKey (keys acc) ->
  ~ In protoKey
      (keys (fold_left (fun result clip => objSet result (key clip) (val clip))
                       selected acc)).
Proof.
  revert acc; induction selected as [|c selected IH]; intros acc Hacc; simpl; trivial.
  apply IH, objSet_no_proto, Hacc.
Qed.

Lemma toResult_In (selected : list (@Clip num)) k v :
  In (k, v) (toResult selected) -> exists c, In c selected /\ entryOf c = (k, v).
Proof.
  intro Hin. destruct (toResult_acc_In _ _ _ _ Hin) as [[]|Hc]. exact Hc.
Qed.

Lemma toResult_NoDup (selected : list (@Clip num)) : NoDup (keys (toResult selected)).
Proof. apply toResult_acc_NoDup. constructor. Qed.

(** With distinct keys other than [__proto__], the clips stored are the
    clips selected; in their order when no key is an array index. *)
Lemma toResult_perm (selected : list (@Clip num)) :
  NoDup (map (@key num) selected) -> ~ In protoKey (map (@key num) selected) ->
  Permutation (toResult selected) (map entryOf selected).
Proof. intros Hnd Hproto. unfold toResult. now apply toResult_acc_perm. Qed.


Lemma toResult_no_proto (selected : list (@Clip num)) :
  ~ In protoKey (keys (toResult selected)).
Proof. apply toResult_acc_no_proto. intros []. Qed.

Lemma selected_In_input m c :
  In c (selectedClips (select (arraySort compareClips (map toClip m)))) ->
  exists kv, In kv m /\ c = toClip kv.
Proof.
  intro Hc. apply selectLoop_In in Hc as [[]|Hc].
  eapply Permutation_in in Hc; [|apply arraySort_Permutation].
  apply in_map_iff in Hc as [kv [Heq Hkv]]. now exists kv.
Qed.

Lemma removeOverlaps_In m k v : In (k, v) (removeOverlaps m) -> In (k, v) m.
Proof.
  intro Hin. apply toResult_In in Hin as [c [Hc Heq]].
  apply selected_In_input in Hc as [kv [Hkv ->]].
  rewrite entryOf_toClip in Heq. now subst kv.
Qed.

Lemma removeOverlaps_apart m k1 v1 k2 v2 :
  In (k1, v1) (removeOverlaps m) -> In (k2, v2) (removeOverlaps m) -> k1 <> k2 ->
  apart (toClip (k1, v1)) (toClip (k2, v2)).
Proof.
  intros H1 H2 Hk.
  apply toResult_In in H1 as [c1 [Hc1 He1]].
  apply toResult_In in H2 as [c2 [Hc2 He2]].
  assert (Hfop : ForallOrdPairs apart
            (selectedClips (select (arraySort compareClips (map toClip m))))).
  { apply selectLoop_apart. constructor. }
  assert (Ha : apart c1 c2).
  { destruct (ForallOrdPairs_In Hfop _ _ Hc1 Hc2) as [Heq|[Ha|Ha]]; trivial.
    - subst c2. rewrite He1 in He2. congruence.
    - now apply apart_sym. }
  unfold entryOf in He1, He2. injection He1 as <- <-. injection He2 as <- <-.
  exact Ha.
Qed.

Lemma removeOverlaps_NoDup m : NoDup (keys (removeOverlaps m)).
Proof. apply toResult_NoDup. Qed.

Lemma removeOverlaps_no_proto m : ~ In protoKey (keys (removeOverlaps m)).
Proof. apply toResult_no_proto. Qed.

(** C1. Every entry of the object [removeOverlaps] returns is an entry of the
    object it was given (same key, same candidate; the auxiliary [duration]
    is deleted before the clip is stored); the keys of the result are
    distinct, and two of its entries, which then differ in their keys, never
    overlap under the test with the 0.5 second buffer: not both
    [A.start < B.end - 0.5] and [B.start < A.end - 0.5]. *)
Theorem removeOverlaps_subset_and_disjoint m :
  (forall k v, In (k, v) (removeOverlaps m) -> In (k, v) m)
  /\ NoDup (keys (removeOverlaps m))
  /\ (forall kA A kB B,
        In (kA, A) (removeOverlaps m) -> In (kB, B) (removeOverlaps m) ->
        kA <> kB ->
        ~ (ltb (start A) (sub (end_ B) lit_0_5) = true
           /\ ltb (start B) (sub (end_ A) lit_0_5) = true)).
Proof.
  split; [|split].
  - apply removeOverlaps_In.
  - apply removeOverlaps_NoDup.
  - intros kA A kB B HA HB Hk [H1 H2].
    pose proof (removeOverlaps_apart _ _ _ _ _ HA HB Hk) as Ha.
    unfold apart, overlaps in Ha. simpl in Ha.
    rewrite H1, H2 in Ha. discriminate.
Qed.

(** A result of the selection, enumerated in any order, is selected whole. *)
Lemma removeOverlaps_fixed m (y : object (@Moment num)) :
  Permutation y (removeOverlaps m) -> Permutation (removeOverlaps y) y.
Proof.
  intro Hy.
  assert (Hkeys : NoDup (keys y)).
  { eapply Permutation_NoDup;
      [apply Permutation_map, Permutation_sym, Hy | apply removeOverlaps_NoDup]. }
  set (clips := arraySort compareClips (map toClip y)).
  assert (Hperm : Permutation clips (map toClip y)) by apply arraySort_Permutation.
  assert (Hk : map (@key num) (map toClip y) = keys y).
  { rewrite map_map. reflexivity. }
  assert (Hnd : NoDup (map (@key num) clips)).
  { eapply Permutation_NoDup;
      [apply Permutation_map, Permutation_sym, Hperm | now rewrite Hk]. }
  assert (Hfop : ForallOrdPairs apart clips).
  { apply FOP_of_NoDup.
    - eapply NoDup_map_inv, Hnd.
    - intros a b Ha Hb Hab.
      eapply Permutation_in in Ha; [|exact Hperm].
      eapply Permutation_in in Hb; [|exact Hperm].
      apply in_map_iff in Ha as [[ka va] [<- Ha]].
      apply in_map_iff in Hb as [[kb vb] [<- Hb]].
      apply (removeOverlaps_apart m).
      + eapply Permutation_in; eauto.
      + eapply Permutation_in; eauto.
      + intros ->. apply Hab.
        assert (va = vb); [|now subst].
        apply (objGet_In _ _ _ Hkeys) in Ha, Hb. congruence. }
  assert (Hproto : ~ In protoKey (map (@key num) clips)).
  { intro Hin.
    eapply Permutation_in in Hin; [|apply Permutation_map, Hperm].
    rewrite Hk in Hin. apply (removeOverlaps_no_proto m).
    eapply Permutation_in; [apply Permutation_map, Hy | exact Hin]. }
  unfold removeOverlaps. fold clips. unfold select.
  rewrite selectLoop_all by exact Hfop. simpl.
  rewrite (toResult_perm clips Hnd Hproto).
  rewrite Hperm, map_map.
  erewrite map_ext; [rewrite map_id; reflexivity |].
  intro kv. apply entryOf_toClip.
Qed.

(** C7. Running [removeOverlaps] on its own result changes nothing: the second
    result has the same entries as the first, so every key is bound to the
    same candidate in both (and is absent from both otherwise). *)
Theorem removeOverlaps_idempotent m :
  Permutation (removeOverlaps (removeOverlaps m)) (removeOverlaps m)
  /\ forall k, objGet (removeOverlaps (removeOverlaps m)) k
               = objGet (removeOverlaps m) k.
Proof.
  assert (Hperm : Permutation (removeOverlaps (removeOverlaps m)) (removeOverlaps m)).
  { apply (removeOverlaps_fixed m). reflexivity. }
  split; trivial.
  intro k. apply objGet_Permutation; trivial. apply removeOverlaps_NoDup.
Qed.

End Selection.

(** The cases the specification lists, in binary64: [b] overlaps the better
    [a] and goes; clips that share less than half a second stay together; of
    two clips with the same score that overlap, the longer stays. *)
Example removeOverlaps_drops_the_overlap :
  let moment (a b s : binary64) : @Moment binary64 :=
    {| start := a; end_ := b; titulo := None; score := Some s |} in
  keys (removeOverlaps [(lit "a", moment 0 50 90); (lit "b", moment 40 90 80);
                        (lit "c", moment 100 150 70)]%float)
  = [lit "a"; lit "c"].
Proof. vm_compute. reflexivity. Qed.

Example removeOverlaps_tolerates_a_touch :
  let moment (a b s : binary64) : @Moment binary64 :=
    {| start := a; end_ := b; titulo := None; score := Some s |} in
  keys (removeOverlaps [(lit "a", moment 0 50 90);
                        (lit "b", moment 49.6 100 80)]%float)
  = [lit "a"; lit "b"].
Proof. vm_compute. reflexivity. Qed.

Example removeOverlaps_prefers_the_longer :
  let moment (a b s : binary64) : @Moment binary64 :=
    {| start := a; end_ := b; titulo := None; score := Some s |} in
  keys (removeOverlaps [(lit "short", moment 10 50 80);
                        (lit "long", moment 0 60 80)]%float)
  = [lit "long"].
Proof. vm_compute. reflexivity. Qed.

(** ** The greedy selection: what becomes of the clips *)

Section SelectionFate.
Context {num : Type} `{JsNumber num}.
Implicit Types (c : @Clip num) (st : @Selection num).

Lemma selectStep_keeps st c c' :
  In c (selectedClips st) -> In c (selectedClips (selectStep st c')).
Proof.
  unfold selectStep. destruct (negb _); cbn [selectedClips]; trivial.
  intro Hc. apply in_or_app. now left.
Qed.

Lemma selectLoop_keeps clips st c :
  In c (selectedClips st) -> In c (selectedClips (fold_left selectStep clips st)).
Proof.
  revert st; induction clips as [|c' clips IH]; intros st Hc; trivial.
  cbn [fold_left]. now apply IH, selectStep_keeps.
Qed.

(** Every clip ends up selected or rejected, once. *)
Lemma selectLoop_Permutation clips st :
  Permutation
    (selectedClips (fold_left selectStep clips st)
     ++ rejectedClips (fold_left selectStep clips st))
    (selectedClips st ++ rejectedClips st ++ clips).
Proof.
  revert st; induction clips as [|c clips IH]; intro st; cbn [fold_left].
  - now rewrite app_nil_r.
  - rewrite IH. unfold selectStep.
    destruct (negb _); cbn [selectedClips rejectedClips].
    + rewrite <- app_assoc. apply Permutation_app_head.
      change (c :: clips) with ([c] ++ clips). rewrite !app_assoc.
      apply Permutation_app_tail, Permutation_app_comm.
    + rewrite <- app_assoc. reflexivity.
Qed.

Lemma select_first_selected c clips :
  In c (selectedClips (select (c :: clips))).
Proof.
  unfold select. cbn [fold_left]. apply selectLoop_keeps.
  unfold selectStep. cbn. now left.
Qed.

Lemma select_keys_NoDup (clips : list (@Clip num)) :
  NoDup (map (@key num) clips) ->
  NoDup (map (@key num) (selectedClips (select clips))).
Proof.
  intro Hnd.
  pose proof (selectLoop_Permutation clips
                {| selectedClips := []; rejectedClips := [] |}) as Hperm.
  cbn [selectedClips rejectedClips app] in Hperm. fold (select clips) in Hperm.
  apply (Permutation_map (@key num)) in Hperm. rewrite map_app in Hperm.
  apply Permutation_sym in Hperm.
  apply (Permutation_NoDup Hperm) in Hnd.
  now apply NoDup_app_remove_r in Hnd.
Qed.

Lemma selected_keys_no_proto (clips : list (@Clip num)) :
  ~ In protoKey (map (@key num) clips) ->
  ~ In protoKey (map (@key num) (selectedClips (select clips))).
Proof.
  intros Hproto Hin. apply Hproto. apply in_map_iff in Hin.
  destruct Hin as [c [Hk Hc]]. apply selectLoop_In in Hc as [[]|Hc].
  rewrite <- Hk. now apply in_map.
Qed.

Lemma sorted_keys (m : object (@Moment num)) :
  Permutation (map (@key num) (arraySort compareClips (map toClip m))) (keys m).
Proof.
  rewrite (arraySort_Permutation compareClips (map toClip m)), map_map.
  reflexivity.
Qed.

(** With distinct keys other than [__proto__], the entries of the result
    are the clips the loop selected. *)
Lemma removeOverlaps_Permutation (m : object (@Moment num)) :
  NoDup (keys m) -> ~ In protoKey (keys m) ->
  Permutation (removeOverlaps m)
    (map entryOf (selectedClips (select (arraySort compareClips (map toClip m))))).
Proof.
  intros Hkeys Hproto. unfold removeOverlaps. apply toResult_perm.
  - apply select_keys_NoDup.
    eapply Permutation_NoDup; [apply Permutation_sym, sorted_keys | exact Hkeys].
  - apply selected_keys_no_proto. intro Hin. apply Hproto.
    eapply Permutation_in; [apply sorted_keys | exact Hin].
Qed.

End SelectionFate.

(** ** The greedy selection: the best score survives *)

Section BestScore.
Context {num : Type} `{JsNumber num}.
Implicit Types (c x y : @Clip num) (m : object (@Moment num)).

(** What the argument needs of the order on the numbers that are not NaN;
    both models have it. *)
Hypothesis zero_number : isNaN (zero : num) = false.
Hypothesis leb_refl : forall a : num, isNaN a = false -> leb a a = true.
Hypothesis leb_trans :
  forall a b c : num, leb a b = true -> leb b c = true -> leb a c = true.
Hypothesis order_by_sub :
  forall a b : num, isNaN a = false -> isNaN b = false ->
    if neqb b a
    then if gtb (sub b a) zero then leb a b = true else leb b a = true
    else leb a b = true /\ leb b a = true.
Hypothesis ltb_number :
  forall a b : num, ltb a b = true -> isNaN a = false /\ isNaN b = false.
Hypothesis leb_not_gt : forall a b : num, leb a b = true -> ltb b a = false.

Lemma scoreOr0_number c : isNaN (scoreOr0 c) = false.
Proof.
  unfold scoreOr0. destruct (score (val c)) as [s|]; trivial.
  destruct (truthy s) eqn:Hs; trivial.
  unfold truthy in Hs. apply negb_true_iff, orb_false_iff in Hs. tauto.
Qed.

Lemma score_leb_refl c : leb (scoreOr0 c) (scoreOr0 c) = true.
Proof. apply leb_refl, scoreOr0_number. Qed.

(** The comparator decides by score first. *)
Lemma compareClips_order x y :
  if gtb (compareClips x y) zero
  then leb (scoreOr0 x) (scoreOr0 y) = true
  else leb (scoreOr0 y) (scoreOr0 x) = true.
Proof.
  unfold compareClips.
  pose proof (order_by_sub (scoreOr0 x) (scoreOr0 y)
                (scoreOr0_number x) (scoreOr0_number y)) as Hord.
  destruct (neqb (scoreOr0 y) (scoreOr0 x)).
  - exact Hord.
  - destruct (gtb _ _); tauto.
Qed.

Lemma insertSorted_headMax x (sorted : list (@Clip num)) :
  headMax sorted -> headMax (insertSorted compareClips x sorted).
Proof.
  destruct sorted as [|y rest]; cbn [insertSorted headMax].
  - intros _. repeat constructor. apply score_leb_refl.
  - intro Hy. pose proof (compareClips_order x y) as Hxy.
    destruct (gtb (compareClips x y) zero); cbn [headMax].
    + inversion Hy as [|? ? Hyy Hrest]; subst.
      constructor; trivial.
      eapply Permutation_Forall;
        [apply Permutation_sym, insertSorted_Permutation |].
      now constructor.
    + constructor; [apply score_leb_refl |].
      eapply Forall_impl; [|exact Hy].
      intros c Hc. cbn beta in Hc. now apply leb_trans with (scoreOr0 y).
Qed.

Lemma arraySort_headMax (clips : list (@Clip num)) :
  headMax (arraySort compareClips clips).
Proof.
  induction clips as [|x clips IH]; cbn [arraySort fold_right]; [exact I|].
  now apply insertSorted_headMax.
Qed.

(** The score the code reads, [score || 0], and the score given are the
    same number, but for the sign of a zero. *)
Lemma scoreOr0_given c :
  scoreIsNumber (val c) ->
  leb (givenScore (val c)) (scoreOr0 c) = true
  /\ leb (scoreOr0 c) (givenScore (val c)) = true.
Proof.
  unfold scoreIsNumber, givenScore, scoreOr0.
  destruct (score (val c)) as [s|].
  - intro Hs. destruct (truthy s) eqn:Ht.
    + split; now apply leb_refl.
    + unfold truthy in Ht. rewrite Hs, orb_false_r in Ht.
      apply negb_false_iff in Ht.
      pose proof (order_by_sub zero s zero_number Hs) as Hord.
      unfold neqb in Hord. rewrite Ht in Hord. cbn [negb] in Hord. tauto.
  - intros _. split; now apply leb_refl.
Qed.

Lemma givenScore_number (v : @Moment num) :
  isNaN (givenScore v) = false -> scoreIsNumber v.
Proof.
  unfold givenScore, scoreIsNumber. now destruct (score v).
Qed.

Lemma givenScore_order (c c' : @Clip num) :
  leb (scoreOr0 c') (scoreOr0 c) = true ->
  ltb (givenScore (val c)) (givenScore (val c')) = false
  /\ (scoreIsNumber (val c) -> scoreIsNumber (val c') ->
      leb (givenScore (val c')) (givenScore (val c)) = true).
Proof.
  intro Hle.
  assert (Hnum : scoreIsNumber (val c) -> scoreIsNumber (val c') ->
                 leb (givenScore (val c')) (givenScore (val c)) = true).
  { intros Hc Hc'.
    destruct (scoreOr0_given c Hc) as [_ H1].
    destruct (scoreOr0_given c' Hc') as [H2 _].
    eapply leb_trans; [exact H2|]. eapply leb_trans; [exact Hle | exact H1]. }
  split; [|exact Hnum].
  destruct (ltb (givenScore (val c)) (givenScore (val c'))) eqn:Hlt; trivial.
  destruct (ltb_number _ _ Hlt) as [Hc Hc'].
  apply givenScore_number in Hc, Hc'.
  rewrite (leb_not_gt _ _ (Hnum Hc Hc')) in Hlt. discriminate.
Qed.

Lemma removeOverlaps_best m :
  NoDup (keys m) -> ~ In protoKey (keys m) -> m <> [] ->
  removeOverlaps m <> []
  /\ exists k v,
       In (k, v) (removeOverlaps m)
       /\ forall k' v', In (k', v') m ->
            ltb (givenScore v) (givenScore v') = false
            /\ (scoreIsNumber v -> scoreIsNumber v' ->
                leb (givenScore v') (givenScore v) = true).
Proof.
  intros Hkeys Hproto Hne.
  pose proof (removeOverlaps_Permutation m Hkeys Hproto) as Hres.
  set (clips := arraySort compareClips (map toClip m)) in *.
  assert (Hperm : Permutation clips (map toClip m)) by apply arraySort_Permutation.
  assert (Hmax : headMax clips) by apply arraySort_headMax.
  destruct clips as [|c0 rest] eqn:Hclips.
  { apply Permutation_nil in Hperm. destruct m; [congruence | discriminate]. }
  assert (Hsel : In c0 (selectedClips (select (c0 :: rest)))).
  { apply select_first_selected. }
  assert (Hin : In (entryOf c0) (removeOverlaps m)).
  { eapply Permutation_in; [apply Permutation_sym, Hres | now apply in_map]. }
  split.
  - intro Hnil. rewrite Hnil in Hin. contradiction.
  - exists (key c0), (val c0). split; [exact Hin|].
    intros k' v' Hkv. cbn [headMax] in Hmax.
    rewrite Forall_forall in Hmax.
    assert (Hc : In (toClip (k', v')) (c0 :: rest)).
    { eapply Permutation_in; [apply Permutation_sym, Hperm | now apply in_map]. }
    apply Hmax in Hc. apply (givenScore_order c0 (toClip (k', v'))). exact Hc.
Qed.

End BestScore.

Lemma exact_leb_refl (a : exact) : isNaN a = false -> leb a a = true.
Proof.
  intro Ha. apply exact_isNaN_false in Ha as [q ->]. apply exact_leb_le. lra.
Qed.

Lemma exact_leb_trans (a b c : exact) :
  leb a b = true -> leb b c = true -> leb a c = true.
Proof.
  destruct a as [|p], b as [|q], c as [|r]; try discriminate.
  rewrite !exact_leb_le. lra.
Qed.

Lemma exact_order_by_sub (a b : exact) :
  isNaN a = false -> isNaN b = false ->
  if neqb b a
  then if gtb (sub b a) zero then leb a b = true else leb b a = true
  else leb a b = true /\ leb b a = true.
Proof.
  intros Ha Hb. apply exact_isNaN_false in Ha as [p ->].
  apply exact_isNaN_false in Hb as [q ->]. unfold neqb, gtb.
  destruct (eqb (ENum q) (ENum p)) eqn:Heq; cbn [negb].
  - apply exact_eqb_eq in Heq. rewrite !exact_leb_le. lra.
  - rewrite exact_sub_num.
    destruct (ltb zero _) eqn:Hlt.
    + apply exact_ltb_lt in Hlt. rewrite Qred_correct in Hlt.
      apply exact_leb_le. unfold inject_Z in Hlt. lra.
    + apply exact_ltb_ge in Hlt. rewrite Qred_correct in Hlt.
      apply exact_leb_le. unfold inject_Z in Hlt. lra.
Qed.

Lemma exact_leb_not_gt (a b : exact) : leb a b = true -> ltb b a = false.
Proof.
  destruct a as [|p], b as [|q]; try discriminate.
  now rewrite exact_leb_le, exact_ltb_ge.
Qed.

Lemma SFleb_not_gt (x y : spec_float) : SFleb x y = true -> SFltb y x = false.
Proof.
  unfold SFleb, SFltb. rewrite (SFcompare_antisym x y).
  destruct (SFcompare x y) as [[]|]; cbn; trivial; discriminate.
Qed.

Lemma bin_leb_not_gt (a b : binary64) : leb a b = true -> ltb b a = false.
Proof.
  cbn [leb ltb binary64_number]. rewrite leb_spec, ltb_spec. apply SFleb_not_gt.
Qed.

Lemma SFcompare_refl (x : spec_float) : notNaN x -> SFcompare x x = Some Eq.
Proof.
  destruct x as [s|s| |s m e]; cbn; try tauto; intros _.
  - now destruct s.
  - destruct s; now rewrite Z.compare_refl, ?Pos.compare_cont_refl.
Qed.

Lemma bin_isNaN_false (a : binary64) : notNaN (Prim2SF a) -> isNaN a = false.
Proof.
  intro Ha. unfold isNaN. cbn [eqb binary64_number].
  rewrite eqb_spec. unfold SFeqb. now rewrite SFcompare_refl.
Qed.

Lemma bin_ltb_number (a b : binary64) :
  ltb a b = true -> isNaN a = false /\ isNaN b = false.
Proof.
  cbn [ltb binary64_number]. rewrite ltb_spec. intro Hlt.
  apply SFltb_notNaN in Hlt as [Ha Hb]. split; now apply bin_isNaN_false.
Qed.

(** The assignment of line 116 creates no property for the key [__proto__]:
    a candidate under that key is selected and then lost, and a map that
    holds nothing else comes back empty. *)
Lemma removeOverlaps_proto_counterexample :
  let m_float : object (@Moment binary64) :=
    [(lit "__proto__",
      {| start := 0; end_ := 50; titulo := None; score := Some 90 |})]%float in
  let m_exact : object (@Moment exact) :=
    [(lit "__proto__",
      {| start := of_Z 0; end_ := of_Z 50; titulo := None;
         score := Some (of_Z 90) |})] in
  (NoDup (keys m_float) /\ m_float <> [] /\ removeOverlaps m_float = [])
  /\ (NoDup (keys m_exact) /\ m_exact <> [] /\ removeOverlaps m_exact = []).
Proof.
  cbv zeta. split; (split; [repeat constructor; intros [] | split;
    [discriminate | vm_compute; reflexivity]]).
Qed.

(** C10. From a non-empty candidate object whose keys are distinct (as the
    keys of an object are) and none of which is [__proto__], [removeOverlaps]
    returns a non-empty object, and among its entries is a candidate whose
    score, a missing one read as 0, no candidate of the input exceeds, and
    which is at least the score of every candidate when the scores are
    numbers: the first clip in sorted order is always accepted.  This is so
    in binary64 and in exact arithmetic. *)
Theorem removeOverlaps_keeps_a_best :
  (forall m : object (@Moment binary64),
      NoDup (keys m) -> ~ In (lit "__proto__") (keys m) -> m <> [] ->
      removeOverlaps m <> []
      /\ exists k v,
           In (k, v) (removeOverlaps m)
           /\ forall k' v', In (k', v') m ->
                ltb (givenScore v) (givenScore v') = false
                /\ (scoreIsNumber v -> scoreIsNumber v' ->
                    leb (givenScore v') (givenScore v) = true))
  /\ (forall m : object (@Moment exact),
         NoDup (keys m) -> ~ In (lit "__proto__") (keys m) -> m <> [] ->
         removeOverlaps m <> []
         /\ exists k v,
              In (k, v) (removeOverlaps m)
              /\ forall k' v', In (k', v') m ->
                   ltb (givenScore v) (givenScore v') = false
                   /\ (scoreIsNumber v -> scoreIsNumber v' ->
                       leb (givenScore v') (givenScore v) = true)).
Proof.
  split; intros m.
  - apply (removeOverlaps_best (num := binary64)).
    + reflexivity.
    + apply bin_leb_refl.
    + apply bin_leb_trans.
    + apply bin_order_by_sub.
    + apply bin_ltb_number.
    + apply bin_leb_not_gt.
  - apply (removeOverlaps_best (num := exact)).
    + reflexivity.
    + apply exact_leb_refl.
    + apply exact_leb_trans.
    + apply exact_order_by_sub.
    + apply exact_ltb_num.
    + apply exact_leb_not_gt.
Qed.

Lemma removeOverlaps_keeps_a_best_witness :
  let moment (a b s : binary64) : @Moment binary64 :=
    {| start := a; end_ := b; titulo := None; score := Some s |} in
  let m := [(lit "a", moment 0 50 90); (lit "b", moment 40 90 80);
            (lit "c", moment 100 150 70)]%float in
  removeOverlaps m <> []
  /\ exists k v,
       In (k, v) (removeOverlaps m)
       /\ forall k' v', In (k', v') m ->
            ltb (givenScore v) (givenScore v') = false
            /\ (scoreIsNumber v -> scoreIsNumber v' ->
                leb (givenScore v') (givenScore v) = true).
Proof.
  cbv zeta. apply (proj1 removeOverlaps_keeps_a_best).
  - repeat constructor; cbn; intuition discriminate.
  - cbn. intuition discriminate.
  - discriminate.
Defined.

(** ** The silence inversion *)

(** The two decimals of the program, in binary64. *)
Example literals_binary64 :
  lit_0_1 (num := binary64) = 0.1%float /\ lit_0_5 (num := binary64) = 0.5%float.
Proof. split; reflexivity. Qed.

(** C4. Silences (5,6) and (10,12) in 20 seconds, with the padding and the
    merge threshold of the program (0.1 both), give the three sound segments
    (0, 5.1), (5.9, 10.1), (11.9, 20) in this order: in binary64 the decimals
    are the doubles JavaScript writes that way, in exact arithmetic they are
    the fractions; [removeSilence] goes on to cut exactly these. *)
Theorem soundSegments_example :
  soundSegments (num := binary64)
    [ {| seg_start := 5; seg_end := 6 |}; {| seg_start := 10; seg_end := 12 |} ]%float
    20%float
  = [ {| seg_start := 0; seg_end := 5.1 |};
      {| seg_start := 5.9; seg_end := 10.1 |};
      {| seg_start := 11.9; seg_end := 20 |} ]%float
  /\ soundSegments (num := exact)
       [ {| seg_start := of_Z 5; seg_end := of_Z 6 |};
         {| seg_start := of_Z 10; seg_end := of_Z 12 |} ]
       (of_Z 20)
     = [ {| seg_start := ENum 0; seg_end := ENum (51 # 10) |};
         {| seg_start := ENum (59 # 10); seg_end := ENum (101 # 10) |};
         {| seg_start := ENum (119 # 10); seg_end := ENum 20 |} ]
  /\ removeSilence (num := binary64)
       [ {| seg_start := 5; seg_end := 6 |}; {| seg_start := 10; seg_end := 12 |} ]%float
       20%float
     = CutSegments [ {| seg_start := 0; seg_end := 5.1 |};
                     {| seg_start := 5.9; seg_end := 10.1 |};
                     {| seg_start := 11.9; seg_end := 20 |} ]%float.
Proof. repeat split; vm_compute; reflexivity. Qed.

(** The inversion run on no silence at all: one segment, which starts one
    padding before 0. *)
Lemma soundSegments_empty_counterexample :
  ltb (num := binary64) zero 20%float = true
  /\ soundSegments (num := binary64) [] 20%float
     = [ {| seg_start := (-0.1)%float; seg_end := 20%float |} ]
  /\ soundSegments (num := binary64) [] 20%float
     <> [ {| seg_start := 0%float; seg_end := 20%float |} ]
  /\ soundSegments (num := exact) [] (of_Z 20)
     <> [ {| seg_start := of_Z 0; seg_end := of_Z 20 |} ]
  /\ removeSilence (num := binary64) [] 20%float = CopyOriginal.
Proof.
  repeat split; try (vm_compute; reflexivity).
  - intro Heq.
    apply (f_equal (fun l => match l with
                             | s :: _ => ltb (seg_start s) zero
                             | [] => false
                             end)) in Heq.
    vm_compute in Heq. discriminate.
  - vm_compute. discriminate.
Qed.

(** C5, as the program has it.  With no silence interval [removeSilence]
    computes no segments: it copies the input file whole.  The inversion of
    lines 146-161, which it then never reaches, would give for a positive
    duration exactly one segment, and that segment ends at [totalDuration]. *)
Theorem no_silence_copies_the_file :
  forall (num : Type) (N : JsNumber num) (totalDuration : num),
    removeSilence [] totalDuration = CopyOriginal
    /\ (ltb zero totalDuration = true ->
        exists segment,
          soundSegments [] totalDuration = [segment]
          /\ seg_end segment = totalDuration).
Proof.
  intros num N totalDuration. split; [reflexivity |].
  intro Hpos. unfold soundSegments. cbn [fold_left lastEnd sounds].
  rewrite Hpos. eexists. split; reflexivity.
Qed.

Lemma no_silence_copies_the_file_witness :
  exists segment,
    soundSegments (num := binary64) [] 20%float = [segment]
    /\ seg_end segment = 20%float.
Proof.
  apply (proj2 (no_silence_copies_the_file binary64 _ 20%float)).
  vm_compute. reflexivity.
Defined.

(** ** File names and list files *)

Lemma isAlnum_underscore (c : ascii) :
  isAlnum (if isAlnum c then c else "_"%char) = true
  \/ (if isAlnum c then c else "_"%char) = "_"%char.
Proof. destruct (isAlnum c) eqn:E; [left; exact E | right; reflexivity]. Qed.

(** X1. The title that process_local.js puts in a clip's file name is never
    empty and never longer than 30 code units, and it consists of ASCII
    letters, digits and underscores only, whatever the model gave as title
    (nothing, the empty string or any text). *)
Theorem safeTitle_is_a_safe_name (num : Type) (moment : @Moment num) :
  (1 <= length (safeTitle moment) <= 30)%nat
  /\ Forall (fun c => isAlnum c = true \/ c = "_"%char) (safeTitle moment).
Proof.
  unfold safeTitle.
  set (title := match titulo moment with Some (c :: t) => c :: t | _ => lit "clip" end).
  assert (Hlen : (1 <= length title)%nat).
  { subst title. destruct (titulo moment) as [[|c t]|]; cbn; lia. }
  split.
  - rewrite length_firstn, length_map. lia.
  - apply Forall_forall. intros c Hc.
    apply (In_nth_error) in Hc. destruct Hc as [n Hn].
    assert (Hin : In c (map (fun c => if isAlnum c then c else "_"%char) title)).
    { apply nth_error_In in Hn. revert Hn.
      generalize (map (fun c0 => if isAlnum c0 then c0 else "_"%char) title) as l.
      intros l. revert l. generalize 30%nat as k.
      induction k as [|k IH]; intros [|x l]; cbn; try tauto.
      intros [->|Hin]; [now left | right; now apply IH]. }
    apply in_map_iff in Hin. destruct Hin as [c0 [<- _]].
    apply isAlnum_underscore.
Qed.

Lemma toSlashes_clean (p : str) : ~ In backslash (toSlashes p).
Proof.
  unfold toSlashes. intros Hin. apply in_map_iff in Hin.
  destruct Hin as [c [Hc _]].
  destruct (Ascii.eqb c backslash) eqn:E.
  - discriminate.
  - subst c. now rewrite Ascii.eqb_refl in E.
Qed.

Lemma toSlashes_LF (p : str) : ~ In LF p -> ~ In LF (toSlashes p).
Proof.
  unfold toSlashes. intros Hp Hin. apply in_map_iff in Hin.
  destruct Hin as [c [Hc Hin]].
  destruct (Ascii.eqb c backslash); [discriminate | subst c; contradiction].
Qed.

Lemma concatLine_clean (p : str) : ~ In backslash (concatLine p).
Proof.
  unfold concatLine. intros Hin.
  apply in_app_or in Hin. destruct Hin as [Hin|Hin].
  - vm_compute in Hin. intuition discriminate.
  - apply in_app_or in Hin. destruct Hin as [Hin|Hin].
    + now apply toSlashes_clean in Hin.
    + vm_compute in Hin. intuition discriminate.
Qed.

Lemma concatLine_LF (p : str) : ~ In LF p -> ~ In LF (concatLine p).
Proof.
  unfold concatLine. intros Hp Hin.
  apply in_app_or in Hin. destruct Hin as [Hin|Hin].
  - vm_compute in Hin. intuition discriminate.
  - apply in_app_or in Hin. destruct Hin as [Hin|Hin].
    + now apply toSlashes_LF in Hin.
    + vm_compute in Hin. intuition discriminate.
Qed.

Lemma join_unit_clean (c sep : ascii) (lines : list str) :
  c <> sep -> Forall (fun l => ~ In c l) lines -> ~ In c (join [sep] lines).
Proof.
  intros Hsep Hall. induction Hall as [|l lines Hl Hall IH]; [now cbn|].
  destruct lines as [|l' lines]; [exact Hl|].
  change (join [sep] (l :: l' :: lines)) with (l ++ [sep] ++ join [sep] (l' :: lines)).
  intros Hin. apply in_app_or in Hin. destruct Hin as [Hin|[Hin|Hin]].
  - contradiction.
  - congruence.
  - contradiction.
Qed.

Lemma split_join_unit (c : ascii) (lines : list str) :
  lines <> [] -> Forall (fun l => ~ In c l) lines ->
  split [c] (join [c] lines) = lines.
Proof.
  intros Hne Hall. induction Hall as [|l lines Hl Hall IH]; [contradiction|].
  destruct lines as [|l' lines].
  - cbn [join]. now apply split_unit_absent.
  - change (join [c] (l :: l' :: lines)) with (l ++ c :: join [c] (l' :: lines)).
    rewrite split_unit_app by exact Hl. f_equal. apply IH. discriminate.
Qed.

(** X2. How concatenateVideos settles, the list file being writable and
    ffmpeg closing with the code given.  It rejects with "No videos to
    concatenate" exactly when the list of videos is empty, and then writes
    no list file; for a list that is not empty it resolves, with the output
    path, exactly when ffmpeg closes with code 0, and rejects with "FFmpeg
    concat failed" and the code otherwise.  The list file it writes holds
    no backslash, and when no path contains a line feed it reads back, line
    by line, as one [file '...'] line for each video, in the order given. *)
Theorem concatenateVideos_settles (videoPaths : list str) (outputPath : str)
                                  (code : option Z) :
  (settled (concatenateVideos videoPaths outputPath code) = NoVideos
   <-> videoPaths = [])
  /\ (settled (concatenateVideos videoPaths outputPath code)
      = Concatenated outputPath
      <-> videoPaths <> [] /\ code = Some 0%Z)
  /\ (settled (concatenateVideos videoPaths outputPath code) = ConcatFailed code
      <-> videoPaths <> [] /\ code <> Some 0%Z)
  /\ (listFile (concatenateVideos videoPaths outputPath code) = None
      <-> videoPaths = [])
  /\ (forall content,
        listFile (concatenateVideos videoPaths outputPath code) = Some content ->
        ~ In backslash content
        /\ (Forall (fun p => ~ In LF p) videoPaths ->
            split [LF] content = map concatLine videoPaths)).
Proof.
  unfold concatenateVideos. destruct videoPaths as [|p ps].
  - cbn [length Nat.eqb settled listFile].
    repeat split; try tauto; try discriminate; intros []; congruence.
  - cbn [length Nat.eqb settled listFile].
    split; [|split; [|split; [|split]]].
    + split; [|discriminate]. destruct code as [[| |]|]; discriminate.
    + split.
      * destruct code as [[| |]|]; try discriminate. intros _. now split.
      * intros [_ ->]. reflexivity.
    + split.
      * destruct code as [[| |]|]; try discriminate; intros _;
          (split; discriminate).
      * intros [_ Hcode]. destruct code as [[| |]|]; congruence.
    + split; discriminate.
    + intros content Hc.
      assert (E : content = fileContent (p :: ps)) by congruence.
      rewrite E. clear Hc E. unfold fileContent. split.
      * apply join_unit_clean; [discriminate|].
        apply Forall_forall. intros l Hl. apply in_map_iff in Hl.
        destruct Hl as [q [<- _]]. apply concatLine_clean.
      * intros Hlf. apply split_join_unit; [discriminate|].
        apply Forall_forall. intros l Hl. apply in_map_iff in Hl.
        destruct Hl as [q [<- Hq]]. apply concatLine_LF.
        rewrite Forall_forall in Hlf. now apply Hlf.
Qed.

(** ** parseTimestamp: when it throws *)

Lemma split_unit_cons (c a : ascii) (s : str) :
  split [c] (a :: s)
  = if Ascii.eqb c a then [] :: split [c] s
    else match split [c] s with
         | piece :: pieces => (a :: piece) :: pieces
         | [] => [[a]]
         end.
Proof.
  unfold split. cbn [split_from]. rewrite startsWith_unit.
  destruct (Ascii.eqb c a); reflexivity.
Qed.

Lemma split_unit_length (c : ascii) (s : str) :
  length (split [c] s) = S (count_occ ascii_dec s c).
Proof.
  induction s as [|a s IH]; [reflexivity|].
  rewrite split_unit_cons. cbn [count_occ].
  destruct (ascii_dec a c) as [->|Hne].
  - rewrite Ascii.eqb_refl. cbn [length]. now rewrite IH.
  - destruct (Ascii.eqb c a) eqn:E.
    + apply Ascii.eqb_eq in E. congruence.
    + destruct (split [c] s) as [|piece pieces]; cbn [length] in *; lia.
Qed.

(** X3. parseTimestamp throws, a TypeError, exactly when it is given a
    non-empty string with fewer than two colons; for [undefined], the empty
    string and every string with two colons or more it returns a number. *)
Theorem parseTimestamp_throws_iff (num : Type) (N : JsNumber num)
                                  (timeStr : maybe_str) :
  parseTimestamp (num := num) timeStr = Throw TypeError
  <-> exists t, timeStr = Some t /\ t <> []
                /\ (count_occ ascii_dec t ":"%char < 2)%nat.
Proof.
  destruct timeStr as [t|].
  2:{ split; [discriminate | intros [t [Ht _]]; discriminate]. }
  destruct t as [|c t].
  { split; [discriminate | intros [t [Ht [Hne _]]]].
    injection Ht as <-. contradiction. }
  rewrite parseTimestamp_nonempty by discriminate.
  pose proof (split_unit_length ":"%char (c :: t)) as Hlen.
  change (split [":"%char] (c :: t)) with (split (lit ":") (c :: t)) in Hlen.
  destruct (nth_error (split (lit ":") (c :: t)) 2) as [s|] eqn:E.
  - assert (Hlt : (2 < length (split (lit ":") (c :: t)))%nat).
    { apply nth_error_Some. congruence. }
    split; [discriminate|]. intros [t' [Ht [_ Hcount]]].
    injection Ht as <-. lia.
  - apply nth_error_None in E.
    split; [|reflexivity]. intros _. exists (c :: t).
    split; [reflexivity|]. split; [discriminate | lia].
Qed.

(** ** The subtitle parser, block by block *)

Lemma split_nonempty (sep s : str) : split sep s <> [].
Proof.
  unfold split. destruct s as [|c s]; [discriminate|].
  cbn [split_from]. destruct (startsWith sep (c :: s)); [discriminate|].
  destruct (split_from sep 0 s); discriminate.
Qed.

Lemma join_cons (sep p : str) (rest : list str) :
  rest <> [] -> join sep (p :: rest) = p ++ sep ++ join sep rest.
Proof. destruct rest; [contradiction | reflexivity]. Qed.

Lemma join_split_bounded (sep : str) (n : nat) (s : str) :
  sep <> [] -> (length s <= n)%nat -> join sep (split sep s) = s.
Proof.
  intro Hsep. revert s; induction n as [|n IH]; intros s Hlen.
  - destruct s; [reflexivity | cbn in Hlen; lia].
  - destruct s as [|c s]; [reflexivity|].
    cbn [length] in Hlen. unfold split at 1. cbn [split_from].
    destruct (startsWith sep (c :: s)) eqn:Hstart.
    + rewrite split_from_skip.
      rewrite join_cons by apply split_nonempty.
      rewrite IH by (rewrite length_skipn; lia).
      rewrite (startsWith_skipn _ _ Hstart) at 1.
      destruct sep as [|a sep]; [contradiction|].
      cbn [length skipn app Nat.sub]. rewrite ?Nat.sub_0_r. reflexivity.
    + fold (split sep s). specialize (IH s ltac:(lia)).
      destruct (split sep s) as [|piece pieces] eqn:Hsplit.
      * now apply split_nonempty in Hsplit.
      * destruct pieces as [|piece' pieces].
        -- cbn [join] in *. now rewrite IH.
        -- rewrite join_cons in IH by discriminate.
           rewrite join_cons by discriminate.
           cbn [app]. now rewrite IH.
Qed.

(** Splitting and joining again gives the text back. *)
Lemma join_split (sep s : str) : sep <> [] -> join sep (split sep s) = s.
Proof. intro Hsep. now apply (join_split_bounded sep (length s)). Qed.

Lemma join_app (sep : str) (a b : list str) :
  a <> [] -> b <> [] -> join sep (a ++ b) = join sep a ++ sep ++ join sep b.
Proof.
  intros Ha Hb. induction a as [|p a IH]; [contradiction|].
  destruct a as [|q a].
  - cbn [app]. now rewrite join_cons.
  - change ((p :: q :: a) ++ b) with (p :: ((q :: a) ++ b)).
    rewrite join_cons by discriminate. rewrite IH by discriminate.
    rewrite (join_cons sep p (q :: a)) by discriminate.
    now rewrite <- !app_assoc.
Qed.

Lemma join_concat (sep : str) (ls : list (list str)) :
  Forall (fun l => l <> []) ls ->
  join sep (map (join sep) ls) = join sep (concat ls).
Proof.
  intro Hall. induction Hall as [|l ls Hl Hall IH]; [reflexivity|].
  destruct ls as [|l' ls].
  - cbn [map join concat]. now rewrite app_nil_r.
  - change (map (join sep) (l :: l' :: ls))
      with (join sep l :: map (join sep) (l' :: ls)).
    rewrite join_cons by discriminate. rewrite IH.
    change (concat (l :: l' :: ls)) with (l ++ concat (l' :: ls)).
    rewrite join_app; trivial.
    inversion Hall as [|? ? Hl' _]; subst.
    cbn [concat]. destruct l'; [contradiction | discriminate].
Qed.

Lemma stampSeconds_fields (num : Type) (N : JsNumber num) (hh mm ss mmm : str) :
  fieldsOfMatch hh mm ss mmm ->
  stampSeconds (num := num) (timestampOf hh mm ss mmm) = secondsOf hh mm ss mmm.
Proof.
  intros ((_ & Hh) & (_ & Hm) & (_ & Hs) & (_ & Hms)).
  destruct hh as [|h1 [|h2 [|]]]; try discriminate.
  destruct mm as [|m1 [|m2 [|]]]; try discriminate.
  destruct ss as [|s1 [|s2 [|]]]; try discriminate.
  destruct mmm as [|x1 [|x2 [|x3 [|]]]]; try discriminate.
  reflexivity.
Qed.

Section BlockReader.
Context {num : Type} `{JsNumber num}.

Lemma parseBlock_readBlock (entries : list (@Entry num)) (block : str) :
  parseBlock entries block
  = Ok (if hasEntry block then entries ++ [readBlock block] else entries).
Proof.
  destruct (hasEntry block) eqn:Hblock.
  2:{ now apply parseBlock_dropped. }
  unfold parseBlock. fold (hasEntry block). rewrite Hblock.
  unfold readBlock.
  destruct (timeMatch (nth 1 (keptLines block) [])) as [stamp|] eqn:Hmatch;
    [|reflexivity].
  apply timeMatch_fields in Hmatch as (hh & mm & ss & mmm & Hfields & ->).
  rewrite (stampSeconds_fields _ _ _ _ _ _ Hfields).
  destruct Hfields as ((Hh & _) & (Hm & _) & (Hs & _) & (Hms & _)).
  rewrite parseTimestamp_fields by assumption. reflexivity.
Qed.

Lemma parseLoop_readBlock (blocks : list str) (acc : list (@Entry num)) :
  forEachM parseBlock blocks acc
  = Ok (acc ++ map readBlock (filter hasEntry blocks)).
Proof.
  revert acc; induction blocks as [|block blocks IH]; intro acc.
  - cbn. now rewrite app_nil_r.
  - cbn [forEachM filter]. rewrite parseBlock_readBlock. cbn [bind].
    rewrite IH. destruct (hasEntry block); [|reflexivity].
    now rewrite <- app_assoc.
Qed.

Lemma parseSRT_readBlock (srtContent : str) :
  parseSRT srtContent
  = Ok (map readBlock (filter hasEntry (blocksOf srtContent))).
Proof. apply (parseLoop_readBlock (blocksOf srtContent) []). Qed.

Lemma fullBlock_readBlock (blocks : list str) :
  map (@fullBlock num) (map readBlock blocks) = blocks.
Proof. rewrite map_map. cbn [readBlock fullBlock]. apply map_id. Qed.

End BlockReader.

Lemma join_then_sep (sep : str) (parts : list str) :
  parts <> [] -> join sep parts ++ sep = concat (map (fun l => l ++ sep) parts).
Proof.
  induction parts as [|p parts IH]; [contradiction|]. intros _.
  destruct parts as [|q parts].
  - cbn [join map concat]. now rewrite app_nil_r.
  - rewrite join_cons by discriminate.
    change (map (fun l => l ++ sep) (p :: q :: parts))
      with ((p ++ sep) :: map (fun l => l ++ sep) (q :: parts)).
    cbn [concat]. rewrite <- IH by discriminate. now rewrite <- !app_assoc.
Qed.

(** The pattern matches at the head of a line exactly when a start
    timestamp and the arrow stand there. *)
Lemma matchHere_stamp (s : str) :
  matchHere timePattern s = true ->
  exists hh mm ss mmm,
    stampAfter s [] hh mm ss mmm /\ firstn 12 s = timestampOf hh mm ss mmm.
Proof.
  unfold timePattern.
  do 16 (destruct s as [|? s];
         [cbn [matchHere]; rewrite ?andb_false_r; discriminate|]).
  cbn [matchHere]. rewrite !andb_true_iff, !Ascii.eqb_eq.
  intros (D1 & D2 & <- & D3 & D4 & <- & D5 & D6 & <- & D7 & D8 & D9
          & <- & <- & <- & <- & _).
  eexists [_; _], [_; _], [_; _], [_; _; _].
  unfold stampAfter, fieldsOfMatch, numeral. cbn [forallb length firstn].
  rewrite D1, D2, D3, D4, D5, D6, D7, D8, D9.
  repeat split; try discriminate. now exists s.
Qed.

Lemma stamp_matchHere (s hh mm ss mmm : str) :
  stampAfter s [] hh mm ss mmm -> matchHere timePattern s = true.
Proof.
  intros [((Hh & Lh) & (Hm & Lm) & (Hs & Ls) & (Hms & Lms)) [b ->]].
  destruct Hh as [_ Hh], Hm as [_ Hm], Hs as [_ Hs], Hms as [_ Hms].
  destruct hh as [|h1 [|h2 [|]]]; try discriminate.
  destruct mm as [|m1 [|m2 [|]]]; try discriminate.
  destruct ss as [|s1 [|s2 [|]]]; try discriminate.
  destruct mmm as [|x1 [|x2 [|x3 [|]]]]; try discriminate.
  cbn [forallb] in Hh, Hm, Hs, Hms.
  repeat match goal with
         | D : (_ && _)%bool = true |- _ => apply andb_prop in D; destruct D
         end.
  cbn.
  repeat match goal with
         | D : isDigit _ = true |- _ => rewrite D; clear D
         end.
  reflexivity.
Qed.

Lemma stampAfter_cons (c : ascii) (rest a hh mm ss mmm : str) :
  stampAfter (c :: rest) a hh mm ss mmm ->
  stampAfter (c :: rest) [] hh mm ss mmm
  \/ exists a', a = c :: a' /\ stampAfter rest a' hh mm ss mmm.
Proof.
  intros [Hf Hocc]. apply occursAfter_cons in Hocc.
  destruct Hocc as [Hocc|(a' & -> & Hocc)].
  - left. now split.
  - right. exists a'. split; [reflexivity|]. now split.
Qed.

(** [timeLine.match] finds the first start timestamp of the line, or there
    is none. *)
Lemma timeMatch_first (line : str) :
  match timeMatch line with
  | Some group1 =>
      exists hh mm ss mmm,
        group1 = timestampOf hh mm ss mmm /\ firstStamp line hh mm ss mmm
  | None => noStamp line
  end.
Proof.
  induction line as [|c rest IH].
  - cbn. intros a hh mm ss mmm [Hf [b Hb]].
    destruct a; [|discriminate]. cbn [app] in Hb.
    destruct Hf as ((_ & Lh) & _). destruct hh; discriminate.
  - cbn [timeMatch]. destruct (matchHere timePattern (c :: rest)) eqn:Hhere.
    + apply matchHere_stamp in Hhere as (hh & mm & ss & mmm & Hst & Hg).
      exists hh, mm, ss, mmm. split; trivial. exists []. split; trivial.
      intros. cbn [length]. lia.
    + assert (Hnot : forall hh mm ss mmm, ~ stampAfter (c :: rest) [] hh mm ss mmm).
      { intros hh mm ss mmm Hst. apply stamp_matchHere in Hst. congruence. }
      destruct (timeMatch rest) as [group1|].
      * destruct IH as (hh & mm & ss & mmm & Hg & a & Hst & Hfirst).
        exists hh, mm, ss, mmm. split; trivial. exists (c :: a). split.
        -- destruct Hst as [Hf [b ->]]. split; trivial. now exists b.
        -- intros a' hh' mm' ss' mmm' Hst'. apply stampAfter_cons in Hst'.
           destruct Hst' as [Hst'|(a'' & -> & Hst')]; [now apply Hnot in Hst'|].
           apply Hfirst in Hst'. cbn [length]. lia.
      * intros a hh mm ss mmm Hst. apply stampAfter_cons in Hst.
        destruct Hst as [Hst|(a' & -> & Hst)]; [now apply Hnot in Hst|].
        now apply IH in Hst.
Qed.

(** Two first timestamps of one line have the same fields. *)
Lemma firstStamp_unique (line hh mm ss mmm hh' mm' ss' mmm' : str) :
  firstStamp line hh mm ss mmm -> firstStamp line hh' mm' ss' mmm' ->
  hh = hh' /\ mm = mm' /\ ss = ss' /\ mmm = mmm'.
Proof.
  intros (a & Hst & Hfirst) (a' & Hst' & Hfirst').
  assert (Hlen : length a = length a').
  { apply Nat.le_antisymm; [eapply Hfirst, Hst' | eapply Hfirst', Hst]. }
  destruct Hst as [((_ & Lh) & (_ & Lm) & (_ & Ls) & (_ & Lms)) [b Hb]].
  destruct Hst' as [((_ & Lh') & (_ & Lm') & (_ & Ls') & (_ & Lms')) [b' Hb']].
  rewrite Hb in Hb'. apply app_same_length in Hb' as [_ E]; trivial.
  destruct hh as [|h1 [|h2 [|]]]; try discriminate.
  destruct mm as [|m1 [|m2 [|]]]; try discriminate.
  destruct ss as [|s1 [|s2 [|]]]; try discriminate.
  destruct mmm as [|x1 [|x2 [|x3 [|]]]]; try discriminate.
  destruct hh' as [|h1' [|h2' [|]]]; try discriminate.
  destruct mm' as [|m1' [|m2' [|]]]; try discriminate.
  destruct ss' as [|s1' [|s2' [|]]]; try discriminate.
  destruct mmm' as [|x1' [|x2' [|x3' [|]]]]; try discriminate.
  cbn in E. injection E as -> -> -> -> -> -> -> -> ->. now repeat split.
Qed.

Section BlockWords.
Context {num : Type} `{JsNumber num}.

Lemma readBlock_readFrom (block : str) :
  hasEntry block = true -> readFrom (readBlock block).
Proof.
  intro Hblock. exists (split [LF] block).
  unfold readBlock. cbn [fullBlock id timeLine text startSeconds].
  rewrite <- keptLines_notBlank.
  unfold hasEntry in Hblock. apply Nat.leb_le in Hblock.
  split; [apply split_pieces; discriminate|].
  destruct (keptLines block) as [|l1 [|l2 [|l3 rest]]];
    cbn [length] in Hblock; try lia.
  cbn [nth nth_error skipn].
  split; [reflexivity|]. split; [reflexivity|]. split.
  { apply join_then_sep. discriminate. }
  pose proof (timeMatch_first l2) as Hmatch.
  destruct (timeMatch l2) as [group1|].
  - destruct Hmatch as (hh & mm & ss & mmm & -> & Hfirst). split.
    + intros hh' mm' ss' mmm' Hfirst'.
      destruct (firstStamp_unique _ _ _ _ _ _ _ _ _ Hfirst Hfirst')
        as (<- & <- & <- & <-).
      apply stampSeconds_fields. destruct Hfirst as (a & [Hf _] & _). exact Hf.
    + intro Hnone. exfalso. destruct Hfirst as (a & Hst & _).
      now apply Hnone in Hst.
  - split; [|reflexivity]. intros hh mm ss mmm (a & Hst & _).
    now apply Hmatch in Hst.
Qed.

End BlockWords.

(** X4. parseSRT never throws, and its entries are, one for each and in
    order, the blocks with at least 3 non-empty lines (the blocks being the
    pieces of the text, line endings normalised, between the empty lines),
    each read on its own: of the non-empty lines of the block the first is
    the id, the second the time line and the others, a space between each
    and the next, the text; the start is [h*3600 + m*60 + s + ms/1000] of
    the first start timestamp [hh:mm:ss,mmm -->] of the time line, or 0 when
    the time line has none. *)
Theorem parseSRT_reads_each_block (num : Type) (N : JsNumber num)
                                  (srtContent : str) :
  exists (entries : list (@Entry num)) (normal : str) (blocks : list str),
    parseSRT srtContent = Ok entries
    /\ normalized srtContent normal /\ blocksIn normal blocks
    /\ oneForEach threeLines blocks (map (@fullBlock num) entries)
    /\ Forall readFrom entries.
Proof.
  exists (map readBlock (filter hasEntry (blocksOf srtContent))),
         (replaceCRLF srtContent), (blocksOf srtContent).
  destruct (parseSRT_blocks srtContent) as (Hn & Hb & Hone).
  rewrite fullBlock_readBlock.
  repeat split; trivial; [apply parseSRT_readBlock|].
  apply Forall_forall. intros e He. apply in_map_iff in He.
  destruct He as [block [<- Hblock]]. apply filter_In in Hblock.
  now apply readBlock_readFrom.
Qed.

Lemma toCRLF_head (s : str) : startsWith [LF] (toCRLF s) = false.
Proof.
  destruct s as [|c s]; [reflexivity|]. cbn [toCRLF].
  destruct (Ascii.eqb c LF) eqn:E; [reflexivity|].
  rewrite startsWith_unit. rewrite Ascii.eqb_sym. exact E.
Qed.

Lemma replaceCRLF_toCRLF (s : str) : replaceCRLF (toCRLF s) = s.
Proof.
  induction s as [|c s IH]; [reflexivity|]. cbn [toCRLF].
  destruct (Ascii.eqb c LF) eqn:E.
  - apply Ascii.eqb_eq in E. subst c.
    change (replaceCRLF (CR :: LF :: toCRLF s)) with (LF :: replaceCRLF (toCRLF s)).
    now rewrite IH.
  - cbn [replaceCRLF]. rewrite toCRLF_head, andb_false_r. now rewrite IH.
Qed.

Lemma replaceCRLF_noCR (s : str) : ~ In CR s -> replaceCRLF s = s.
Proof.
  induction s as [|c s IH]; [reflexivity|]. intro Hno.
  cbn [replaceCRLF]. destruct (Ascii.eqb c CR) eqn:E.
  - apply Ascii.eqb_eq in E. subst c. exfalso. apply Hno. now left.
  - cbn [andb]. rewrite IH; [reflexivity|]. intro Hin. apply Hno. now right.
Qed.

(** X5. Line ends do not matter to the parser: a text without carriage
    returns gives the same entries when every line feed of it is written as
    carriage return and line feed. *)
Theorem parseSRT_line_ends (num : Type) (N : JsNumber num) (srtContent : str) :
  ~ In CR srtContent ->
  parseSRT (num := num) (toCRLF srtContent) = parseSRT srtContent.
Proof.
  intro Hno. unfold parseSRT, blocksOf.
  rewrite replaceCRLF_toCRLF. now rewrite replaceCRLF_noCR.
Qed.

Lemma parseSRT_line_ends_witness :
  let srt := join [LF] [lit "1"; lit "00:00:01,000 --> 00:00:02,000"; lit "Hello";
                        lit ""; lit "2"; lit "00:01:05,250 --> 00:01:07,000";
                        lit "Bye"] in
  parseSRT (num := binary64) (toCRLF srt) = parseSRT srt.
Proof.
  intro srt. apply parseSRT_line_ends.
  vm_compute. intuition discriminate.
Defined.

Section Excerpts.
Context {num : Type} `{JsNumber num}.

Lemma chunkBySeconds_concat (entries : list (@Entry num)) (w : num) :
  concat (chunkBySeconds entries w) = entries.
Proof.
  unfold chunkBySeconds. now rewrite chunkFlush_concat, chunkLoop_consumed.
Qed.

Lemma chunkBySeconds_nonempty (entries : list (@Entry num)) (w : num) :
  Forall (fun chunk => chunk <> []) (chunkBySeconds entries w).
Proof.
  unfold chunkBySeconds. apply chunkFlush_nonempty, chunkLoop_closed. constructor.
Qed.

Lemma chunkTexts_join (cs : list (list (@Entry num))) :
  Forall (fun chunk => chunk <> []) cs ->
  join [LF; LF] (map chunkText cs)
  = join [LF; LF] (map (@fullBlock num) (concat cs)).
Proof.
  intro Hall. unfold chunkText.
  rewrite <- (map_map (map (@fullBlock num)) (join [LF; LF])).
  rewrite join_concat.
  - now rewrite concat_map.
  - apply Forall_forall. intros l Hl. apply in_map_iff in Hl.
    destruct Hl as [chunk [<- Hchunk]].
    rewrite Forall_forall in Hall. specialize (Hall _ Hchunk).
    destruct chunk; [contradiction | discriminate].
Qed.

Lemma filter_all (f : str -> bool) (l : list str) :
  forallb f l = true -> filter f l = l.
Proof.
  induction l as [|x l IH]; [reflexivity|]. cbn [forallb filter].
  intro Hall. apply andb_prop in Hall. destruct Hall as [-> Hall].
  now rewrite IH.
Qed.

End Excerpts.

(** X6. The excerpts analyzeTranscription sends to the model, put end to end
    with blank lines between them, are the blocks that parsed, in order and
    once each, whatever the window; when every block of the transcript
    parsed they are the transcript itself (with LF line ends). *)
Theorem excerpts_cover_the_parsed_blocks (num : Type) (N : JsNumber num)
    (transcriptionText : str) (durationMinutes : num) :
  exists parsedEntries : list (@Entry num),
    parseSRT transcriptionText = Ok parsedEntries
    /\ let excerpts :=
         map chunkText (chunkSRTByDuration parsedEntries durationMinutes) in
       join [LF; LF] excerpts
       = join [LF; LF] (filter hasEntry (blocksOf transcriptionText))
       /\ (forallb hasEntry (blocksOf transcriptionText) = true ->
           join [LF; LF] excerpts = replaceCRLF transcriptionText).
Proof.
  eexists. split; [apply parseSRT_readBlock|]. cbn zeta.
  assert (E : join [LF; LF]
                (map chunkText
                   (chunkSRTByDuration
                      (map readBlock (filter hasEntry (blocksOf transcriptionText)))
                      durationMinutes))
              = join [LF; LF] (filter hasEntry (blocksOf transcriptionText))).
  { unfold chunkSRTByDuration.
    rewrite chunkTexts_join by apply chunkBySeconds_nonempty.
    now rewrite chunkBySeconds_concat, fullBlock_readBlock. }
  split; [exact E|].
  intro Hall. rewrite E, (filter_all _ _ Hall).
  unfold blocksOf. apply join_split. discriminate.
Qed.

(** ** The greedy selection: why a candidate is dropped *)

Section Rivals.
Context {num : Type} `{JsNumber num}.




Lemma same_key_same_entry (m : object (@Moment num)) k v v' :
  NoDup (keys m) -> In (k, v) m -> In (k, v') m -> v = v'.
Proof.
  intros Hkeys Hv Hv'. apply (objGet_In _ _ _ Hkeys) in Hv, Hv'. congruence.
Qed.

Lemma sorted_keys_NoDup (m : object (@Moment num)) :
  NoDup (keys m) ->
  NoDup (map (@key num) (arraySort compareClips (map toClip m))).
Proof.
  intro Hkeys. eapply Permutation_NoDup.
  - apply Permutation_map, Permutation_sym, arraySort_Permutation.
  - rewrite map_map. exact Hkeys.
Qed.



(** A map whose candidates are apart from one another is kept whole. *)
Lemma removeOverlaps_all (m : object (@Moment num)) :
  NoDup (keys m) -> ~ In protoKey (keys m) ->
  (forall a b, In a m -> In b m -> fst a <> fst b -> ~ overlapping a b) ->
  Permutation (removeOverlaps m)
              (map entryOf (arraySort compareClips (map toClip m))).
Proof.
  intros Hkeys Hproto Hapart.
  rewrite (removeOverlaps_Permutation m Hkeys Hproto).
  apply Permutation_map.
  unfold select. rewrite selectLoop_all; [reflexivity|]. cbn [selectedClips app].
  pose proof (arraySort_Permutation compareClips (map toClip m)) as Hperm.
  apply FOP_of_NoDup.
  - eapply NoDup_map_inv, sorted_keys_NoDup, Hkeys.
  - intros a b Ha Hb Hab.
    eapply Permutation_in in Ha; [|exact Hperm].
    eapply Permutation_in in Hb; [|exact Hperm].
    apply in_map_iff in Ha as [[ka va] [<- Ha]].
    apply in_map_iff in Hb as [[kb vb] [<- Hb]].
    unfold apart.
    destruct (overlaps (toClip (ka, va)) (toClip (kb, vb))) eqn:Hov; [|reflexivity].
    exfalso. apply (Hapart (ka, va) (kb, vb)); trivial.
    cbn [fst]. intros ->. apply Hab.
    now rewrite (same_key_same_entry m kb va vb Hkeys Ha Hb).
Qed.

End Rivals.

(** X7. A map of candidates with distinct keys, none of them [__proto__],
    of which no two overlap (by the test of removeOverlaps) comes back
    whole: the result has the same entries, nothing is dropped.  (Under the
    key [__proto__] the assignment of line 116 stores nothing.) *)
Theorem removeOverlaps_keeps_what_is_apart (num : Type) (N : JsNumber num)
                                           (momentsMap : object (@Moment num)) :
  NoDup (keys momentsMap) -> ~ In (lit "__proto__") (keys momentsMap) ->
  (forall a b, In a momentsMap -> In b momentsMap -> fst a <> fst b ->
               ~ overlapping a b) ->
  Permutation (removeOverlaps momentsMap) momentsMap
  /\ forall k, objGet (removeOverlaps momentsMap) k = objGet momentsMap k.
Proof.
  intros Hkeys Hproto Hapart.
  assert (Hperm : Permutation (removeOverlaps momentsMap) momentsMap).
  { rewrite (removeOverlaps_all momentsMap Hkeys Hproto Hapart).
    rewrite (arraySort_Permutation compareClips (map toClip momentsMap)), map_map.
    erewrite map_ext; [rewrite map_id; reflexivity |].
    intro kv. apply entryOf_toClip. }
  split; [exact Hperm|].
  intro k. apply objGet_Permutation; [apply removeOverlaps_NoDup | exact Hperm].
Qed.

Lemma removeOverlaps_keeps_what_is_apart_witness :
  let moment (a b s : binary64) : @Moment binary64 :=
    {| start := a; end_ := b; titulo := None; score := Some s |} in
  let m := [(lit "a", moment 0 50 70); (lit "b", moment 49.6 100 80);
            (lit "c", moment 100 150 90)]%float in
  Permutation (removeOverlaps m) m
  /\ forall k, objGet (removeOverlaps m) k = objGet m k.
Proof.
  cbv zeta. apply removeOverlaps_keeps_what_is_apart.
  - repeat constructor; cbn; intuition discriminate.
  - cbn. intuition discriminate.
  - intros a b Ha Hb Hab. unfold overlapping.
    cbn [In] in Ha, Hb.
    destruct Ha as [<-|[<-|[<-|[]]]]; destruct Hb as [<-|[<-|[<-|[]]]];
      solve [ exfalso; apply Hab; reflexivity | vm_compute; discriminate ].
Defined.

Section SortedByScore.
Context {num : Type} `{JsNumber num}.

Hypothesis zero_number : isNaN (zero : num) = false.
Hypothesis leb_trans :
  forall a b c : num, leb a b = true -> leb b c = true -> leb a c = true.
Hypothesis order_by_sub :
  forall a b : num, isNaN a = false -> isNaN b = false ->
    if neqb b a
    then if gtb (sub b a) zero then leb a b = true else leb b a = true
    else leb a b = true /\ leb b a = true.





End SortedByScore.



(** ** analyzeTranscription: merging the answers *)

Lemma string_of_uint_digits (d : Decimal.uint) :
  forallb isDigit (lit (DecimalString.NilEmpty.string_of_uint d)) = true.
Proof. induction d; cbn; trivial. Qed.

Lemma decimalOf_digits (i : nat) : forallb isDigit (decimalOf i) = true.
Proof. apply string_of_uint_digits. Qed.

Lemma lit_inj (a b : string) : lit a = lit b -> a = b.
Proof.
  unfold lit. intro E.
  rewrite <- (string_of_list_ascii_of_string a),
          <- (string_of_list_ascii_of_string b).
  now rewrite E.
Qed.

Lemma decimalOf_inj (i j : nat) : decimalOf i = decimalOf j -> i = j.
Proof.
  unfold decimalOf. intro E. apply lit_inj in E.
  apply (f_equal DecimalString.NilEmpty.uint_of_string) in E.
  rewrite !DecimalString.NilEmpty.usu in E. injection E as E.
  apply (f_equal Nat.of_uint) in E.
  now rewrite !DecimalNat.Unsigned.of_to in E.
Qed.

Lemma app_unit_inj (c : ascii) (a b x y : str) :
  ~ In c a -> ~ In c b -> a ++ c :: x = b ++ c :: y -> a = b /\ x = y.
Proof.
  revert b; induction a as [|a0 a IH]; intros [|b0 b] Ha Hb E; cbn [app] in E.
  - injection E as E. now split.
  - injection E as E1 E2. exfalso. apply Hb. left. now symmetry.
  - injection E as E1 E2. exfalso. apply Ha. now left.
  - injection E as E1 E2. subst b0.
    destruct (IH b) as [-> ->]; trivial.
    + intro Hin. apply Ha. now right.
    + intro Hin. apply Hb. now right.
    + now split.
Qed.

(** The keys of line 151 tell the chunk and the model's key apart. *)
Lemma chunkKey_inj (i j : nat) (k k' : str) :
  chunkKey i k = chunkKey j k' -> i = j /\ k = k'.
Proof.
  unfold chunkKey. intro E. apply app_inv_head in E.
  change (lit "_" ++ k) with ("_"%char :: k) in E.
  change (lit "_" ++ k') with ("_"%char :: k') in E.
  apply app_unit_inj in E.
  - destruct E as [E ->]. split; [now apply decimalOf_inj | reflexivity].
  - apply numeral_absent; [reflexivity | apply decimalOf_digits].
  - apply numeral_absent; [reflexivity | apply decimalOf_digits].
Qed.

(** A key of line 151 begins with [chunk]: it is not [__proto__] and not
    an array index. *)
Lemma chunkKey_plain (i : nat) (k : str) : plainKey (chunkKey i k).
Proof.
  change (chunkKey i k)
    with ("c"%char :: (lit "hunk" ++ decimalOf i ++ lit "_" ++ k)).
  split; [discriminate|].
  unfold arrayIndex. cbn [forallb].
  change (isDigit "c"%char) with false. reflexivity.
Qed.

Section Merging.
Context {num : Type} `{JsNumber num}.
Variable analyzeChunk : str -> nat -> object (@Moment num).

Lemma mergeMoments_fresh (i : nat) (acc cm : object (@Moment num)) :
  NoDup (keys acc ++ map (chunkKey i) (keys cm)) ->
  mergeMoments i acc cm
  = acc ++ map (fun kv => (chunkKey i (fst kv), snd kv)) cm.
Proof.
  unfold mergeMoments. revert acc; induction cm as [|[k v] cm IH]; intros acc Hnd.
  - cbn. now rewrite app_nil_r.
  - cbn [fold_left map fst snd keys] in *.
    rewrite objSet_fresh.
    + rewrite IH.
      * now rewrite <- app_assoc.
      * unfold keys. rewrite map_app. cbn [map fst].
        rewrite <- app_assoc. exact Hnd.
    + apply NoDup_remove_2 in Hnd. intro Hin. apply Hnd.
      apply in_or_app. now left.
    + apply chunkKey_plain.
    + apply chunkKey_plain.
Qed.



Lemma mergeMoments_In (i : nat) (acc cm : object (@Moment num)) k v :
  In (k, v) (mergeMoments i acc cm) ->
  In (k, v) acc \/ exists key, In (key, v) cm /\ k = chunkKey i key.
Proof.
  unfold mergeMoments. revert acc; induction cm as [|[k0 v0] cm IH]; intros acc Hin.
  - now left.
  - cbn [fold_left fst snd] in Hin. apply IH in Hin.
    destruct Hin as [Hin|[key [Hin ->]]].
    + apply objSet_In in Hin. destruct Hin as [Hin|Hin]; [now left|].
      injection Hin as -> ->. right. exists k0. split; [now left | reflexivity].
    + right. exists key. split; [now right | reflexivity].
Qed.



Lemma analyzeChunks_In (i : nat) chunks (acc : object (@Moment num)) k v :
  In (k, v) (analyzeChunks analyzeChunk i chunks acc) ->
  In (k, v) acc
  \/ exists n chunk key,
       nth_error chunks n = Some chunk
       /\ In (key, v) (analyzeChunk (chunkText chunk) (i + n))
       /\ k = chunkKey (i + n) key.
Proof.
  revert i acc; induction chunks as [|chunk chunks IH]; intros i acc Hin.
  - now left.
  - cbn [analyzeChunks] in Hin. apply IH in Hin.
    destruct Hin as [Hin|(n & c & key & Hn & Hin & ->)].
    + apply mergeMoments_In in Hin. destruct Hin as [Hin|[key [Hin ->]]].
      * now left.
      * right. exists 0%nat, chunk, key. rewrite Nat.add_0_r. now repeat split.
    + right. exists (S n), c, key.
      rewrite Nat.add_succ_r. now repeat split.
Qed.

Lemma proposals_keys (i : nat) chunks k :
  In k (keys (proposals analyzeChunk i chunks)) ->
  exists j key, (i <= j)%nat /\ k = chunkKey j key.
Proof.
  revert i; induction chunks as [|chunk chunks IH]; intros i Hin; [contradiction|].
  cbn [proposals] in Hin. unfold keys in Hin. rewrite map_app in Hin.
  apply in_app_or in Hin. destruct Hin as [Hin|Hin].
  - unfold renamed in Hin. rewrite map_map in Hin. apply in_map_iff in Hin.
    destruct Hin as [kv [<- _]]. exists i, (fst kv). split; [lia | reflexivity].
  - apply IH in Hin. destruct Hin as (j & key & Hj & ->).
    exists j, key. split; [lia | reflexivity].
Qed.

Hypothesis answers_NoDup : forall t i, NoDup (keys (analyzeChunk t i)).

Lemma renamed_NoDup (i : nat) chunk : NoDup (keys (renamed analyzeChunk i chunk)).
Proof.
  unfold renamed, keys. rewrite map_map. cbn [fst].
  rewrite <- (map_map fst (chunkKey i)).
  apply Finite.Injective_map_NoDup; [|apply answers_NoDup].
  intros k k' E. now apply chunkKey_inj in E.
Qed.

Lemma proposals_NoDup (i : nat) chunks :
  NoDup (keys (proposals analyzeChunk i chunks)).
Proof.
  revert i; induction chunks as [|chunk chunks IH]; intro i; [constructor|].
  cbn [proposals]. unfold keys. rewrite map_app. apply NoDup_app.
  - apply renamed_NoDup.
  - apply IH.
  - intros k Hk Hk'. apply proposals_keys in Hk'.
    destruct Hk' as (j & key & Hj & ->).
    unfold renamed in Hk. rewrite map_map in Hk. apply in_map_iff in Hk.
    destruct Hk as [kv [E _]]. cbn [fst] in E.
    apply chunkKey_inj in E. lia.
Qed.

Lemma analyzeChunks_fresh (i : nat) chunks (acc : object (@Moment num)) :
  NoDup (keys (acc ++ proposals analyzeChunk i chunks)) ->
  analyzeChunks analyzeChunk i chunks acc = acc ++ proposals analyzeChunk i chunks.
Proof.
  revert i acc; induction chunks as [|chunk chunks IH]; intros i acc Hnd.
  - cbn. now rewrite app_nil_r.
  - cbn [analyzeChunks proposals] in *.
    rewrite app_assoc in Hnd.
    rewrite mergeMoments_fresh.
    + rewrite IH; [now rewrite <- app_assoc | exact Hnd].
    + unfold keys in Hnd. rewrite map_app in Hnd. apply NoDup_app_remove_r in Hnd.
      rewrite map_app in Hnd. unfold renamed in Hnd. rewrite map_map in Hnd.
      cbn [fst] in Hnd. unfold keys. now rewrite map_map.
Qed.

End Merging.

(** X9. The keys [chunk<i>_<key>] under which analyzeTranscription merges
    the model's answers never collide: when each answer is an object (its
    keys are distinct), the merged map holds every proposal of every chunk,
    in order, each under a key of its own, and none has overwritten another. *)
Theorem merged_answers_never_collide (num : Type) (N : JsNumber num)
    (analyzeChunk : str -> nat -> object (@Moment num))
    (chunks : list (list (@Entry num))) :
  (forall t i, NoDup (keys (analyzeChunk t i))) ->
  analyzeChunks analyzeChunk 0 chunks [] = proposals analyzeChunk 0 chunks
  /\ NoDup (keys (proposals analyzeChunk 0 chunks))
  /\ forall i j k k', chunkKey i k = chunkKey j k' -> i = j /\ k = k'.
Proof.
  intro Hanswers.
  pose proof (proposals_NoDup analyzeChunk Hanswers 0 chunks) as Hnd.
  split; [|split; [exact Hnd | apply chunkKey_inj]].
  apply (analyzeChunks_fresh analyzeChunk 0 chunks []). exact Hnd.
Qed.

Lemma merged_answers_never_collide_witness :
  let moment (a b : binary64) : @Moment binary64 :=
    {| start := a; end_ := b; titulo := None; score := None |} in
  let entry (x : binary64) : @Entry binary64 :=
    {| id := []; timeLine := []; startSeconds := x; text := []; fullBlock := [] |} in
  let analyzeChunk (t : str) (i : nat) :=
    [(lit "c1", moment 0 30); (lit "c2", moment 40 70)]%float in
  let chunks := [[entry 0]; [entry 800]]%float in
  analyzeChunks analyzeChunk 0 chunks [] = proposals analyzeChunk 0 chunks
  /\ NoDup (keys (proposals analyzeChunk 0 chunks))
  /\ forall i j k k', chunkKey i k = chunkKey j k' -> i = j /\ k = k'.
Proof.
  cbv zeta. apply (merged_answers_never_collide binary64 binary64_number).
  intros t i. repeat constructor; cbn; intuition discriminate.
Defined.

(** X10. What analyzeTranscription returns, given the answers of the model
    (each an object of moments): it does not throw; a transcript of which no
    block parses gives the empty map; every moment returned is a proposal the
    model made for one of the 12-minute chunks, under the key
    [chunk<i>_<key>] of that chunk and proposal; and no two moments returned
    overlap. *)
Theorem analyzeTranscription_result (num : Type) (N : JsNumber num)
    (analyzeChunk : str -> nat -> object (@Moment num))
    (transcriptionText : str) :
  exists parsedEntries finalMoments,
    parseSRT transcriptionText = Ok parsedEntries
    /\ analyzeTranscription analyzeChunk transcriptionText = Ok finalMoments
    /\ (filter hasEntry (blocksOf transcriptionText) = [] -> finalMoments = [])
    /\ (forall k v, In (k, v) finalMoments ->
          exists i chunk key,
            nth_error (chunkSRTByDuration parsedEntries (of_Z 12)) i = Some chunk
            /\ In (key, v) (analyzeChunk (chunkText chunk) i)
            /\ k = chunkKey i key)
    /\ NoDup (keys finalMoments)
    /\ (forall a b, In a finalMoments -> In b finalMoments -> fst a <> fst b ->
                    ~ overlapping a b).
Proof.
  unfold analyzeTranscription. rewrite parseSRT_readBlock. cbn [bind].
  set (parsedEntries := map readBlock (filter hasEntry (blocksOf transcriptionText))).
  exists parsedEntries.
  destruct (length parsedEntries =? 0)%nat eqn:Hlen.
  - exists []. repeat split; trivial; try contradiction. constructor.
  - eexists. split; [reflexivity|]. split; [reflexivity|].
    split; [|split; [|split]].
    + intro Hnone. subst parsedEntries. rewrite Hnone in Hlen. discriminate.
    + intros k v Hin. apply removeOverlaps_In in Hin.
      apply analyzeChunks_In in Hin.
      destruct Hin as [[]|(n & chunk & key & Hn & Hin & ->)].
      exists n, chunk, key. now repeat split.
    + apply removeOverlaps_NoDup.
    + intros [ka va] [kb vb] Ha Hb Hab Hov. cbn [fst] in Hab.
      pose proof (removeOverlaps_apart _ _ _ _ _ Ha Hb Hab) as Hapart.
      unfold apart in Hapart. unfold overlapping in Hov. congruence.
Qed.


(** ** The chunker: a new chunk only when the window is exceeded *)

Section ForcedSplits.
Context {num : Type} `{JsNumber num}.

Hypothesis sentinel_eq : eqb (of_Z (-1)) (of_Z (-1) : num) = true.

Lemma last_cons (A : Type) (x d : A) (l : list A) : last (x :: l) d = last l x.
Proof.
  revert x d; induction l as [|y l IH]; intros x d; [reflexivity|].
  change (last (x :: y :: l) d) with (last (y :: l) d).
  now rewrite (IH y d), (IH y x).
Qed.

Lemma forcedAfter_snoc (w : num) prev cs c :
  forcedAfter w prev (cs ++ [c])
  <-> forcedAfter w prev cs /\ startsAfter w (last cs prev) c.
Proof.
  revert prev; induction cs as [|x cs IH]; intro prev.
  - cbn. tauto.
  - cbn [app forcedAfter]. rewrite IH, last_cons. tauto.
Qed.

Lemma splitsForced_snoc (w : num) cs c :
  cs <> [] ->
  (splitsForced w (cs ++ [c])
   <-> splitsForced w cs /\ startsAfter w (last cs []) c).
Proof.
  destruct cs as [|c0 rest]; [contradiction|]. intros _.
  cbn [app splitsForced]. rewrite forcedAfter_snoc, last_cons. tauto.
Qed.

Lemma startsAfter_grown (w : num) prev first rest e :
  startsAfter w prev (first :: rest) -> startsAfter w prev ((first :: rest) ++ [e]).
Proof. destruct prev; trivial. Qed.

Lemma splitsForced_grown (w : num) cs first rest e :
  splitsForced w (cs ++ [first :: rest]) ->
  splitsForced w (cs ++ [(first :: rest) ++ [e]]).
Proof.
  destruct cs as [|c0 cs]; [trivial|].
  rewrite !splitsForced_snoc by discriminate.
  intros [Hcs Hlast]. split; [exact Hcs|]. now apply startsAfter_grown.
Qed.

Lemma chunkStep_splitInv (w : num) st e :
  eqb (startSeconds e) (of_Z (-1)) = false ->
  splitInv w st -> splitInv w (chunkStep w st e).
Proof.
  intros He Hinv. unfold splitInv in Hinv. unfold chunkStep.
  destruct (currentChunk st) as [|first rest] eqn:Hcur.
  - destruct Hinv as [Hchunks Hstart]. rewrite Hstart, sentinel_eq.
    cbn [length Nat.ltb Nat.leb]. rewrite andb_false_r.
    unfold splitInv. cbn [currentChunk chunks chunkStartTime app].
    rewrite Hchunks. repeat split; trivial.
  - destruct Hinv as (Hstart & Hfirst & Hforced).
    rewrite Hstart, Hfirst. cbn [length Nat.ltb Nat.leb]. rewrite andb_true_r.
    destruct (gtb (sub (startSeconds e) (startSeconds first)) w) eqn:Hgt;
      unfold splitInv; cbn [currentChunk chunks chunkStartTime app].
    + repeat split; trivial.
      apply splitsForced_snoc; [now destruct (chunks st)|].
      split; [exact Hforced|]. rewrite last_last. exact Hgt.
    + repeat split; trivial. now apply splitsForced_grown.
Qed.

Lemma chunkLoop_splitInv (w : num) entries st :
  noSentinel entries -> splitInv w st ->
  splitInv w (fold_left (chunkStep w) entries st).
Proof.
  intro Hall. revert st; induction Hall as [|e entries He Hall IH]; intros st Hinv.
  - exact Hinv.
  - cbn [fold_left]. apply IH. now apply chunkStep_splitInv.
Qed.

Lemma forcedAfter_nth (w : num) cs prev (i : nat) c c' :
  forcedAfter w prev cs ->
  nth_error (prev :: cs) i = Some c -> nth_error (prev :: cs) (S i) = Some c' ->
  startsAfter w c c'.
Proof.
  revert prev i; induction cs as [|x cs IH]; intros prev i Hf Hc Hc'.
  - destruct i as [|[|i]]; discriminate.
  - destruct Hf as [Hx Hf]. destruct i as [|i].
    + cbn in Hc, Hc'. congruence.
    + apply (IH x i); trivial.
Qed.

Lemma chunkBySeconds_forced (entries : list (@Entry num)) (w : num) :
  noSentinel entries ->
  forall i c c',
    nth_error (chunkBySeconds entries w) i = Some c ->
    nth_error (chunkBySeconds entries w) (S i) = Some c' ->
    startsAfter w c c'.
Proof.
  intros Hall i c c'. unfold chunkBySeconds.
  assert (Hinv : splitInv w (fold_left (chunkStep w) entries chunkInit)).
  { apply chunkLoop_splitInv; [exact Hall|]. now split. }
  unfold splitInv in Hinv. unfold chunkFlush.
  destruct (currentChunk (fold_left (chunkStep w) entries chunkInit))
    as [|first rest].
  - destruct Hinv as [-> _]. cbn. destruct i; discriminate.
  - destruct Hinv as (_ & _ & Hforced). cbn [length Nat.ltb Nat.leb].
    destruct (chunks (fold_left (chunkStep w) entries chunkInit) ++ [first :: rest])
      as [|c0 cs]; [destruct i; discriminate|].
    now apply forcedAfter_nth.
Qed.

End ForcedSplits.

(** X12. chunkSRTByDuration starts a new chunk only when it has to: when no
    entry starts at -1 (the value the function keeps for "no chunk open"),
    the first entry of every chunk but the first starts more than the window
    after the first entry of the chunk before it. *)
Theorem chunks_split_only_when_forced :
  (forall (entries : list (@Entry binary64)) (durationMinutes : binary64),
      noSentinel entries ->
      forall i c c',
        nth_error (chunkSRTByDuration entries durationMinutes) i = Some c ->
        nth_error (chunkSRTByDuration entries durationMinutes) (S i) = Some c' ->
        startsAfter (mul durationMinutes (of_Z 60)) c c')
  /\ (forall (entries : list (@Entry exact)) (durationMinutes : exact),
         noSentinel entries ->
         forall i c c',
           nth_error (chunkSRTByDuration entries durationMinutes) i = Some c ->
           nth_error (chunkSRTByDuration entries durationMinutes) (S i) = Some c' ->
           startsAfter (mul durationMinutes (of_Z 60)) c c').
Proof.
  split; intros entries durationMinutes; unfold chunkSRTByDuration.
  - apply (chunkBySeconds_forced bin_sentinel_eq).
  - apply (chunkBySeconds_forced exact_sentinel_eq).
Qed.

Lemma chunks_split_only_when_forced_witness :
  let entry (x : binary64) : @Entry binary64 :=
    {| id := []; timeLine := []; startSeconds := x; text := []; fullBlock := [] |} in
  startsAfter (mul 10%float (of_Z 60)) [entry 0; entry 600]%float
              [entry 601]%float.
Proof.
  cbv zeta.
  apply (proj1 chunks_split_only_when_forced
           [ {| id := []; timeLine := []; startSeconds := 0%float; text := [];
                fullBlock := [] |};
             {| id := []; timeLine := []; startSeconds := 600%float; text := [];
                fullBlock := [] |};
             {| id := []; timeLine := []; startSeconds := 601%float; text := [];
                fullBlock := [] |};
             {| id := []; timeLine := []; startSeconds := 1300%float; text := [];
                fullBlock := [] |} ]
           10%float) with (i := 0%nat).
  - repeat constructor.
  - reflexivity.
  - reflexivity.
Defined.

(** ** The silence inversion: the segments stay inside the video *)

Lemma invertLoop_length (num : Type) (N : JsNumber num) (t : num)
    (silences : list (@Segment num)) (st : @InvertState num) :
  (length (sounds (fold_left (invertStep t) silences st))
   <= length (sounds st) + length silences)%nat.
Proof.
  revert st; induction silences as [|s silences IH]; intro st; cbn [fold_left length].
  - lia.
  - specialize (IH (invertStep t st s)).
    assert (Hstep : (length (sounds (invertStep t st s))
                     <= S (length (sounds st)))%nat).
    { unfold invertStep. cbn [sounds].
      destruct (gtb (sub (seg_start s) (lastEnd st)) lit_0_1);
        rewrite ?length_app; cbn [length]; lia. }
    lia.
Qed.

Lemma soundSegments_length (num : Type) (N : JsNumber num)
    (silences : list (@Segment num)) (t : num) :
  (length (soundSegments silences t) <= S (length silences))%nat.
Proof.
  unfold soundSegments.
  pose proof (invertLoop_length num N t silences
                {| sounds := []; lastEnd := zero |}) as Hlen.
  cbn [sounds length] in Hlen.
  destruct (ltb _ t); rewrite ?length_app; cbn [length]; lia.
Qed.

Section SoundBounds.
Context {num : Type} `{JsNumber num}.

Hypothesis ltb_leb : forall a b : num, ltb a b = true -> leb a b = true.
Hypothesis leb_total :
  forall a b : num, isNaN a = false -> isNaN b = false ->
                    ltb a b = false -> leb b a = true.
Hypothesis leb_refl : forall a : num, isNaN a = false -> leb a a = true.
Hypothesis finite_number : forall a : num, isFinite a = true -> isNaN a = false.
Hypothesis finite_add :
  forall a b : num, isFinite a = true -> isFinite b = true -> isNaN (add a b) = false.
Hypothesis finite_sub :
  forall a b : num, isFinite a = true -> isFinite b = true -> isNaN (sub a b) = false.
Hypothesis zero_finite : isFinite (zero : num) = true.
Hypothesis padding_finite : isFinite (PADDING : num) = true.

Lemma Math_max_zero (x : num) :
  isNaN x = false -> leb zero (Math_max zero x) = true.
Proof.
  intro Hx. unfold Math_max.
  rewrite (finite_number _ zero_finite), Hx. cbn [orb].
  destruct (ltb zero x) eqn:H0x; [now apply ltb_leb|].
  destruct (ltb x zero) eqn:Hx0.
  - apply leb_refl, finite_number, zero_finite.
  - destruct (ltb (div one zero) zero).
    + apply leb_total; trivial. apply finite_number, zero_finite.
    + apply leb_refl, finite_number, zero_finite.
Qed.

Lemma Math_min_total (t y : num) :
  isNaN t = false -> isNaN y = false -> leb (Math_min t y) t = true.
Proof.
  intros Ht Hy. unfold Math_min. rewrite Ht, Hy. cbn [orb].
  destruct (ltb t y) eqn:Hty; [now apply leb_refl|].
  destruct (ltb y t) eqn:Hyt; [now apply ltb_leb|].
  destruct (ltb (div one t) zero).
  - now apply leb_refl.
  - now apply leb_total.
Qed.

Lemma invertStep_inside (t : num) st s :
  isNaN t = false -> finiteSegment s ->
  isFinite (lastEnd st) = true ->
  Forall (fun g => startsInside g /\ endsInside t g) (sounds st) ->
  isFinite (lastEnd (invertStep t st s)) = true
  /\ Forall (fun g => startsInside g /\ endsInside t g) (sounds (invertStep t st s)).
Proof.
  intros Ht [Hs1 Hs2] Hlast Hall. unfold invertStep. cbn [lastEnd sounds].
  split; [exact Hs2|].
  destruct (gtb (sub (seg_start s) (lastEnd st)) lit_0_1); [|exact Hall].
  apply Forall_app. split; [exact Hall|]. constructor; [|constructor].
  unfold startsInside, endsInside. cbn [seg_start seg_end]. split.
  - apply Math_max_zero. now apply finite_sub.
  - apply Math_min_total; [exact Ht | now apply finite_add].
Qed.

Lemma invertLoop_inside (t : num) silences st :
  isNaN t = false -> Forall finiteSegment silences ->
  isFinite (lastEnd st) = true ->
  Forall (fun g => startsInside g /\ endsInside t g) (sounds st) ->
  Forall (fun g => startsInside g /\ endsInside t g)
         (sounds (fold_left (invertStep t) silences st)).
Proof.
  intros Ht Hall. revert st.
  induction Hall as [|s silences Hs Hall IH]; intros st Hlast Hst; [exact Hst|].
  cbn [fold_left].
  destruct (invertStep_inside t st s Ht Hs Hlast Hst) as [Hlast' Hst'].
  now apply IH.
Qed.

Lemma Forall_removelast (A : Type) (P : A -> Prop) (l : list A) :
  Forall P l -> Forall P (removelast l).
Proof.
  induction 1 as [|x l Hx Hl IH]; [constructor|].
  cbn [removelast]. destruct l; [constructor | now constructor].
Qed.

Lemma soundSegments_inside (silences : list (@Segment num)) (t : num) :
  isNaN t = false -> Forall finiteSegment silences ->
  Forall (endsInside t) (soundSegments silences t)
  /\ Forall startsInside (removelast (soundSegments silences t)).
Proof.
  intros Ht Hall. unfold soundSegments.
  set (st := fold_left (invertStep t) silences {| sounds := []; lastEnd := zero |}).
  assert (Hst : Forall (fun g => startsInside g /\ endsInside t g) (sounds st)).
  { apply invertLoop_inside; trivial; constructor. }
  assert (Hends : Forall (endsInside t) (sounds st)).
  { eapply Forall_impl; [|exact Hst]. now intros g [_ Hg]. }
  assert (Hstarts : Forall startsInside (sounds st)).
  { eapply Forall_impl; [|exact Hst]. now intros g [Hg _]. }
  destruct (ltb (lastEnd st) t).
  - split.
    + apply Forall_app. split; [exact Hends|]. constructor; [|constructor].
      unfold endsInside. cbn [seg_end]. now apply leb_refl.
    + now rewrite removelast_last.
  - split; [exact Hends | now apply Forall_removelast].
Qed.

End SoundBounds.

Lemma SFadd_finite_notNaN (x y : spec_float) :
  finiteSF x -> finiteSF y -> notNaN (SFadd prec emax x y).
Proof.
  destruct x as [s|s| |s m e], y as [s'|s'| |s' m' e']; cbn [finiteSF]; try tauto;
    intros _ _; try exact I.
  - cbn. destruct s; destruct s'; exact I.
  - cbn [SFadd]. apply binary_normalize_notNaN.
Qed.

Lemma bin_ltb_leb (a b : binary64) : ltb a b = true -> leb a b = true.
Proof.
  cbn [ltb leb binary64_number]. rewrite ltb_spec, leb_spec.
  unfold SFltb, SFleb. now destruct (SFcompare _ _) as [[]|].
Qed.

Lemma bin_leb_total (a b : binary64) :
  isNaN a = false -> isNaN b = false -> ltb a b = false -> leb b a = true.
Proof.
  intros Ha Hb. apply bin_notNaN in Ha, Hb.
  cbn [ltb leb binary64_number]. rewrite ltb_spec, leb_spec.
  now apply SFleb_total.
Qed.

Lemma bin_finite_number (a : binary64) : isFinite a = true -> isNaN a = false.
Proof.
  intro Ha. apply bin_isFinite in Ha. apply bin_isNaN_false.
  now destruct (Prim2SF a).
Qed.

Lemma bin_finite_add (a b : binary64) :
  isFinite a = true -> isFinite b = true -> isNaN (add a b) = false.
Proof.
  intros Ha Hb. apply bin_isFinite in Ha, Hb. apply bin_isNaN_false.
  cbn [add binary64_number]. rewrite add_spec. now apply SFadd_finite_notNaN.
Qed.

Lemma bin_finite_sub (a b : binary64) :
  isFinite a = true -> isFinite b = true -> isNaN (sub a b) = false.
Proof.
  intros Ha Hb. apply bin_isFinite in Ha, Hb. apply bin_isNaN_false.
  cbn [sub binary64_number]. rewrite sub_spec. now apply SFsub_finite_notNaN.
Qed.

Lemma exact_ltb_leb (a b : exact) : ltb a b = true -> leb a b = true.
Proof.
  destruct a as [|x], b as [|y]; try discriminate.
  rewrite exact_ltb_lt, exact_leb_le. apply Qlt_le_weak.
Qed.

Lemma exact_leb_total (a b : exact) :
  isNaN a = false -> isNaN b = false -> ltb a b = false -> leb b a = true.
Proof.
  destruct a as [|x], b as [|y]; try discriminate. intros _ _.
  now rewrite exact_ltb_ge, exact_leb_le.
Qed.

Lemma exact_finite_number (a : exact) : isFinite a = true -> isNaN a = false.
Proof. intro Ha. apply exact_isFinite_iff in Ha as [q ->]. apply exact_isNaN_num. Qed.

Lemma exact_finite_add (a b : exact) :
  isFinite a = true -> isFinite b = true -> isNaN (add a b) = false.
Proof.
  intros Ha Hb. apply exact_isFinite_iff in Ha as [x ->].
  apply exact_isFinite_iff in Hb as [y ->]. apply exact_isNaN_num.
Qed.

Lemma exact_finite_sub (a b : exact) :
  isFinite a = true -> isFinite b = true -> isNaN (sub a b) = false.
Proof.
  intros Ha Hb. apply exact_isFinite_iff in Ha as [x ->].
  apply exact_isFinite_iff in Hb as [y ->]. apply exact_isNaN_num.
Qed.

(** X13. The sound segments stay inside the video: when the silences have
    finite ends and the total duration is a number, every sound segment ends
    at the total duration or before, and every segment but the last starts at
    0 or later (the last may be the trailing one, whose start is not
    clamped).  There is at most one sound segment for each silence, and one
    more. *)
Theorem soundSegments_stay_inside :
  (forall (silences : list (@Segment binary64)) (totalDuration : binary64),
      isNaN totalDuration = false -> Forall finiteSegment silences ->
      Forall (endsInside totalDuration) (soundSegments silences totalDuration)
      /\ Forall startsInside (removelast (soundSegments silences totalDuration))
      /\ (length (soundSegments silences totalDuration)
          <= S (length silences))%nat)
  /\ (forall (silences : list (@Segment exact)) (totalDuration : exact),
         isNaN totalDuration = false -> Forall finiteSegment silences ->
         Forall (endsInside totalDuration) (soundSegments silences totalDuration)
         /\ Forall startsInside (removelast (soundSegments silences totalDuration))
         /\ (length (soundSegments silences totalDuration)
             <= S (length silences))%nat).
Proof.
  split; intros silences totalDuration Hnum Hfin.
  - destruct (soundSegments_inside bin_ltb_leb bin_leb_total bin_leb_refl
                bin_finite_number bin_finite_add bin_finite_sub
                eq_refl eq_refl silences totalDuration Hnum Hfin) as [He Hs].
    repeat split; trivial. apply soundSegments_length.
  - destruct (soundSegments_inside exact_ltb_leb exact_leb_total exact_leb_refl
                exact_finite_number exact_finite_add exact_finite_sub
                eq_refl eq_refl silences totalDuration Hnum Hfin) as [He Hs].
    repeat split; trivial. apply soundSegments_length.
Qed.

Lemma soundSegments_stay_inside_witness :
  let silences :=
    [ {| seg_start := 5; seg_end := 6 |}; {| seg_start := 10; seg_end := 12 |} ]%float in
  Forall (endsInside 20%float) (soundSegments silences 20%float)
  /\ Forall startsInside (removelast (soundSegments silences 20%float))
  /\ (length (soundSegments silences 20%float) <= S (length silences))%nat.
Proof.
  cbv zeta. apply (proj1 soundSegments_stay_inside).
  - reflexivity.
  - repeat constructor.
Defined.

(** ** The silences in ffmpeg's report *)

Lemma takeWhile_forallb (p : ascii -> bool) (s : str) :
  forallb p (takeWhile p s) = true.
Proof.
  induction s as [|c s IH]; [reflexivity|]. cbn [takeWhile].
  destruct (p c) eqn:E; [|reflexivity]. cbn [forallb]. now rewrite E, IH.
Qed.

Lemma execAll_groups (label : str) (skip : nat) (s : str) :
  Forall (fun group1 => group1 <> [] /\ forallb isNumberUnit group1 = true)
         (execAll label skip s).
Proof.
  revert skip; induction s as [|c s IH]; intro skip; [constructor|].
  cbn [execAll]. destruct skip as [|k]; [|apply IH].
  destruct (startsWith label (c :: s)); [|apply IH].
  destruct (takeWhile isNumberUnit (skipn (length label) (c :: s)))
    as [|d group1] eqn:E; [apply IH|].
  constructor; [|apply IH]. split; [discriminate|].
  rewrite <- E. apply takeWhile_forallb.
Qed.

Section Pairing.
Context {num : Type} `{JsNumber num}.
Variable parseFloat : str -> num.

Lemma skipn_nth_error (A : Type) (l : list A) (i : nat) :
  skipn i l = match nth_error l i with
              | Some x => x :: skipn (S i) l
              | None => []
              end.
Proof.
  revert i; induction l as [|x l IH]; intros [|i]; try reflexivity.
  cbn [skipn nth_error]. rewrite IH. now destruct (nth_error l i).
Qed.

Lemma pairLoop_combine (starts : list num) (ends : list str)
                       (acc : list (@Segment num)) (i : nat) :
  fst (fold_left (pairStep parseFloat starts) ends (acc, i))
  = acc ++ map (fun p => {| seg_start := fst p; seg_end := parseFloat (snd p) |})
               (combine (skipn i starts) ends).
Proof.
  revert acc i; induction ends as [|e ends IH]; intros acc i.
  - cbn [fold_left fst]. rewrite combine_nil, app_nil_r. reflexivity.
  - cbn [fold_left pairStep]. rewrite IH, (skipn_nth_error _ starts i).
    destruct (nth_error starts i) as [s|] eqn:E.
    + cbn [combine map fst snd]. now rewrite <- app_assoc.
    + cbn [combine map]. rewrite (skipn_nth_error _ starts (S i)).
      assert (E' : nth_error starts (S i) = None).
      { apply nth_error_None. apply nth_error_None in E. lia. }
      rewrite E'. reflexivity.
Qed.

Lemma combine_map_l (A B C : Type) (f : A -> B) (l : list A) (l' : list C) :
  combine (map f l) l' = map (fun p => (f (fst p), snd p)) (combine l l').
Proof.
  revert l'; induction l as [|x l IH]; intros [|y l']; try reflexivity.
  cbn [map combine fst snd]. now rewrite IH.
Qed.

Lemma getSilenceSegments_combine (output : str) :
  getSilenceSegments parseFloat 0 output
  = Some (map (fun p => {| seg_start := parseFloat (fst p);
                           seg_end := parseFloat (snd p) |})
              (combine (execAll (lit "silence_start: ") 0 output)
                       (execAll (lit "silence_end: ") 0 output))).
Proof.
  unfold getSilenceSegments. cbn [Z.eqb negb].
  rewrite pairLoop_combine. cbn [skipn app].
  now rewrite combine_map_l, map_map.
Qed.

End Pairing.

(** X14. How removeSilence reads the silences off ffmpeg's report: it
    rejects exactly when the exit code is not 0; otherwise the i-th silence
    runs from the i-th [silence_start: ] match to the i-th [silence_end: ]
    match, so there are as many silences as the shorter of the two lists of
    matches has and the matches beyond that are ignored.  Each match that is
    read as a number is a non-empty run of digits and dots. *)
Theorem silences_pair_starts_with_ends (num : Type) (N : JsNumber num)
    (parseFloat : str -> num) (code : Z) (output : str) :
  let starts := execAll (lit "silence_start: ") 0 output in
  let ends := execAll (lit "silence_end: ") 0 output in
  (getSilenceSegments parseFloat code output = None <-> code <> 0%Z)
  /\ (forall silences,
        getSilenceSegments parseFloat code output = Some silences ->
        silences
        = map (fun p => {| seg_start := parseFloat (fst p);
                           seg_end := parseFloat (snd p) |})
              (combine starts ends)
        /\ length silences = Nat.min (length starts) (length ends))
  /\ Forall (fun group1 => group1 <> [] /\ forallb isNumberUnit group1 = true)
            (starts ++ ends).
Proof.
  cbv zeta. split; [|split].
  - unfold getSilenceSegments. destruct (Z.eqb_spec code 0) as [->|Hne]; cbn [negb].
    + split; [discriminate | intro Hne; now contradiction Hne].
    + split; trivial.
  - intros silences. destruct (Z.eqb_spec code 0) as [->|Hne].
    + rewrite getSilenceSegments_combine. intro E.
      assert (E' : silences
                   = map (fun p => {| seg_start := parseFloat (fst p);
                                      seg_end := parseFloat (snd p) |})
                         (combine (execAll (lit "silence_start: ") 0 output)
                                  (execAll (lit "silence_end: ") 0 output)))
        by congruence.
      split; [exact E'|]. rewrite E', length_map. apply length_combine.
    + unfold getSilenceSegments. apply Z.eqb_neq in Hne. rewrite Hne.
      discriminate.
  - apply Forall_app. split; apply execAll_groups.
Qed.

(** ** server.js: the clips of the response *)

Section Clips.
Context {num : Type} `{JsNumber num}.
Variable baseName : str.
Variable existsSync : nat -> str -> bool.
Variable processVideo : nat -> @Render num -> bool.

Lemma outputPathOf_inj (k k' : str) :
  outputPathOf baseName k = outputPathOf baseName k' -> k = k'.
Proof.
  unfold outputPathOf. intro E.
  apply app_inv_head in E. apply app_inv_head in E. apply app_inv_head in E.
  now apply app_inv_tail in E.
Qed.

Lemma clipLoop_done (m : object (@Moment num)) (es : object (@Moment num))
    (i : nat) (pc : list ProcessedClip) (rs rs' : list Render) clips :
  NoDup (keys m) -> incl es m ->
  clipLoop baseName existsSync processVideo m i (keys es) pc rs = (rs', Some clips) ->
  clips = pc ++ map (clipOf baseName) es
  /\ rs' = rs ++ map (renderOf baseName) (missingFrom baseName existsSync i es).
Proof.
  intros Hnd. revert i pc rs.
  induction es as [|[k v] es IH]; intros i pc rs Hincl Hloop.
  - cbn in Hloop. injection Hloop as <- <-. now rewrite !app_nil_r.
  - cbn [keys map fst clipLoop missingFrom] in *.
    assert (Hget : objGet m k = Some v).
    { apply objGet_In; [exact Hnd | apply Hincl; now left]. }
    assert (Hincl' : incl es m).
    { intros x Hx. apply Hincl. now right. }
    rewrite Hget in Hloop.
    destruct (existsSync i (outputPathOf baseName k)).
    + apply IH in Hloop; trivial. destruct Hloop as [-> ->].
      split; [|reflexivity]. now rewrite <- app_assoc.
    + destruct (processVideo i _); [|discriminate].
      apply IH in Hloop; trivial. destruct Hloop as [-> ->].
      cbn [map]. now rewrite <- !app_assoc.
Qed.

End Clips.

(** X15. The response of processVideoPipeline lists every moment: when the
    loop over the moments ends without an exception, the clips are the
    moments in the order of their keys, each with its key as name and
    [output/<base>_<key>.mp4] as path, whether the file was found on disk or
    rendered now; processVideo was called for the moments whose file was
    missing, once each and in that order, with the moment's start and end;
    and two different keys never share an output path. *)
Theorem every_moment_is_reported (num : Type) (N : JsNumber num)
    (baseName : str) (existsSync : nat -> str -> bool)
    (processVideo : nat -> @Render num -> bool)
    (viralMoments : object (@Moment num)) :
  NoDup (keys viralMoments) ->
  (forall renders clips,
      processClips baseName existsSync processVideo viralMoments
      = (renders, Some clips) ->
      clips = map (clipOf baseName) viralMoments
      /\ renders = map (renderOf baseName)
                       (missingFrom baseName existsSync 0 viralMoments))
  /\ (forall k k', outputPathOf baseName k = outputPathOf baseName k' -> k = k').
Proof.
  intro Hnd. split; [|apply outputPathOf_inj].
  intros renders clips Hloop. unfold processClips in Hloop.
  apply clipLoop_done in Hloop; [exact Hloop | exact Hnd | apply incl_refl].
Qed.

Lemma every_moment_is_reported_witness :
  let moment (a b : binary64) : @Moment binary64 :=
    {| start := a; end_ := b; titulo := None; score := None |} in
  let viralMoments := [(lit "chunk0_c1", moment 0 30); (lit "chunk0_c2", moment 40 70)]%float in
  let existsSync (i : nat) (p : str) := Nat.eqb i 0 in
  let processVideo (i : nat) (r : @Render binary64) := true in
  (forall renders clips,
      processClips (lit "talk") existsSync processVideo viralMoments
      = (renders, Some clips) ->
      clips = map (clipOf (lit "talk")) viralMoments
      /\ renders = map (renderOf (lit "talk"))
                       (missingFrom (lit "talk") existsSync 0 viralMoments))
  /\ (forall k k', outputPathOf (lit "talk") k = outputPathOf (lit "talk") k' -> k = k').
Proof.
  cbv zeta. apply (every_moment_is_reported binary64 binary64_number).
  repeat constructor; cbn; intuition discriminate.
Defined.

(** ** The chunker: every entry within the window of its chunk *)

Section ChunkWindow.
Context {num : Type} `{JsNumber num}.

Hypothesis sentinel_eq : eqb (of_Z (-1)) (of_Z (-1) : num) = true.
Hypothesis finite_sub_self :
  forall a w : num, ltb zero w = true -> isFinite a = true -> leb (sub a a) w = true.
Hypothesis finite_not_gt_le :
  forall a b w : num, isFinite a = true -> isFinite b = true -> ltb zero w = true ->
                      gtb (sub a b) w = false -> leb (sub a b) w = true.

Lemma allWithin_single (w : num) (e : @Entry num) :
  ltb zero w = true -> isFinite (startSeconds e) = true -> allWithin w [e].
Proof.
  intros Hw He. cbn [allWithin]. constructor; [|constructor].
  now apply finite_sub_self.
Qed.

Lemma chunkStep_withinInv (w : num) st e :
  ltb zero w = true ->
  isFinite (startSeconds e) = true ->
  eqb (startSeconds e) (of_Z (-1)) = false ->
  withinInv w st -> withinInv w (chunkStep w st e).
Proof.
  intros Hw He Hsent [Hclosed Hopen]. unfold chunkStep.
  destruct (currentChunk st) as [|first rest] eqn:Hcur.
  - rewrite Hopen, sentinel_eq.
    cbn [length Nat.ltb Nat.leb]. rewrite andb_false_r.
    split; cbn [chunks currentChunk chunkStartTime app]; trivial.
    repeat split; trivial. now apply allWithin_single.
  - destruct Hopen as [Hstart [Hnum [Hfirst Hall]]].
    rewrite Hstart, Hfirst. cbn [length Nat.ltb Nat.leb]. rewrite andb_true_r.
    destruct (gtb _ _) eqn:Hgt.
    + split; cbn [chunks currentChunk chunkStartTime].
      * apply Forall_app; split; trivial. constructor; [exact Hall | constructor].
      * repeat split; trivial. now apply allWithin_single.
    + split; cbn [chunks currentChunk chunkStartTime]; trivial.
      cbn [app]. repeat split; trivial.
      cbn [allWithin] in *. change (first :: rest ++ [e]) with ((first :: rest) ++ [e]).
      apply Forall_app; split; [exact Hall|]. constructor; [|constructor].
      now apply finite_not_gt_le.
Qed.

Lemma chunkLoop_withinInv (w : num) entries st :
  ltb zero w = true -> finiteStarts entries -> noSentinel entries ->
  withinInv w st -> withinInv w (fold_left (chunkStep w) entries st).
Proof.
  intros Hw. revert st.
  induction entries as [|e entries IH]; intros st Hnum Hsent Hst; trivial.
  inversion Hnum; inversion Hsent; subst. cbn [fold_left].
  apply IH; trivial. now apply chunkStep_withinInv.
Qed.

Lemma chunkBySeconds_allWithin (entries : list (@Entry num)) (w : num) :
  ltb zero w = true -> finiteStarts entries -> noSentinel entries ->
  Forall (allWithin w) (chunkBySeconds entries w).
Proof.
  intros Hw Hfin Hsent. unfold chunkBySeconds.
  destruct (chunkLoop_withinInv w entries chunkInit Hw Hfin Hsent)
    as [Hclosed Hopen].
  { split; [constructor | reflexivity]. }
  unfold chunkFlush.
  destruct (currentChunk (fold_left (chunkStep w) entries chunkInit))
    as [|first rest]; trivial.
  cbn [length Nat.ltb Nat.leb]. apply Forall_app; split; trivial.
  constructor; [tauto | constructor].
Qed.

End ChunkWindow.

(** X16. Every entry of a chunk starts within the window of the chunk: when
    the window is positive and the entries start at finite numbers other
    than -1, sorted or not, each entry of each chunk starts at most the
    window after the first entry of its chunk. *)
Theorem chunk_entries_within_window :
  (forall (entries : list (@Entry binary64)) (durationMinutes : binary64),
      ltb zero (mul durationMinutes (of_Z 60)) = true ->
      finiteStarts entries -> noSentinel entries ->
      Forall (allWithin (mul durationMinutes (of_Z 60)))
             (chunkSRTByDuration entries durationMinutes))
  /\ (forall (entries : list (@Entry exact)) (durationMinutes : exact),
         ltb zero (mul durationMinutes (of_Z 60)) = true ->
         finiteStarts entries -> noSentinel entries ->
         Forall (allWithin (mul durationMinutes (of_Z 60)))
                (chunkSRTByDuration entries durationMinutes)).
Proof.
  split; intros entries durationMinutes Hw Hfin Hsent; unfold chunkSRTByDuration.
  - now apply (chunkBySeconds_allWithin bin_sentinel_eq bin_leb_sub_self
                                        bin_not_gt_le).
  - now apply (chunkBySeconds_allWithin exact_sentinel_eq exact_finite_sub_self
                                        exact_finite_not_gt_le).
Qed.

Lemma chunk_entries_within_window_witness :
  let entry (x : binary64) : @Entry binary64 :=
    {| id := []; timeLine := []; startSeconds := x; text := []; fullBlock := [] |} in
  let entries := [entry 0; entry 600; entry 30; entry 1300]%float in
  Forall (allWithin (mul 10%float (of_Z 60)))
         (chunkSRTByDuration entries 10%float).
Proof.
  cbv zeta. apply (proj1 chunk_entries_within_window).
  - reflexivity.
  - repeat constructor.
  - repeat constructor.
Defined.


(** ** Timestamps are finite numbers in binary64 *)

Section Smallness.
Local Open Scope Z_scope.

Lemma smallSF_weaken (d d' : Z) (f : spec_float) :
  d <= d' -> smallSF d f -> smallSF d' f.
Proof.
  intro Hd. destruct f as [s|s| |s m e]; cbn [smallSF]; trivial.
  intros [He Hm]. split; [lia|].
  apply Z.lt_le_trans with (2 ^ (d - e)); [exact Hm|].
  apply Z.pow_le_mono_r; lia.
Qed.

Lemma smallSF_finite (d : Z) (f : spec_float) : smallSF d f -> finiteSF f.
Proof. destruct f; cbn; tauto. Qed.

Lemma small_digits (m : positive) (e d : Z) :
  e < d -> Zpos m < 2 ^ (d - e) -> Zpos (digits2_pos m) + e <= d.
Proof.
  intros He Hm. pose proof (digits2_pos_bounds m) as [Hlo _].
  assert (H : 2 ^ (Zpos (digits2_pos m) - 1) < 2 ^ (d - e)) by lia.
  apply Z.pow_lt_mono_r_iff in H; lia.
Qed.

Lemma shr_fexp_small (m : positive) (e d : Z) (l : location) :
  SpecFloat.emin prec emax <= e -> e < d -> Zpos m < 2 ^ (d - e) ->
  SpecFloat.emin prec emax <= snd (shr_fexp prec emax (Zpos m) e l)
  /\ snd (shr_fexp prec emax (Zpos m) e l) < d
  /\ 0 <= shr_m (fst (shr_fexp prec emax (Zpos m) e l))
          < 2 ^ (d - snd (shr_fexp prec emax (Zpos m) e l)).
Proof.
  intros Hmin He Hm. pose proof (small_digits m e d He Hm) as Hd.
  unfold shr_fexp, shr. rewrite Zdigits2_pos.
  destruct (fexp prec emax (Zpos (digits2_pos m) + e) - e) as [|n|n] eqn:Hn;
    cbn [fst snd]; rewrite ?shr_record_of_loc_m; try (repeat split; lia).
  rewrite iter_shr_1_value by (rewrite shr_record_of_loc_m; lia).
  rewrite shr_record_of_loc_m.
  assert (Hf : Zpos n = Zpos (digits2_pos m) - prec).
  { unfold fexp in Hn. lia. }
  assert (Hp : 0 < 2 ^ Zpos n) by (apply Z.pow_pos_nonneg; lia).
  assert (Hprec : prec = 53) by reflexivity.
  repeat split; try lia.
  - apply Z.div_pos; lia.
  - apply Z.div_lt_upper_bound; [exact Hp|].
    rewrite <- Z.pow_add_r by lia.
    replace (Zpos n + (d - (e + Zpos n))) with (d - e) by lia. exact Hm.
Qed.

Lemma round_nearest_even_bound (m : Z) (l : location) :
  0 <= m -> 0 <= round_nearest_even m l <= m + 1.
Proof.
  intro Hm. destruct l as [|[]]; cbn; try lia. destruct (Z.even m); lia.
Qed.

Lemma shr_fexp_zero (e : Z) (l : location) :
  shr_m (fst (shr_fexp prec emax 0 e l)) = 0.
Proof.
  unfold shr_fexp, shr.
  destruct (fexp prec emax (Zdigits2 0 + e) - e) as [|n|n];
    cbn [fst]; rewrite ?shr_record_of_loc_m; trivial.
  rewrite iter_shr_1_value by (rewrite shr_record_of_loc_m; lia).
  rewrite shr_record_of_loc_m. apply Z.div_0_l.
  apply Z.pow_nonzero; lia.
Qed.

Lemma binary_round_aux_small (sx : bool) (m : positive) (e d : Z) (l : location) :
  SpecFloat.emin prec emax <= e -> e < d -> Zpos m < 2 ^ (d - e) ->
  d <= emax - prec ->
  smallSF (d + 1) (binary_round_aux prec emax sx (Zpos m) e l).
Proof.
  intros Hmin He Hm Hd. unfold binary_round_aux.
  pose proof (shr_fexp_small m e d l Hmin He Hm) as (Hmin' & He' & Hm').
  destruct (shr_fexp prec emax (Zpos m) e l) as [mrs' e']. cbn [fst snd] in *.
  pose proof (round_nearest_even_bound (shr_m mrs') (loc_of_shr_record mrs')
                ltac:(lia)) as Hr.
  destruct (round_nearest_even _ _) as [|m1|m1] eqn:Hround; try lia.
  - pose proof (shr_fexp_zero e' loc_Exact) as Hz.
    destruct (shr_fexp prec emax 0 e' loc_Exact) as [mrs'' e'']. cbn [fst] in Hz.
    rewrite Hz. exact I.
  - assert (Hm1 : Zpos m1 < 2 ^ (d + 1 - e')).
    { replace (d + 1 - e') with (Z.succ (d - e')) by lia.
      rewrite Z.pow_succ_r by lia.
      assert (0 < 2 ^ (d - e')) by (apply Z.pow_pos_nonneg; lia). lia. }
    pose proof (shr_fexp_small m1 e' (d + 1) loc_Exact Hmin' ltac:(lia) Hm1)
      as (Hmin'' & He'' & Hm'').
    destruct (shr_fexp prec emax (Zpos m1) e' loc_Exact) as [mrs'' e''].
    cbn [fst snd] in *.
    destruct (shr_m mrs'') as [|p|p]; try lia; [exact I|].
    replace (e'' <=? emax - prec) with true by (symmetry; apply Z.leb_le; lia).
    cbn [smallSF]. split; lia.
Qed.

Lemma shl_align_small (m : positive) (e e' d : Z) :
  e < d -> Zpos m < 2 ^ (d - e) ->
  snd (shl_align m e e') = Z.min e e'
  /\ Zpos (fst (shl_align m e e')) < 2 ^ (d - snd (shl_align m e e')).
Proof.
  intros He Hm. unfold shl_align.
  destruct (e' - e) as [|k|k] eqn:Hk; cbn [fst snd]; try (split; [lia | exact Hm]).
  rewrite <- Pos2Z.opp_pos in Hk. split; [lia|].
  rewrite (iter_xO_value m k).
  replace (d - e') with ((d - e) + Zpos k) by lia.
  rewrite Z.pow_add_r by lia.
  apply Z.mul_lt_mono_pos_r; [apply Z.pow_pos_nonneg; lia | exact Hm].
Qed.

Lemma binary_round_small (sx : bool) (m : positive) (e d : Z) :
  SpecFloat.emin prec emax <= e -> e < d -> Zpos m < 2 ^ (d - e) ->
  d <= emax - prec ->
  smallSF (d + 1) (binary_round prec emax sx m e).
Proof.
  intros Hmin He Hm Hd. unfold binary_round.
  set (f := fexp prec emax (Zpos (digits2_pos m) + e)).
  assert (Hfe : SpecFloat.emin prec emax <= f) by (unfold f, fexp; lia).
  clearbody f.
  pose proof (shl_align_small m e f d He Hm) as [Hez Hmz].
  destruct (shl_align m e f) as [mz ez]. cbn [fst snd] in Hez, Hmz.
  apply binary_round_aux_small; trivial; lia.
Qed.

Lemma aligned_small (m : positive) (e ez d : Z) :
  ez <= e -> e < d -> Zpos m < 2 ^ (d - e) ->
  Zpos (fst (shl_align m e ez)) < 2 ^ (d - ez).
Proof.
  intros Hez He Hm. rewrite shl_align_value by exact Hez.
  replace (d - ez) with ((d - e) + (e - ez)) by lia.
  rewrite Z.pow_add_r by lia.
  apply Z.mul_lt_mono_pos_r; [apply Z.pow_pos_nonneg; lia | exact Hm].
Qed.

Lemma binary_normalize_small (s e d : Z) :
  SpecFloat.emin prec emax <= e -> e < d -> Z.abs s < 2 ^ (d - e) ->
  d <= emax - prec ->
  smallSF (d + 1) (binary_normalize prec emax s e false).
Proof.
  intros Hmin He Hs Hd. unfold binary_normalize.
  destruct s as [|p|p]; [exact I | |]; apply binary_round_small; trivial.
Qed.

Lemma SFadd_small (d : Z) (x y : spec_float) :
  valid_binary x = true -> valid_binary y = true ->
  smallSF d x -> smallSF d y -> d + 1 <= emax - prec ->
  smallSF (d + 2) (SFadd prec emax x y).
Proof.
  intros Vx Vy Sx Sy Hd.
  destruct x as [sx|sx| |sx mx ex], y as [sy|sy| |sy my ey];
    cbn [smallSF] in Sx, Sy; try tauto.
  - cbn. destruct sx; destruct sy; exact I.
  - cbn [SFadd]. apply (smallSF_weaken d); [lia | exact Sy].
  - cbn [SFadd]. apply (smallSF_weaken d); [lia | exact Sx].
  - cbn [SFadd]. cbn [SpecFloat.valid_binary] in Vx, Vy.
    apply bounded_canonical in Vx as (Hex & _), Vy as (Hey & _).
    destruct Sx as [Sx1 Sx2], Sy as [Sy1 Sy2].
    pose proof (aligned_small mx ex (Z.min ex ey) d ltac:(lia) Sx1 Sx2) as Ha.
    pose proof (aligned_small my ey (Z.min ex ey) d ltac:(lia) Sy1 Sy2) as Hb.
    replace (d + 2) with ((d + 1) + 1) by lia.
    apply binary_normalize_small; try lia.
    replace (d + 1 - Z.min ex ey) with (Z.succ (d - Z.min ex ey)) by lia.
    rewrite Z.pow_succ_r by lia.
    revert Ha Hb.
    generalize (Pos2Z.is_pos (fst (shl_align mx ex (Z.min ex ey)))).
    generalize (Pos2Z.is_pos (fst (shl_align my ey (Z.min ex ey)))).
    generalize (Zpos (fst (shl_align mx ex (Z.min ex ey)))).
    generalize (Zpos (fst (shl_align my ey (Z.min ex ey)))).
    generalize (2 ^ (d - Z.min ex ey)).
    intros p b a Hb0 Ha0 Ha Hb.
    destruct sx; destruct sy; cbn [cond_Zopp]; lia.
Qed.

End Smallness.

Lemma smallb_smallSF (d : Z) (x : binary64) :
  smallb d x = true <-> smallSF d (Prim2SF x).
Proof.
  unfold smallb. destruct (Prim2SF x) as [s|s| |s m e]; cbn [smallSF];
    try (split; [discriminate | tauto]); try tauto.
  rewrite andb_true_iff, Z.ltb_lt, Z.ltb_lt. tauto.
Qed.

Lemma bin_add_small (d : Z) (a b : binary64) :
  (d + 1 <= emax - prec)%Z ->
  smallb d a = true -> smallb d b = true -> smallb (d + 2) (add a b) = true.
Proof.
  intros Hd Ha Hb. apply smallb_smallSF in Ha, Hb. apply smallb_smallSF.
  cbn [add binary64_number]. rewrite add_spec.
  apply SFadd_small; trivial; apply Prim2SF_valid.
Qed.

Lemma bin_finite_isFinite (x : binary64) : finiteSF (Prim2SF x) -> isFinite x = true.
Proof.
  intro Hx. unfold isFinite. cbn [eqb sub binary64_number].
  rewrite eqb_spec, sub_spec. unfold SF64sub. now rewrite SFsub_self.
Qed.

Lemma smallb_isFinite (d : Z) (x : binary64) : smallb d x = true -> isFinite x = true.
Proof.
  intro Hx. apply smallb_smallSF in Hx.
  now apply bin_finite_isFinite, (smallSF_finite d).
Qed.

Lemma summandsSmall_range (z : Z) : (0 <= z <= 99)%Z -> summandsSmall z = true.
Proof.
  intro Hz.
  assert (Hall : forallb summandsSmall (map Z.of_nat (seq 0 100)) = true)
    by (vm_compute; reflexivity).
  rewrite forallb_forall in Hall. apply Hall, range_In. lia.
Qed.

Lemma millisSmall_range (z : Z) : (0 <= z <= 999)%Z -> millisSmall z = true.
Proof.
  intro Hz.
  assert (Hall : forallb millisSmall (map Z.of_nat (seq 0 1000)) = true)
    by (vm_compute; reflexivity).
  rewrite forallb_forall in Hall. apply Hall, range_In. lia.
Qed.

(** The seconds of a timestamp that the pattern of parseSRT matched are a
    finite number. *)
Lemma bin_secondsOf_finite (hh mm ss mmm : str) :
  fieldsOfMatch hh mm ss mmm -> isFinite (secondsOf hh mm ss mmm : binary64) = true.
Proof.
  intros ((Hh & Lh) & (Hm & Lm) & (Hs & Ls) & (Hms & Lms)).
  pose proof (summandsSmall_range _ (decimal_two_digits hh Hh Lh)) as Sh.
  pose proof (summandsSmall_range _ (decimal_two_digits mm Hm Lm)) as Sm.
  pose proof (summandsSmall_range _ (decimal_two_digits ss Hs Ls)) as Ss.
  pose proof (millisSmall_range _ (decimal_three_digits mmm Hms Lms)) as Sms.
  unfold summandsSmall in Sh, Sm, Ss. rewrite !andb_true_iff in Sh, Sm, Ss.
  unfold millisSmall in Sms.
  apply (smallb_isFinite 26). unfold secondsOf.
  apply (bin_add_small 24); [vm_compute; discriminate | |].
  - apply (bin_add_small 22); [vm_compute; discriminate | |].
    + apply (bin_add_small 20); [vm_compute; discriminate | tauto | tauto].
    + apply smallb_smallSF, (smallSF_weaken 20); [lia|].
      apply smallb_smallSF. tauto.
  - apply smallb_smallSF, (smallSF_weaken 20); [lia|].
    apply smallb_smallSF. exact Sms.
Qed.

Lemma bin_nonneg_not_sentinel (x : binary64) :
  leb zero x = true -> eqb x (of_Z (-1)) = false.
Proof.
  cbn [leb eqb binary64_number]. rewrite leb_spec, eqb_spec.
  change (Prim2SF zero) with (S754_zero false).
  set (s := Prim2SF (of_Z (-1))). vm_compute in s. subst s.
  destruct (Prim2SF x) as [sx|sx| |sx m e]; try destruct sx;
    cbv [SFleb SFeqb SFcompare]; intro Hle; try discriminate Hle; reflexivity.
Qed.

Lemma exact_nonneg_not_sentinel (x : exact) :
  leb zero x = true -> eqb x (of_Z (-1)) = false.
Proof.
  destruct x as [|q]; [discriminate|].
  change (leb zero (ENum q)) with (Qle_bool 0 q).
  change (eqb (ENum q) (of_Z (-1))) with (Qeq_bool q (inject_Z (-1))).
  intro Hq. apply Qle_bool_iff in Hq.
  destruct (Qeq_bool q (inject_Z (-1))) eqn:E; [|reflexivity].
  apply Qeq_bool_iff in E. rewrite E in Hq. exfalso. revert Hq.
  apply Qlt_not_le. reflexivity.
Qed.

Lemma exact_nonneg_finite (x : exact) : leb zero x = true -> isFinite x = true.
Proof.
  destruct x as [|q]; [discriminate|]. intros _.
  apply exact_isFinite_iff. now exists q.
Qed.

(** What the parser's entries start at, in both models: a finite number
    that is 0 or more, and so never the -1 of the chunker. *)
Lemma good_entries_chunkable (num : Type) (N : JsNumber num)
    (entries : list (@Entry num)) :
  (forall x : num, leb zero x = true -> eqb x (of_Z (-1)) = false) ->
  Forall (goodEntry (fun x => isFinite x = true /\ leb zero x = true)) entries ->
  finiteStarts entries /\ noSentinel entries.
Proof.
  intros Hsent Hall. unfold finiteStarts, noSentinel. split.
  - eapply Forall_impl; [|exact Hall]. now intros e [_ [He _]].
  - eapply Forall_impl; [|exact Hall]. intros e [_ [_ He]]. now apply Hsent.
Qed.

(** X17. Whatever the transcript, in binary64 as in exact arithmetic:
    parseSRT's entries start at finite numbers other than -1, so in
    analyzeTranscription every entry of a chunk starts at most 12 minutes
    after the first entry of its chunk, and every chunk but the first begins
    more than 12 minutes after the beginning of the chunk before it. *)
Theorem excerpts_respect_the_window :
  (forall transcriptionText : str,
      exists parsedEntries : list (@Entry binary64),
        parseSRT transcriptionText = Ok parsedEntries
        /\ finiteStarts parsedEntries /\ noSentinel parsedEntries
        /\ Forall (allWithin (mul (of_Z 12) (of_Z 60)))
                  (chunkSRTByDuration parsedEntries (of_Z 12))
        /\ forall i c c',
             nth_error (chunkSRTByDuration parsedEntries (of_Z 12)) i = Some c ->
             nth_error (chunkSRTByDuration parsedEntries (of_Z 12)) (S i) = Some c' ->
             startsAfter (mul (of_Z 12) (of_Z 60)) c c')
  /\ (forall transcriptionText : str,
         exists parsedEntries : list (@Entry exact),
           parseSRT transcriptionText = Ok parsedEntries
           /\ finiteStarts parsedEntries /\ noSentinel parsedEntries
           /\ Forall (allWithin (mul (of_Z 12) (of_Z 60)))
                     (chunkSRTByDuration parsedEntries (of_Z 12))
           /\ forall i c c',
                nth_error (chunkSRTByDuration parsedEntries (of_Z 12)) i = Some c ->
                nth_error (chunkSRTByDuration parsedEntries (of_Z 12)) (S i) = Some c' ->
                startsAfter (mul (of_Z 12) (of_Z 60)) c c').
Proof.
  split; intro transcriptionText.
  - destruct (parseSRT_spec (num := binary64)
                (fun x => isFinite x = true /\ leb zero x = true))
      with (srtContent := transcriptionText) as (entries & Hparse & _ & Hgood).
    + split; reflexivity.
    + intros hh mm ss mmm Hfields. split.
      * now apply bin_secondsOf_finite.
      * now apply bin_secondsOf_nonneg.
    + destruct (good_entries_chunkable _ _ entries bin_nonneg_not_sentinel Hgood)
        as [Hfin Hsent].
      exists entries. repeat split; trivial; unfold chunkSRTByDuration.
      * now apply (chunkBySeconds_allWithin bin_sentinel_eq bin_leb_sub_self
                                            bin_not_gt_le).
      * now apply (chunkBySeconds_forced bin_sentinel_eq).
  - destruct (parseSRT_spec (num := exact)
                (fun x => isFinite x = true /\ leb zero x = true))
      with (srtContent := transcriptionText) as (entries & Hparse & _ & Hgood).
    + split; reflexivity.
    + intros hh mm ss mmm Hfields.
      pose proof (exact_secondsOf_nonneg hh mm ss mmm Hfields) as Hnn.
      split; [now apply exact_nonneg_finite | exact Hnn].
    + destruct (good_entries_chunkable _ _ entries exact_nonneg_not_sentinel Hgood)
        as [Hfin Hsent].
      exists entries. repeat split; trivial; unfold chunkSRTByDuration.
      * now apply (chunkBySeconds_allWithin exact_sentinel_eq exact_finite_sub_self
                                            exact_finite_not_gt_le).
      * now apply (chunkBySeconds_forced exact_sentinel_eq).
Qed.

(** ** The greedy selection: ties go to the longer candidate *)

Section Priority.
Context {num : Type} `{JsNumber num}.

Hypothesis zero_number : isNaN (zero : num) = false.
Hypothesis leb_refl : forall a : num, isNaN a = false -> leb a a = true.
Hypothesis leb_trans :
  forall a b c : num, leb a b = true -> leb b c = true -> leb a c = true.
Hypothesis leb_antisym :
  forall a b : num, leb a b = true -> leb b a = true -> eqb a b = true.
Hypothesis order_by_sub :
  forall a b : num, isNaN a = false -> isNaN b = false ->
    if neqb b a
    then if gtb (sub b a) zero then leb a b = true else leb b a = true
    else leb a b = true /\ leb b a = true.







End Priority.






